(** * args: a shallow embedding of parser.go

    The Go package keeps a tree of [*Parser] nodes linked both ways
    (a node owns its children through [commands], a child points back
    through [parent]).  The embedding keeps that shape: nodes live in a
    store indexed by locations, a [*Parser] is an optional location
    ([None] is Go's nil), and every function of parser.go that the
    properties below talk about is transcribed over that store.

    Go leaves the order in which [range] visits a map unspecified.  The
    loops over [p.flags] and [p.options] are therefore run over an order
    handed in from outside (a [schedule]); every order that enumerates
    the map's entries exactly once is a legal one. *)

From stdpp Require Import base option list gmap strings fin_maps.
From Stdlib Require Import Ascii.

(** ** Strings: the pieces of Go's [strings] package and slicing that
    parser.go uses. *)

(** [strings.HasPrefix s prefix]. *)
Fixpoint HasPrefix (s prefix : string) {struct prefix} : bool :=
  match prefix, s with
  | EmptyString, _ => true
  | String _ _, EmptyString => false
  | String c prefix', String d s' =>
      if decide (c = d) then HasPrefix s' prefix' else false
  end.

(** The slice expression [s[n:]]. *)
Fixpoint slice_from (n : nat) (s : string) : string :=
  match n, s with
  | O, _ => s
  | S _, EmptyString => EmptyString
  | S n', String _ s' => slice_from n' s'
  end.

(** The part of [s] after the first occurrence of the byte [c]. *)
Fixpoint after_first (c : Ascii.ascii) (s : string) : string :=
  match s with
  | EmptyString => EmptyString
  | String d s' => if decide (c = d) then s' else after_first c s'
  end.

Fixpoint occurs (c : Ascii.ascii) (s : string) : bool :=
  match s with
  | EmptyString => false
  | String d s' => if decide (c = d) then true else occurs c s'
  end.

(** ** Data model *)

Module flagDef.
Record t := mk { name : string; short : string; help : string }.
End flagDef.

Module optionDef.
Record t := mk {
  name : string; short : string; help : string;
  choices : list string
}.
End optionDef.

Module Result.
Record t := mk {
  Command : list string;
  Flags : gmap string bool;
  Options : gmap string string;
  Positionals : list string;
  Args : list string
}.

(** The accessor [(r *Result) Flag(name)]. *)
Definition Flag (r : t) (name : string) : bool :=
  match Flags r !! name with
  | Some val => val
  | None => false
  end.
End Result.

(** Go's [error] values of this package are built from strings only. *)
Definition error := string.

(** What a call can do: return normally, return a Go [error], or stop
    with a run-time panic (a nil [*Parser] was dereferenced).  [Diverge]
    is only produced when a loop is cut off by its fuel. *)
Inductive outcome (A : Type) :=
  | Ret (a : A)
  | Err (e : error)
  | Panic
  | Diverge.
Arguments Ret {A} a.
Arguments Err {A} e.
Arguments Panic {A}.
Arguments Diverge {A}.

Global Instance outcome_ret : MRet outcome := @Ret.
Global Instance outcome_bind : MBind outcome := λ A B k m,
  match m with
  | Ret a => k a
  | Err e => Err e
  | Panic => Panic
  | Diverge => Diverge
  end.

(** A call that prints: the text handed to standard output by each
    [fmt.Print*] call so far, in order, and how the call ended.  What
    was printed before a panic stays printed. *)
Record printing (A : Type) := mkPrinting {
  output : list string;
  ending : outcome A
}.
Arguments mkPrinting {A} output ending.
Arguments output {A} _.
Arguments ending {A} _.

Global Instance printing_ret : MRet printing := λ A a, mkPrinting [] (Ret a).
Global Instance printing_bind : MBind printing := λ A B k m,
  match ending m with
  | Ret a => mkPrinting (output m ++ output (k a)) (ending (k a))
  | Err e => mkPrinting (output m) (Err e)
  | Panic => mkPrinting (output m) Panic
  | Diverge => mkPrinting (output m) Diverge
  end.

(** One [fmt.Print*] call, with the text it writes. *)
Definition fmt_Print (s : string) : printing unit := mkPrinting [s] (Ret ()).

(** A call that prints nothing. *)
Definition quiet {A} (m : outcome A) : printing A := mkPrinting [] m.

(** An [if] without [else] around printing statements. *)
Definition when (b : bool) (m : printing unit) : printing unit :=
  if b then m else mret ().

(** A location of the store, and a [*Parser]: nil or a location. *)
Definition loc := positive.
Definition ptr := option loc.
Definition nil : ptr := None.

(** A handler, a Go function from a [Result] pointer to an [error], is
    any function of the caller's: applied to a result it prints what it
    prints and ends by returning nil ([Ret ()]) or an error, or by a
    panic.  [None] is the nil function value. *)
Module Parser.
Record t := mk {
  name : string;
  description : string;
  flags : gmap string flagDef.t;
  options : gmap string optionDef.t;
  commands : gmap string loc;
  parent : ptr;
  handler : option (Result.t → printing unit);
  positionals : list string
}.
End Parser.

(** The store of allocated nodes. *)
Abbreviation heap := (gmap loc Parser.t).

(** Dereferencing a [*Parser]. *)
Definition deref (h : heap) (p : ptr) : outcome Parser.t :=
  match p with
  | None => Panic
  | Some l => match h !! l with Some node => Ret node | None => Panic end
  end.

(** ** Iteration order of [range] over a map *)

Record schedule := mkSchedule {
  flag_order : nat → gmap string flagDef.t → list flagDef.t;
  option_order : nat → gmap string optionDef.t → list optionDef.t
}.

(** The values of a map, in the order of its keys' codes. *)
Definition values {A} (m : gmap string A) : list A := (map_to_list m).*2.

Definition legal (σ : schedule) : Prop :=
  (∀ i m, flag_order σ i m ≡ₚ values m) ∧
  (∀ i m, option_order σ i m ≡ₚ values m).

Definition key_order : schedule :=
  {| flag_order := λ _ m, values m; option_order := λ _ m, values m |}.

(** ** parser.go *)

Definition set_Flags (r : Result.t) (k : string) : Result.t :=
  Result.mk (Result.Command r) (<[k := true]> (Result.Flags r))
            (Result.Options r) (Result.Positionals r) (Result.Args r).

Definition set_Options (r : Result.t) (k v : string) : Result.t :=
  Result.mk (Result.Command r) (Result.Flags r)
            (<[k := v]> (Result.Options r)) (Result.Positionals r)
            (Result.Args r).

Definition push_Command (r : Result.t) (arg : string) : Result.t :=
  Result.mk (Result.Command r ++ [arg]) (Result.Flags r)
            (Result.Options r) (Result.Positionals r) (Result.Args r).

Definition push_Positionals (r : Result.t) (arg : string) : Result.t :=
  Result.mk (Result.Command r) (Result.Flags r)
            (Result.Options r) (Result.Positionals r ++ [arg])
            (Result.Args r).

Definition set_Args (r : Result.t) : Result.t :=
  Result.mk (Result.Command r) (Result.Flags r)
            (Result.Options r) (Result.Positionals r)
            (Result.Positionals r).

(** The condition of the [if] in [parseFlag]. *)
Definition flag_matches (arg : string) (flag : flagDef.t) : bool :=
  bool_decide (arg = "--" +:+ flagDef.name flag)
  || (bool_decide (flagDef.short flag ≠ "")
      && bool_decide (arg = "-" +:+ flagDef.short flag)).

(** [parseFlag], over the order [fl] in which [range p.flags] yields
    the entries.  The result is updated in place in Go; here it is
    returned next to [(handled, consumed)]. *)
Fixpoint parseFlag (fl : list flagDef.t) (arg : string) (result : Result.t)
  : bool * nat * Result.t :=
  match fl with
  | [] => (false, 0, result)
  | flag :: fl' =>
      if flag_matches arg flag
      then (true, 1, set_Flags result (flagDef.name flag))
      else parseFlag fl' arg result
  end.

(** The conditions of the three [if]s in [parseOption]. *)
Definition inline_long (arg : string) (opt : optionDef.t) : bool :=
  HasPrefix arg ("--" +:+ optionDef.name opt +:+ "=").

Definition inline_short (arg : string) (opt : optionDef.t) : bool :=
  bool_decide (optionDef.short opt ≠ "")
  && HasPrefix arg ("-" +:+ optionDef.short opt +:+ "=").

Definition bare (arg : string) (opt : optionDef.t) : bool :=
  bool_decide (arg = "--" +:+ optionDef.name opt)
  || (bool_decide (optionDef.short opt ≠ "")
      && bool_decide (arg = "-" +:+ optionDef.short opt)).

(** [parseOption], over the order [ol] of [range p.options]; [args] is
    the slice [args[i:]] the caller passes.  [args[1]] is only read
    after the length test, so its lookup cannot fail there. *)
Fixpoint parseOption (ol : list optionDef.t) (arg : string)
    (args : list string) (result : Result.t) : bool * nat * Result.t :=
  match ol with
  | [] => (false, 0, result)
  | opt :: ol' =>
      if inline_long arg opt then
        let value :=
          slice_from (String.length ("--" +:+ optionDef.name opt +:+ "=")) arg in
        (true, 1, set_Options result (optionDef.name opt) value)
      else if inline_short arg opt then
        let value :=
          slice_from (String.length ("-" +:+ optionDef.short opt +:+ "=")) arg in
        (true, 1, set_Options result (optionDef.name opt) value)
      else if bare arg opt then
        if bool_decide (length args < 2) then (false, 0, result)
        else match args !! 1 with
             | Some v => (true, 2, set_Options result (optionDef.name opt) v)
             | None => (false, 0, result)
             end
      else parseOption ol' arg args result
  end.

(** The variables of [Parse]'s loop. *)
Record state := mkState {
  result : Result.t;
  current : ptr;
  i : nat
}.

(** The variables as [Parse] sets them up before the loop. *)
Definition Parse_init (p : ptr) : state :=
  mkState (Result.mk [] ∅ ∅ [] []) p 0.

Definition UnknownFlagError (arg : string) : error := "unknown flag: " +:+ arg.
Definition EmptyInputError : error := "no arguments provided".

Section Parse.
Context (σ : schedule) (h : heap).

(** One pass through the body of [for i < len(args)], entered with
    [i < len(args)]. *)
Definition Parse_body (args : list string) (st : state) : outcome state :=
  match args !! i st with
  | None => Panic
  | Some arg =>
      node ← deref h (current st);
      match Parser.commands node !! arg with
      | Some cmd =>
          Ret (mkState (push_Command (result st) arg) (Some cmd) (i st + 1))
      | None =>
          if HasPrefix arg "-" then
            match parseFlag (flag_order σ (i st) (Parser.flags node))
                            arg (result st) with
            | (true, consumed, r) => Ret (mkState r (current st) (i st + consumed))
            | (false, _, _) =>
                match parseOption (option_order σ (i st) (Parser.options node))
                                  arg (drop (i st) args) (result st) with
                | (true, consumed, r) =>
                    Ret (mkState r (current st) (i st + consumed))
                | (false, _, _) => Err (UnknownFlagError arg)
                end
            end
          else
            Ret (mkState (push_Positionals (result st) arg) (current st)
                         (i st + 1))
      end
  end.

Fixpoint Parse_loop (fuel : nat) (args : list string) (st : state)
  : outcome Result.t :=
  if bool_decide (i st < length args) then
    match fuel with
    | O => Diverge
    | S fuel' => st' ← Parse_body args st; Parse_loop fuel' args st'
    end
  else Ret (set_Args (result st)).

Definition Parse (p : ptr) (args : list string) : outcome Result.t :=
  if bool_decide (length args = 0) then Err EmptyInputError
  else Parse_loop (length args) args (Parse_init p).
End Parse.

(** ** Dispatch *)

Section Run_walk.
Context (h : heap).

(** [for _, cmd := range result.Command { current = current.commands[cmd] }]
    of [Run]: reading a missing key yields nil, reading a field of nil
    panics.  [Run] itself comes after [Usage], which it calls. *)
Fixpoint Run_walk (current : ptr) (cmds : list string) : outcome ptr :=
  match cmds with
  | [] => Ret current
  | cmd :: cmds' =>
      node ← deref h current;
      Run_walk (Parser.commands node !! cmd) cmds'
  end.
End Run_walk.

(** ** Collecting the definitions of a node and its ancestors *)

(** Go's [seen[k]] on a [map[string]bool]: a missing key reads false. *)
Definition seen_at (seen : gmap string bool) (k : string) : bool :=
  default false (seen !! k).

Section collect.
Context (σ : schedule) (h : heap).

(** The inner [for _, flag := range current.flags]. *)
Fixpoint collectFlags_range (fl flags : list flagDef.t)
    (seen : gmap string bool) : list flagDef.t * gmap string bool :=
  match fl with
  | [] => (flags, seen)
  | flag :: fl' =>
      if negb (seen_at seen (flagDef.name flag))
      then collectFlags_range fl' (flags ++ [flag])
                              (<[flagDef.name flag := true]> seen)
      else collectFlags_range fl' flags seen
  end.

(** The outer [for current != nil]; [level] counts the nodes already
    visited and only selects the iteration order. *)
Fixpoint collectFlags_loop (fuel level : nat) (current : ptr)
    (flags : list flagDef.t) (seen : gmap string bool)
  : outcome (list flagDef.t) :=
  match current with
  | None => Ret flags
  | Some _ =>
      match fuel with
      | O => Diverge
      | S fuel' =>
          node ← deref h current;
          let '(flags, seen) :=
            collectFlags_range (flag_order σ level (Parser.flags node))
                               flags seen in
          collectFlags_loop fuel' (S level) (Parser.parent node) flags seen
      end
  end.

(** A chain of parents without a cycle is no longer than the store. *)
Definition collectFlags (p : ptr) : outcome (list flagDef.t) :=
  collectFlags_loop (size h) 0 p [] ∅.

Fixpoint collectOptions_range (ol options : list optionDef.t)
    (seen : gmap string bool) : list optionDef.t * gmap string bool :=
  match ol with
  | [] => (options, seen)
  | opt :: ol' =>
      if negb (seen_at seen (optionDef.name opt))
      then collectOptions_range ol' (options ++ [opt])
                                (<[optionDef.name opt := true]> seen)
      else collectOptions_range ol' options seen
  end.

Fixpoint collectOptions_loop (fuel level : nat) (current : ptr)
    (options : list optionDef.t) (seen : gmap string bool)
  : outcome (list optionDef.t) :=
  match current with
  | None => Ret options
  | Some _ =>
      match fuel with
      | O => Diverge
      | S fuel' =>
          node ← deref h current;
          let '(options, seen) :=
            collectOptions_range (option_order σ level (Parser.options node))
                                 options seen in
          collectOptions_loop fuel' (S level) (Parser.parent node) options seen
      end
  end.

Definition collectOptions (p : ptr) : outcome (list optionDef.t) :=
  collectOptions_loop (size h) 0 p [] ∅.
End collect.

(** ** Printing the usage text *)

(** The line feed, written [\n] in Go. *)
Definition LF : string := String "010"%char EmptyString.

(** [strings.Join]. *)
Fixpoint Join (elems : list string) (sep : string) : string :=
  match elems with
  | [] => ""
  | a :: rest =>
      match rest with
      | [] => a
      | _ :: _ => a +:+ sep +:+ Join rest sep
      end
  end.

Fixpoint repeat_string (n : nat) (s : string) : string :=
  match n with
  | O => ""
  | S n' => s +:+ repeat_string n' s
  end.

(** The largest [int], on a 64-bit platform. *)
Definition maxInt : Z := 9223372036854775807.

(** [strings.Repeat]: it panics on a negative count, and when the
    length of the result does not fit an [int]. *)
Definition Repeat (s : string) (count : Z) : outcome string :=
  if bool_decide (count < 0)%Z then Panic
  else if bool_decide (maxInt < Z.of_nat (String.length s) * count)%Z
       then Panic
       else Ret (repeat_string (Z.to_nat count) s).

(** [max], on [int]. *)
Definition max (a b : Z) : Z := if bool_decide (a > b)%Z then a else b.

Section Usage.
(** The order in which [range p.commands] yields the entries, the
    library's [utf8.RuneCountInString] (the [%-15s] verb pads to a width
    counted in runes), and the process's [os.Args]. *)
Context (σ : schedule).
Context (command_order : gmap string loc → list (string * loc)).
Context (RuneCountInString : string → nat).
Context (os_Args : list string).
Context (h : heap).

(** The loop of [getPath]. *)
Fixpoint getPath_loop (fuel : nat) (current : ptr) (parts : list string)
  : outcome (list string) :=
  match current with
  | None => Ret parts
  | Some _ =>
      match fuel with
      | O => Diverge
      | S fuel' =>
          node ← deref h current;
          let parts :=
            if bool_decide (Parser.name node ≠ "")
            then Parser.name node :: parts else parts in
          getPath_loop fuel' (Parser.parent node) parts
      end
  end.

Definition getPath (p : ptr) : outcome string :=
  parts ← getPath_loop (size h) p [];
  if bool_decide (length parts = 0) then
    match os_Args !! 0 with
    | Some arg0 => Ret arg0
    | None => Panic
    end
  else Ret (Join parts " ").

(** The verb [%-15s]: the string, then spaces up to 15 runes. *)
Definition pad_right (width : nat) (s : string) : string :=
  s +:+ repeat_string (width - RuneCountInString s) " ".

(** [desc] and [help] as they are shown: a dash when empty. *)
Definition or_dash (s : string) : string :=
  if bool_decide (s = "") then "-" else s.

(** [short] as formatted in the two loops. *)
Definition short_prefix (short : string) : string :=
  if bool_decide (short ≠ "") then "-" +:+ short +:+ ", " else "".

(** The line of one flag; [strings.Repeat] is evaluated before
    anything of the line is printed. *)
Definition flag_line (flag : flagDef.t) : outcome string :=
  let short := short_prefix (flagDef.short flag) in
  let help := or_dash (flagDef.help flag) in
  pad ← Repeat " "
          (15 - Z.of_nat (String.length (short +:+ flagDef.name flag)));
  Ret ("  " +:+ short +:+ "--" +:+ flagDef.name flag +:+ pad +:+ " "
       +:+ help +:+ LF).

Definition choices_suffix (choices : list string) : string :=
  if bool_decide (0 < length choices)
  then " {" +:+ Join choices "|" +:+ "}" else "".

(** The line of one option. *)
Definition option_line (opt : optionDef.t) : outcome string :=
  let short := short_prefix (optionDef.short opt) in
  let choices := choices_suffix (optionDef.choices opt) in
  let help := or_dash (optionDef.help opt) in
  pad ← Repeat " "
          (max 0 (10 - Z.of_nat (String.length
                                   (short +:+ optionDef.name opt +:+ choices))));
  Ret ("  " +:+ short +:+ "--" +:+ optionDef.name opt +:+ " <value>"
       +:+ choices +:+ pad +:+ " " +:+ help +:+ LF).

(** The loops of [Usage]. *)
Fixpoint Usage_positionals (positionals : list string) : printing unit :=
  match positionals with
  | [] => mret ()
  | pos :: positionals' =>
      fmt_Print (" <" +:+ pos +:+ ">");; Usage_positionals positionals'
  end.

Fixpoint Usage_commands (commands : list (string * loc)) : printing unit :=
  match commands with
  | [] => mret ()
  | (name, cmd) :: commands' =>
      child ← quiet (deref h (Some cmd));
      fmt_Print ("  " +:+ pad_right 15 name +:+ " "
                 +:+ or_dash (Parser.description child) +:+ LF);;
      Usage_commands commands'
  end.

Fixpoint Usage_flags (flags : list flagDef.t) : printing unit :=
  match flags with
  | [] => mret ()
  | flag :: flags' =>
      line ← quiet (flag_line flag);
      fmt_Print line;; Usage_flags flags'
  end.

Fixpoint Usage_options (options : list optionDef.t) : printing unit :=
  match options with
  | [] => mret ()
  | opt :: options' =>
      line ← quiet (option_line opt);
      fmt_Print line;; Usage_options options'
  end.

Definition Usage (p : ptr) : printing unit :=
  path ← quiet (getPath p);
  fmt_Print ("Usage: " +:+ path);;
  node ← quiet (deref h p);
  when (bool_decide (0 < size (Parser.commands node)))
       (fmt_Print " <command>");;
  when (bool_decide (0 < size (Parser.flags node))
        || bool_decide (0 < size (Parser.options node)))
       (fmt_Print " [options]");;
  when (bool_decide (0 < length (Parser.positionals node)))
       (Usage_positionals (Parser.positionals node));;
  fmt_Print LF;;
  when (bool_decide (Parser.description node ≠ ""))
       (fmt_Print (LF +:+ Parser.description node +:+ LF));;
  when (bool_decide (0 < size (Parser.commands node)))
       (fmt_Print (LF +:+ "Commands:" +:+ LF);;
        Usage_commands (command_order (Parser.commands node)));;
  flags ← quiet (collectFlags σ h p);
  when (bool_decide (0 < length flags))
       (fmt_Print (LF +:+ "Flags:" +:+ LF);; Usage_flags flags);;
  options ← quiet (collectOptions σ h p);
  when (bool_decide (0 < length options))
       (fmt_Print (LF +:+ "Options:" +:+ LF);; Usage_options options).

(** [Run]: the error of [Parse] is returned as it is; otherwise the
    handler of the node at the end of the command path is called on the
    result, or, when it is nil, [Usage] of that node is called and nil
    is returned. *)
Definition Run (p : ptr) (args : list string) : printing unit :=
  result ← quiet (Parse σ h p args);
  current ← quiet (Run_walk h p (Result.Command result));
  node ← quiet (deref h current);
  match Parser.handler node with
  | Some fn => fn result
  | None => Usage current;; mret ()
  end.
End Usage.

(** ** The builder *)

(** Assignments to single fields of a node. *)
Definition set_description (n : Parser.t) (v : string) : Parser.t :=
  Parser.mk (Parser.name n) v (Parser.flags n) (Parser.options n)
            (Parser.commands n) (Parser.parent n) (Parser.handler n)
            (Parser.positionals n).

Definition set_flags (n : Parser.t) (v : gmap string flagDef.t) : Parser.t :=
  Parser.mk (Parser.name n) (Parser.description n) v (Parser.options n)
            (Parser.commands n) (Parser.parent n) (Parser.handler n)
            (Parser.positionals n).

Definition set_options (n : Parser.t) (v : gmap string optionDef.t)
  : Parser.t :=
  Parser.mk (Parser.name n) (Parser.description n) (Parser.flags n) v
            (Parser.commands n) (Parser.parent n) (Parser.handler n)
            (Parser.positionals n).

Definition set_commands (n : Parser.t) (v : gmap string loc) : Parser.t :=
  Parser.mk (Parser.name n) (Parser.description n) (Parser.flags n)
            (Parser.options n) v (Parser.parent n) (Parser.handler n)
            (Parser.positionals n).

Definition set_parent (n : Parser.t) (v : ptr) : Parser.t :=
  Parser.mk (Parser.name n) (Parser.description n) (Parser.flags n)
            (Parser.options n) (Parser.commands n) v (Parser.handler n)
            (Parser.positionals n).

Definition set_handler (n : Parser.t) (v : option (Result.t → printing unit))
  : Parser.t :=
  Parser.mk (Parser.name n) (Parser.description n) (Parser.flags n)
            (Parser.options n) (Parser.commands n) (Parser.parent n) v
            (Parser.positionals n).

Definition set_positionals (n : Parser.t) (v : list string) : Parser.t :=
  Parser.mk (Parser.name n) (Parser.description n) (Parser.flags n)
            (Parser.options n) (Parser.commands n) (Parser.parent n)
            (Parser.handler n) v.

(** [New] allocates a node at a location the store does not use yet;
    the pointer it returns is [Some] of that location. *)
Definition New (name : string) (h : heap) : loc * heap :=
  let l := fresh (dom h) in
  (l, <[l := Parser.mk name "" ∅ ∅ ∅ nil None []]> h).

(** An assignment through the pointer [p]; it panics on nil. *)
Definition update (p : ptr) (f : Parser.t → Parser.t) (h : heap)
  : outcome heap :=
  match p with
  | None => Panic
  | Some l =>
      match h !! l with
      | Some node => Ret (<[l := f node]> h)
      | None => Panic
      end
  end.

(** Every builder method returns a [*Parser] and leaves a new store. *)
Definition Flag (p : ptr) (name short help : string) (h : heap)
  : outcome (ptr * heap) :=
  h ← update p (λ n,
      set_flags n (<[name := flagDef.mk name short help]> (Parser.flags n))) h;
  Ret (p, h).

Definition Option (p : ptr) (name short help : string)
    (choices : list string) (h : heap) : outcome (ptr * heap) :=
  h ← update p (λ n,
      set_options n (<[name := optionDef.mk name short help choices]>
                       (Parser.options n))) h;
  Ret (p, h).

Definition Command (p : ptr) (name help : string) (h : heap)
  : outcome (ptr * heap) :=
  let '(l, h) := New name h in
  let child := Some l in
  h ← update child (λ n, set_description n help) h;
  h ← update child (λ n, set_parent n p) h;
  h ← update p (λ n, set_commands n (<[name := l]> (Parser.commands n))) h;
  Ret (child, h).

(** [fn] may be the nil function: the assignment then clears the
    handler. *)
Definition Action (p : ptr) (fn : option (Result.t → printing unit))
    (h : heap) : outcome (ptr * heap) :=
  h ← update p (λ n, set_handler n fn) h;
  Ret (p, h).

Definition Positional (p : ptr) (name : string) (h : heap)
  : outcome (ptr * heap) :=
  h ← update p (λ n, set_positionals n (Parser.positionals n ++ [name])) h;
  Ret (p, h).

(** ** Vocabulary of the properties *)

(** The flag [parseFlag] stops at: the first one of the range that the
    token matches. *)
Definition matched_flag (fl : list flagDef.t) (arg : string)
  : option flagDef.t :=
  List.find (flag_matches arg) fl.

Definition declined (arg : string) (args : list string) (opt : optionDef.t)
  : Prop :=
  inline_long arg opt = false ∧ inline_short arg opt = false ∧
  (bare arg opt = false ∨ length args < 2).

(** The three accepting forms, when [opt] is the only option of the
    range that the token can be read as. *)
Definition reads_as (arg : string) (opt : optionDef.t) : bool :=
  inline_long arg opt || inline_short arg opt || bare arg opt.

Section walk.
Context (σ : schedule) (h : heap).

(** What one pass through the loop body can have done. *)
Inductive pass (args : list string) (st : state) : state → Prop :=
  | pass_command arg node cmd :
      args !! i st = Some arg →
      deref h (current st) = Ret node →
      Parser.commands node !! arg = Some cmd →
      pass args st (mkState (push_Command (result st) arg) (Some cmd)
                            (i st + 1))
  | pass_flag arg node flag :
      args !! i st = Some arg →
      deref h (current st) = Ret node →
      Parser.commands node !! arg = None →
      HasPrefix arg "-" = true →
      matched_flag (flag_order σ (i st) (Parser.flags node)) arg
        = Some flag →
      pass args st (mkState (set_Flags (result st) (flagDef.name flag))
                            (current st) (i st + 1))
  | pass_option arg node opt v consumed :
      args !! i st = Some arg →
      deref h (current st) = Ret node →
      Parser.commands node !! arg = None →
      HasPrefix arg "-" = true →
      matched_flag (flag_order σ (i st) (Parser.flags node)) arg = None →
      opt ∈ option_order σ (i st) (Parser.options node) →
      consumed = 1 ∨ (consumed = 2 ∧ i st + 2 ≤ length args) →
      pass args st (mkState (set_Options (result st) (optionDef.name opt) v)
                            (current st) (i st + consumed))
  | pass_positional arg node :
      args !! i st = Some arg →
      deref h (current st) = Ret node →
      Parser.commands node !! arg = None →
      HasPrefix arg "-" = false →
      pass args st (mkState (push_Positionals (result st) arg) (current st)
                            (i st + 1)).

(** The states the loop goes through from a given one. *)
Inductive visits (args : list string) : state → state → Prop :=
  | visits_here st : visits args st st
  | visits_pass st st' st'' :
      i st < length args →
      Parse_body σ h args st = Ret st' →
      visits args st' st'' →
      visits args st st''.

(** At [st] the loop body calls [parseFlag], and [parseFlag] stops at a
    flag called [name]. *)
Definition flag_hit (args : list string) (st : state) (name : string) : Prop :=
  ∃ arg node flag,
    args !! i st = Some arg ∧
    deref h (current st) = Ret node ∧
    Parser.commands node !! arg = None ∧
    matched_flag (flag_order σ (i st) (Parser.flags node)) arg = Some flag ∧
    flagDef.name flag = name.

(** The pass at [st] changes what [Options] holds at [name]. *)
Definition option_stored (args : list string) (st : state) (name : string)
  : Prop :=
  ∃ st', Parse_body σ h args st = Ret st' ∧
         Result.Options (result st') !! name
           ≠ Result.Options (result st) !! name.
End walk.

(** The nodes from [p] up to the root, following [parent]. *)
Inductive chain (h : heap) : ptr → list (loc * Parser.t) → Prop :=
  | chain_root : chain h nil []
  | chain_up l node c :
      h !! l = Some node →
      chain h (Parser.parent node) c →
      chain h (Some l) ((l, node) :: c).

(** [anc] is reached from [l] by one or more [parent] links. *)
Inductive ancestor (h : heap) : loc → loc → Prop :=
  | ancestor_parent l node anc :
      h !! l = Some node →
      Parser.parent node = Some anc →
      ancestor h l anc
  | ancestor_up l node mid anc :
      h !! l = Some node →
      Parser.parent node = Some mid →
      ancestor h mid anc →
      ancestor h l anc.

(** [Flag] and [Option] file every definition under its own name. *)
Definition keyed (node : Parser.t) : Prop :=
  (∀ k flag, Parser.flags node !! k = Some flag → flagDef.name flag = k) ∧
  (∀ k opt, Parser.options node !! k = Some opt → optionDef.name opt = k).

(** [Command] only ever stores children it has just allocated: every
    child named by a node of the store is in the store. *)
Definition closed (h : heap) : Prop :=
  ∀ l node name cmd,
    h !! l = Some node → Parser.commands node !! name = Some cmd →
    is_Some (h !! cmd).

(** What the builder guarantees of every store it leaves: children are
    allocated, definitions are filed under their names, and from every
    node the parent links reach the root. *)
Definition wf (h : heap) : Prop :=
  closed h ∧
  (∀ l node, h !! l = Some node → keyed node) ∧
  (∀ l node, h !! l = Some node → ∃ c, chain h (Some l) c).

(** [collectFlags] and [collectOptions] are the same loops over two
    fields; this is their common shape, over which their properties are
    proved once. *)
Section collect_shape.
Context {D : Type} (dname : D → string).

Fixpoint collect_range (dl defs : list D) (seen : gmap string bool)
  : list D * gmap string bool :=
  match dl with
  | [] => (defs, seen)
  | d :: dl' =>
      if negb (seen_at seen (dname d))
      then collect_range dl' (defs ++ [d]) (<[dname d := true]> seen)
      else collect_range dl' defs seen
  end.

Context (h : heap) (field : Parser.t → gmap string D).
Context (order : nat → gmap string D → list D).

Fixpoint collect_loop (fuel level : nat) (current : ptr) (defs : list D)
    (seen : gmap string bool) : outcome (list D) :=
  match current with
  | None => Ret defs
  | Some _ =>
      match fuel with
      | O => Diverge
      | S fuel' =>
          node ← deref h current;
          let '(defs, seen) :=
            collect_range (order level (field node)) defs seen in
          collect_loop fuel' (S level) (Parser.parent node) defs seen
      end
  end.
End collect_shape.

(** What collecting over the levels [levels] (the starting node's map
    first) is to return: a definition filed under its name at some
    level, no level closer to the start having that name. *)
Definition collected {D : Type} (dname : D → string)
    (levels : list (gmap string D)) (d : D) : Prop :=
  ∃ n m, levels !! n = Some m ∧ m !! dname d = Some d ∧
         ∀ j m', j < n → levels !! j = Some m' → m' !! dname d = None.

(** [seen] marks exactly the names of [defs]. *)
Definition seen_ok {D : Type} (dname : D → string)
    (seen : gmap string bool) (defs : list D) : Prop :=
  ∀ n, seen_at seen n = true ↔ n ∈ dname <$> defs.

(** Every definition of [m] is filed under its own name. *)
Definition keyed_map {D : Type} (dname : D → string) (m : gmap string D)
  : Prop :=
  ∀ k d, m !! k = Some d → dname d = k.

(** Two stores with the same nodes at the same places, up to what
    [Parse] never reads: names, descriptions, parents, handlers and the
    declared positionals. *)
Definition same_grammar (h h' : heap) : Prop :=
  ∀ l, option_Forall2
         (λ n n', Parser.flags n = Parser.flags n' ∧
                  Parser.options n = Parser.options n' ∧
                  Parser.commands n = Parser.commands n')
         (h !! l) (h' !! l).

(** The non-empty names along a chain of parents, the root's first. *)
Definition path_names (c : list (loc * Parser.t)) : list string :=
  reverse (filter (λ s, s ≠ "") (Parser.name <$> c.*2)).

(** The width [Usage] computes for the line of a flag: the length in
    bytes of the formatted alias followed by the name. *)
Definition flag_width (flag : flagDef.t) : nat :=
  String.length (short_prefix (flagDef.short flag) +:+ flagDef.name flag).

(** The same for the line of an option, its choices included. *)
Definition option_width (opt : optionDef.t) : nat :=
  String.length (short_prefix (optionDef.short opt) +:+ optionDef.name opt
                 +:+ choices_suffix (optionDef.choices opt)).

(** ** Trees used in the examples *)

(** A three-level tree, as the builder leaves it: [app] at location 1,
    its child [run] at 2 and [run]'s child [exec] at 3. *)
Definition app_script : outcome (ptr * heap) :=
  let '(l, h) := New "app" ∅ in
  let app := Some l in
  '(_, h) ← Flag app "verbose" "v" "Enable verbose output" h;
  '(_, h) ← Option app "config" "c" "Config file path" [] h;
  '(run, h) ← Command app "run" "Run container" h;
  '(_, h) ← Flag run "detach" "d" "Run in background" h;
  '(_, h) ← Option run "name" "" "Container name" [] h;
  '(exec, h) ← Command run "exec" "Run a command" h;
  '(_, h) ← Flag exec "tty" "t" "Allocate a terminal" h;
  '(_, h) ← Flag exec "verbose" "" "Log the command" h;
  '(_, h) ← Option exec "name" "n" "Process name" [] h;
  Ret (app, h).

Definition app_node : Parser.t :=
  Parser.mk "app" ""
    {["verbose" := flagDef.mk "verbose" "v" "Enable verbose output"]}
    {["config" := optionDef.mk "config" "c" "Config file path" []]}
    {["run" := 2%positive]} nil None [].

Definition run_node : Parser.t :=
  Parser.mk "run" "Run container"
    {["detach" := flagDef.mk "detach" "d" "Run in background"]}
    {["name" := optionDef.mk "name" "" "Container name" []]}
    {["exec" := 3%positive]} (Some 1%positive) None [].

Definition exec_node : Parser.t :=
  Parser.mk "exec" "Run a command"
    {["tty" := flagDef.mk "tty" "t" "Allocate a terminal";
      "verbose" := flagDef.mk "verbose" "" "Log the command"]}
    {["name" := optionDef.mk "name" "n" "Process name" []]}
    ∅ (Some 2%positive) None [].

Definition app_heap : heap :=
  {[1%positive := app_node; 2%positive := run_node; 3%positive := exec_node]}.

(** A node at location 1 whose flags share the alias [v], whose options
    share the alias [c], and with a child called [--help] at 2. *)
Definition tool_script : outcome (ptr * heap) :=
  let '(l, h) := New "tool" ∅ in
  let tool := Some l in
  '(_, h) ← Flag tool "verbose" "v" "Enable verbose output" h;
  '(_, h) ← Flag tool "version" "v" "Print the version" h;
  '(_, h) ← Option tool "config" "c" "Config file path" [] h;
  '(_, h) ← Option tool "count" "c" "Number of runs" [] h;
  '(_, h) ← Command tool "--help" "Show help" h;
  Ret (tool, h).

Definition tool_node : Parser.t :=
  Parser.mk "tool" ""
    {["verbose" := flagDef.mk "verbose" "v" "Enable verbose output";
      "version" := flagDef.mk "version" "v" "Print the version"]}
    {["config" := optionDef.mk "config" "c" "Config file path" [];
      "count" := optionDef.mk "count" "c" "Number of runs" []]}
    {["--help" := 2%positive]} nil None [].

Definition help_node : Parser.t :=
  Parser.mk "--help" "Show help" ∅ ∅ ∅ (Some 1%positive) None [].

Definition tool_heap : heap :=
  {[1%positive := tool_node; 2%positive := help_node]}.

(** A root at location 1 with the flag [verbose], alias [v]; its child
    [remote] at 2 declares nothing but a child of its own called [-v],
    at 3. *)
Definition git_script : outcome (ptr * heap) :=
  let '(l, h) := New "git" ∅ in
  let git := Some l in
  '(_, h) ← Flag git "verbose" "v" "Be verbose" h;
  '(remote, h) ← Command git "remote" "Manage remotes" h;
  '(_, h) ← Command remote "-v" "List remotes with their URLs" h;
  Ret (git, h).

Definition git_node : Parser.t :=
  Parser.mk "git" "" {["verbose" := flagDef.mk "verbose" "v" "Be verbose"]}
            ∅ {["remote" := 2%positive]} nil None [].

Definition remote_node : Parser.t :=
  Parser.mk "remote" "Manage remotes" ∅ ∅ {["-v" := 3%positive]}
            (Some 1%positive) None [].

Definition remote_v_node : Parser.t :=
  Parser.mk "-v" "List remotes with their URLs" ∅ ∅ ∅
            (Some 2%positive) None [].

Definition git_heap : heap :=
  {[1%positive := git_node; 2%positive := remote_node;
    3%positive := remote_v_node]}.

(** A root at location 1 in which names run into each other: the child
    [--help] and the flag [help]; the child [-o], the flag
    [output=json] and the option [output] with alias [o]; and an option
    whose name contains [=]. *)
Definition clash_script : outcome (ptr * heap) :=
  let '(l, h) := New "cli" ∅ in
  let cli := Some l in
  '(_, h) ← Flag cli "help" "h" "Show help" h;
  '(_, h) ← Flag cli "output=json" "" "Print JSON" h;
  '(_, h) ← Option cli "output" "o" "Output format" [] h;
  '(_, h) ← Option cli "k=v" "" "A pair" [] h;
  '(_, h) ← Command cli "--help" "Show help" h;
  '(_, h) ← Command cli "-o" "Open" h;
  Ret (cli, h).

Definition clash_node : Parser.t :=
  Parser.mk "cli" ""
    {["help" := flagDef.mk "help" "h" "Show help";
      "output=json" := flagDef.mk "output=json" "" "Print JSON"]}
    {["output" := optionDef.mk "output" "o" "Output format" [];
      "k=v" := optionDef.mk "k=v" "" "A pair" []]}
    {["--help" := 2%positive; "-o" := 3%positive]} nil None [].

Definition clash_heap : heap :=
  {[1%positive := clash_node;
    2%positive := Parser.mk "--help" "Show help" ∅ ∅ ∅ (Some 1%positive) None [];
    3%positive := Parser.mk "-o" "Open" ∅ ∅ ∅ (Some 1%positive) None []]}.

(** The command line of the README's example, and what [Parse] makes of
    it at [app]. *)
Definition readme_args : list string := ["run"; "-d"; "--name=web"; "nginx"].

Definition readme_result : Result.t :=
  Result.mk ["run"] {["detach" := true]} {["name" := "web"]}
            ["nginx"] ["nginx"].

(** A single node with a flag whose name is 13 bytes long, the alias
    adding 4 more. *)
Definition wide_node : Parser.t :=
  Parser.mk "cli" ""
    {["output-format" := flagDef.mk "output-format" "o" "Output format"]}
    ∅ ∅ nil None [].

Definition wide_heap : heap := {[1%positive := wide_node]}.

(** Case analysis over the entries of a map that is written out. *)
Ltac in_range H :=
  apply elem_of_map_to_list in H; vm_compute in H;
  repeat (apply elem_of_cons in H as [H|H]; [simplify_eq; try done|]);
  try (by apply elem_of_nil in H).

(** * Properties *)

(** ** Strings *)

Lemma append_cons (c : Ascii.ascii) (s t : string) :
  String c s +:+ t = String c (s +:+ t).
Proof. reflexivity. Qed.

Lemma append_nil_l (s : string) : "" +:+ s = s.
Proof. reflexivity. Qed.

Lemma HasPrefix_app (prefix s : string) : HasPrefix (prefix +:+ s) prefix = true.
Proof.
  induction prefix as [|c prefix IH]; [done|].
  rewrite append_cons. simpl. by case_decide.
Qed.

Lemma slice_from_app (prefix s : string) :
  slice_from (String.length prefix) (prefix +:+ s) = s.
Proof.
  induction prefix as [|c prefix IH]; [by destruct s|].
  by rewrite append_cons.
Qed.

Lemma HasPrefix_inv (s prefix : string) :
  HasPrefix s prefix = true → ∃ rest, s = prefix +:+ rest.
Proof.
  revert s. induction prefix as [|c prefix IH]; intros s Hp; simpl in *.
  - by exists s.
  - destruct s as [|d s]; [done|].
    destruct (decide (c = d)) as [->|]; [|done].
    destruct (IH _ Hp) as [rest ->]. exists rest. by rewrite append_cons.
Qed.

Lemma app_assoc_string (a b c : string) : (a +:+ b) +:+ c = a +:+ b +:+ c.
Proof.
  induction a as [|x a IH]; [done|]. rewrite !append_cons. by f_equal.
Qed.

Lemma after_first_app (c : Ascii.ascii) (prefix s : string) :
  occurs c prefix = false →
  after_first c (prefix +:+ String c s) = s.
Proof.
  induction prefix as [|d prefix IH]; intros Hocc.
  - rewrite append_nil_l. simpl. by case_decide.
  - rewrite append_cons. simpl in *. case_decide; [done|by apply IH].
Qed.

Lemma HasPrefix_head (s : string) (c : Ascii.ascii) (prefix : string) :
  HasPrefix s (String c prefix) = true → HasPrefix s (String c "") = true.
Proof.
  destruct s as [|d s]; simpl; [done|]. by case_decide.
Qed.

(** ** [parseFlag] *)

Lemma flag_matches_dash (arg : string) (flag : flagDef.t) :
  flag_matches arg flag = true → HasPrefix arg "-" = true.
Proof.
  unfold flag_matches. intros H.
  apply orb_true_iff in H as [H|H].
  - apply bool_decide_eq_true in H as ->. done.
  - apply andb_true_iff in H as [_ H].
    apply bool_decide_eq_true in H as ->. done.
Qed.

Lemma parseFlag_declined (fl : list flagDef.t) (arg : string) (r : Result.t) :
  Forall (λ flag, flag_matches arg flag = false) fl →
  parseFlag fl arg r = (false, 0, r).
Proof.
  induction 1 as [|flag fl Hm _ IH]; simpl; [done|]. by rewrite Hm.
Qed.

Lemma parseFlag_inv (fl : list flagDef.t) (arg : string) (r r' : Result.t)
    (handled : bool) (consumed : nat) :
  parseFlag fl arg r = (handled, consumed, r') →
  (handled = true ∧ consumed = 1 ∧
   ∃ flag, flag ∈ fl ∧ flag_matches arg flag = true ∧
           r' = set_Flags r (flagDef.name flag)) ∨
  (handled = false ∧ consumed = 0 ∧ r' = r ∧
   Forall (λ flag, flag_matches arg flag = false) fl).
Proof.
  induction fl as [|flag fl IH]; simpl.
  - intros [= <- <- <-]. right. by repeat split.
  - destruct (flag_matches arg flag) eqn:Hm.
    + intros [= <- <- <-]. left. repeat split.
      exists flag. split; [by left|done].
    + intros Heq. destruct (IH Heq) as [(-> & -> & flag' & Hin & Hm' & ->)
                                       |(-> & -> & -> & Hall)].
      * left. repeat split. exists flag'. split; [by right|done].
      * right. repeat split. by constructor.
Qed.

(** When every matching flag of the range carries the same name, the
    order of the range does not show. *)
Lemma parseFlag_accepts (fl : list flagDef.t) (arg : string) (r : Result.t)
    (flag : flagDef.t) :
  flag ∈ fl →
  flag_matches arg flag = true →
  (∀ flag', flag' ∈ fl → flag_matches arg flag' = true →
            flagDef.name flag' = flagDef.name flag) →
  parseFlag fl arg r = (true, 1, set_Flags r (flagDef.name flag)).
Proof.
  intros Hin Hm Huniq.
  destruct (parseFlag fl arg r) as [[handled consumed] r'] eqn:Heq.
  destruct (parseFlag_inv _ _ _ _ _ _ Heq)
    as [(-> & -> & flag' & Hin' & Hm' & ->)|(_ & _ & _ & Hall)].
  - by rewrite (Huniq flag' Hin' Hm').
  - rewrite Forall_forall in Hall. by rewrite (Hall _ Hin) in Hm.
Qed.


Lemma parseFlag_matched_flag (fl : list flagDef.t) (arg : string)
    (r : Result.t) :
  parseFlag fl arg r =
    match matched_flag fl arg with
    | Some flag => (true, 1, set_Flags r (flagDef.name flag))
    | None => (false, 0, r)
    end.
Proof.
  unfold matched_flag. induction fl as [|flag fl IH]; simpl; [done|].
  by destruct (flag_matches arg flag).
Qed.

(** ** [parseOption] *)


Lemma parseOption_declined (ol : list optionDef.t) (arg : string)
    (args : list string) (r : Result.t) :
  Forall (declined arg args) ol →
  parseOption ol arg args r = (false, 0, r).
Proof.
  induction 1 as [|opt ol (Hl & Hs & Hb) _ IH]; simpl; [done|].
  rewrite Hl, Hs. destruct Hb as [->|Hlen]; [done|].
  destruct (bare arg opt); [|done]. by rewrite bool_decide_eq_true_2.
Qed.

(** Whatever the order, [parseOption] either declines and leaves the
    result alone, or stores one option and consumes one token, or two
    when the slice has two. *)
Lemma parseOption_inv (ol : list optionDef.t) (arg : string)
    (args : list string) (r r' : Result.t) (handled : bool) (consumed : nat) :
  parseOption ol arg args r = (handled, consumed, r') →
  (handled = false ∧ consumed = 0 ∧ r' = r) ∨
  (handled = true ∧
   (consumed = 1 ∨ (consumed = 2 ∧ 2 ≤ length args)) ∧
   ∃ opt v, opt ∈ ol ∧ r' = set_Options r (optionDef.name opt) v).
Proof.
  induction ol as [|opt ol IH]; simpl.
  - intros [= <- <- <-]. by left.
  - destruct (inline_long arg opt).
    { intros [= <- <- <-]. right. split; [done|]. split; [by left|].
      eexists opt, _. split; [by left|done]. }
    destruct (inline_short arg opt).
    { intros [= <- <- <-]. right. split; [done|]. split; [by left|].
      eexists opt, _. split; [by left|done]. }
    destruct (bare arg opt).
    + case_bool_decide as Hlen; [intros [= <- <- <-]; by left|].
      destruct (args !! 1) as [v|] eqn:Hv; [|intros [= <- <- <-]; by left].
      intros [= <- <- <-]. right. split; [done|]. split; [right; split; [done|lia]|].
      eexists opt, v. split; [by left|done].
    + intros Heq. destruct (IH Heq) as [?|(-> & Hc & opt' & v & Hin & ->)];
        [by left|].
      right. split; [done|]. split; [done|].
      exists opt', v. split; [by right|done].
Qed.


Lemma parseOption_inline_long (ol : list optionDef.t) (arg : string)
    (args : list string) (r : Result.t) (opt : optionDef.t) :
  opt ∈ ol →
  inline_long arg opt = true →
  (∀ opt', opt' ∈ ol → reads_as arg opt' = true → opt' = opt) →
  parseOption ol arg args r =
    (true, 1,
     set_Options r (optionDef.name opt)
       (slice_from (String.length ("--" +:+ optionDef.name opt +:+ "=")) arg)).
Proof.
  intros Hin Hm Huniq. induction ol as [|opt' ol IH]; [by inversion Hin|].
  simpl. destruct (reads_as arg opt') eqn:Hr.
  - assert (opt' = opt) as -> by (apply Huniq; [by left|done]). by rewrite Hm.
  - unfold reads_as in Hr.
    apply orb_false_iff in Hr as [Hr Hb]. apply orb_false_iff in Hr as [Hl Hs].
    rewrite Hl, Hs, Hb. apply IH.
    + apply elem_of_cons in Hin as [->|Hin]; [|done].
      unfold reads_as in *. by rewrite Hm in Hl.
    + intros opt'' Hin'' Hr''. apply Huniq; [by right|done].
Qed.

Lemma parseOption_inline_short (ol : list optionDef.t) (arg : string)
    (args : list string) (r : Result.t) (opt : optionDef.t) :
  opt ∈ ol →
  inline_long arg opt = false →
  inline_short arg opt = true →
  (∀ opt', opt' ∈ ol → reads_as arg opt' = true → opt' = opt) →
  parseOption ol arg args r =
    (true, 1,
     set_Options r (optionDef.name opt)
       (slice_from (String.length ("-" +:+ optionDef.short opt +:+ "=")) arg)).
Proof.
  intros Hin Hnl Hm Huniq. induction ol as [|opt' ol IH]; [by inversion Hin|].
  simpl. destruct (reads_as arg opt') eqn:Hr.
  - assert (opt' = opt) as -> by (apply Huniq; [by left|done]). by rewrite Hnl, Hm.
  - unfold reads_as in Hr.
    apply orb_false_iff in Hr as [Hr Hb]. apply orb_false_iff in Hr as [Hl Hs].
    rewrite Hl, Hs, Hb. apply IH.
    + apply elem_of_cons in Hin as [->|Hin]; [|done].
      by rewrite Hm in Hs.
    + intros opt'' Hin'' Hr''. apply Huniq; [by right|done].
Qed.

Lemma parseOption_bare (ol : list optionDef.t) (arg : string)
    (args : list string) (r : Result.t) (opt : optionDef.t) (v : string) :
  opt ∈ ol →
  inline_long arg opt = false →
  inline_short arg opt = false →
  bare arg opt = true →
  args !! 1 = Some v →
  (∀ opt', opt' ∈ ol → reads_as arg opt' = true → opt' = opt) →
  parseOption ol arg args r = (true, 2, set_Options r (optionDef.name opt) v).
Proof.
  intros Hin Hnl Hns Hm Hv Huniq.
  assert (¬ length args < 2) as Hlen.
  { apply lookup_lt_Some in Hv. lia. }
  induction ol as [|opt' ol IH]; [by inversion Hin|].
  simpl. destruct (reads_as arg opt') eqn:Hr.
  - assert (opt' = opt) as -> by (apply Huniq; [by left|done]).
    rewrite Hnl, Hns, Hm. by rewrite bool_decide_eq_false_2, Hv.
  - unfold reads_as in Hr.
    apply orb_false_iff in Hr as [Hr Hb]. apply orb_false_iff in Hr as [Hl Hs].
    rewrite Hl, Hs, Hb. apply IH.
    + apply elem_of_cons in Hin as [->|Hin]; [|done].
      by rewrite Hm in Hb.
    + intros opt'' Hin'' Hr''. apply Huniq; [by right|done].
Qed.

Lemma reads_as_dash (arg : string) (opt : optionDef.t) :
  reads_as arg opt = true → HasPrefix arg "-" = true.
Proof.
  unfold reads_as, inline_long, inline_short, bare. intros H.
  repeat (apply orb_true_iff in H as [H|H]).
  - by eapply HasPrefix_head.
  - apply andb_true_iff in H as [_ H]. by eapply HasPrefix_head.
  - by apply bool_decide_eq_true in H as ->.
  - apply andb_true_iff in H as [_ H].
    by apply bool_decide_eq_true in H as ->.
Qed.

(** ** Ranging over a map *)

Lemma elem_of_values {A} (m : gmap string A) (x : A) :
  x ∈ values m ↔ ∃ k, m !! k = Some x.
Proof.
  unfold values. rewrite list_elem_of_fmap. split.
  - intros [[k y] [-> Hin]]. exists k. by apply elem_of_map_to_list.
  - intros [k Hk]. exists (k, x). split; [done|]. by apply elem_of_map_to_list.
Qed.

Lemma legal_key_order : legal key_order.
Proof. by split. Qed.

Lemma elem_of_flag_order (σ : schedule) (n : nat) (m : gmap string flagDef.t)
    (flag : flagDef.t) :
  legal σ → flag ∈ flag_order σ n m ↔ ∃ k, m !! k = Some flag.
Proof. intros [Hf _]. by rewrite (Hf n m), elem_of_values. Qed.

Lemma elem_of_option_order (σ : schedule) (n : nat)
    (m : gmap string optionDef.t) (opt : optionDef.t) :
  legal σ → opt ∈ option_order σ n m ↔ ∃ k, m !! k = Some opt.
Proof. intros [_ Ho]. by rewrite (Ho n m), elem_of_values. Qed.

(** ** The loop of [Parse] *)

Section Parse_facts.
Context (σ : schedule) (h : heap).

Lemma Parse_loop_unfold (fuel : nat) (args : list string) (st : state) :
  i st < length args →
  Parse_loop σ h (S fuel) args st =
    (st' ← Parse_body σ h args st; Parse_loop σ h fuel args st').
Proof. intros Hi. simpl. by rewrite bool_decide_eq_true_2. Qed.

Lemma Parse_loop_exit (fuel : nat) (args : list string) (st : state) :
  length args ≤ i st →
  Parse_loop σ h fuel args st = Ret (set_Args (result st)).
Proof.
  intros Hi. destruct fuel; simpl; by rewrite bool_decide_eq_false_2; [|lia].
Qed.

(** A token that is neither a child's name nor dash-prefixed. *)
Lemma Parse_body_positional (args : list string) (st : state)
    (arg : string) (node : Parser.t) :
  args !! i st = Some arg →
  deref h (current st) = Ret node →
  Parser.commands node !! arg = None →
  HasPrefix arg "-" = false →
  Parse_body σ h args st =
    Ret (mkState (push_Positionals (result st) arg) (current st) (i st + 1)).
Proof.
  intros Harg Hnode Hcmd Hdash. unfold Parse_body.
  rewrite Harg, Hnode. cbn [mbind outcome_bind]. by rewrite Hcmd, Hdash.
Qed.

Lemma Parse_loop_positionals (node : Parser.t) (args : list string) :
  Forall (λ arg, HasPrefix arg "-" = false ∧
                 Parser.commands node !! arg = None) args →
  ∀ fuel st,
    deref h (current st) = Ret node →
    length args - i st ≤ fuel →
    Parse_loop σ h fuel args st =
      Ret (set_Args (Result.mk (Result.Command (result st))
                               (Result.Flags (result st))
                               (Result.Options (result st))
                               (Result.Positionals (result st)
                                  ++ drop (i st) args)
                               (Result.Args (result st)))).
Proof.
  intros Hall fuel. induction fuel as [|fuel IH]; intros st Hnode Hfuel.
  - rewrite Parse_loop_exit by lia.
    rewrite drop_ge by lia. rewrite app_nil_r. done.
  - destruct (decide (i st < length args)) as [Hlt|Hge].
    + rewrite Parse_loop_unfold by done.
      destruct (lookup_lt_is_Some_2 args (i st) Hlt) as [arg Harg].
      rewrite Forall_forall in Hall.
      destruct (Hall arg) as [Hdash Hcmd].
      { by eapply list_elem_of_lookup_2. }
      rewrite (Parse_body_positional _ _ _ _ Harg Hnode Hcmd Hdash). simpl.
      rewrite IH; simpl; [|done|lia].
      rewrite (drop_S _ _ _ Harg). rewrite <- app_assoc. simpl.
      by replace (i st + 1) with (S (i st)) by lia.
    + rewrite Parse_loop_exit by lia.
      rewrite drop_ge by lia. rewrite app_nil_r. done.
Qed.

Lemma Parse_body_pass (args : list string) (st st' : state) :
  Parse_body σ h args st = Ret st' → pass σ h args st st'.
Proof.
  unfold Parse_body.
  destruct (args !! i st) as [arg|] eqn:Harg; [|done].
  destruct (deref h (current st)) as [node| | |] eqn:Hnode; try done.
  cbn [mbind outcome_bind].
  destruct (Parser.commands node !! arg) as [cmd|] eqn:Hcmd.
  { intros [= <-]. by eapply pass_command. }
  destruct (HasPrefix arg "-") eqn:Hdash; [|intros [= <-]; by eapply pass_positional].
  rewrite parseFlag_matched_flag.
  destruct (matched_flag _ arg) as [flag|] eqn:Hflag.
  { intros [= <-]. by eapply pass_flag. }
  destruct (parseOption _ arg _ (result st)) as [[handled consumed] r] eqn:Hopt.
  destruct (parseOption_inv _ _ _ _ _ _ _ Hopt)
    as [(-> & _ & _)|(-> & Hc & opt & v & Hin & ->)]; [done|].
  intros [= <-]. eapply pass_option; try done.
  rewrite length_drop in Hc. destruct Hc as [?|[? ?]]; [by left|right].
  apply lookup_lt_Some in Harg. split; [done|lia].
Qed.

Lemma pass_advance (args : list string) (st st' : state) :
  pass σ h args st st' → i st < i st' ≤ length args.
Proof.
  destruct 1 as [arg ? ? Harg|arg ? ? Harg|arg ? ? ? ? Harg ? ? ? ? ? Hc
                |arg ? Harg]; simpl;
    apply lookup_lt_Some in Harg; lia.
Qed.

Lemma Parse_body_ends (args : list string) (st : state) :
  Parse_body σ h args st ≠ Diverge.
Proof.
  unfold Parse_body.
  destruct (args !! i st) as [arg|]; [|done].
  destruct (deref h (current st)) as [node| | |] eqn:Hnode;
    cbn [mbind outcome_bind]; try done.
  - destruct (Parser.commands node !! arg); [done|].
    destruct (HasPrefix arg "-"); [|done].
    destruct (parseFlag _ arg _) as [[[] ?] ?]; [done|].
    by destruct (parseOption _ arg _ _) as [[[] ?] ?].
  - unfold deref in Hnode. destruct (current st) as [l|]; [|done].
    by destruct (h !! l).
Qed.

(** The loop always ends: [len(args)] passes are enough, from any
    cursor position. *)
Lemma Parse_loop_terminates (args : list string) (fuel : nat) (st : state) :
  length args - i st ≤ fuel → Parse_loop σ h fuel args st ≠ Diverge.
Proof.
  revert st. induction fuel as [|fuel IH]; intros st Hfuel.
  - by rewrite Parse_loop_exit by lia.
  - destruct (decide (i st < length args)) as [Hlt|Hge];
      [|by rewrite Parse_loop_exit by lia].
    rewrite Parse_loop_unfold by done.
    destruct (Parse_body σ h args st) as [st'| | |] eqn:Hbody;
      cbn [mbind outcome_bind]; try done.
    + apply IH. apply Parse_body_pass, pass_advance in Hbody. lia.
    + by apply Parse_body_ends in Hbody.
Qed.
Lemma Parse_loop_fuel (args : list string) (fuel1 fuel2 : nat) (st : state) :
  length args - i st ≤ fuel1 → length args - i st ≤ fuel2 →
  Parse_loop σ h fuel1 args st = Parse_loop σ h fuel2 args st.
Proof.
  revert fuel2 st. induction fuel1 as [|fuel1 IH]; intros fuel2 st H1 H2.
  - by rewrite !Parse_loop_exit by lia.
  - destruct (decide (i st < length args)) as [Hlt|Hge];
      [|by rewrite !Parse_loop_exit by lia].
    destruct fuel2 as [|fuel2]; [lia|].
    rewrite !Parse_loop_unfold by done.
    destruct (Parse_body σ h args st) as [st'| | |] eqn:Hbody;
      cbn [mbind outcome_bind]; try done.
    apply Parse_body_pass, pass_advance in Hbody. apply IH; lia.
Qed.


Lemma visits_loop (args : list string) (st st' : state) :
  visits σ h args st st' →
  Parse_loop σ h (length args - i st) args st =
  Parse_loop σ h (length args - i st') args st'.
Proof.
  induction 1 as [|st st' st'' Hlt Hbody _ IH]; [done|].
  rewrite <- IH.
  destruct (length args - i st) as [|fuel] eqn:Hfuel; [lia|].
  rewrite Parse_loop_unfold, Hbody by done. cbn [mbind outcome_bind].
  apply Parse_body_pass, pass_advance in Hbody. apply Parse_loop_fuel; lia.
Qed.

Lemma Parse_visits (p : ptr) (args : list string) (st : state) :
  args ≠ [] →
  visits σ h args (Parse_init p) st →
  Parse σ h p args = Parse_loop σ h (length args - i st) args st.
Proof.
  intros Hne Hv. unfold Parse.
  rewrite bool_decide_eq_false_2 by (by destruct args).
  rewrite <- (visits_loop _ _ _ Hv). simpl. by rewrite Nat.sub_0_r.
Qed.

(** An error raised by the loop body at a state the loop goes through
    is the error [Parse] returns. *)
Lemma Parse_stops (p : ptr) (args : list string) (st : state) (e : error) :
  visits σ h args (Parse_init p) st →
  i st < length args →
  Parse_body σ h args st = Err e →
  Parse σ h p args = Err e.
Proof.
  intros Hv Hlt Hbody. rewrite (Parse_visits p args st); [|by destruct args; simpl in *; [lia|]|done].
  destruct (length args - i st) as [|fuel] eqn:Hfuel; [lia|].
  by rewrite Parse_loop_unfold, Hbody.
Qed.

(** The loop body looks at no node but the active one. *)
Lemma Parse_body_local (h' : heap) (args : list string) (st : state) :
  deref h' (current st) = deref h (current st) →
  Parse_body σ h' args st = Parse_body σ h args st.
Proof. intros Heq. unfold Parse_body. by rewrite Heq. Qed.

Lemma visits_further (args : list string) (st st' : state) :
  visits σ h args st st' → i st ≤ i st'.
Proof.
  induction 1 as [|st st' st'' _ Hbody _ IH]; [done|].
  apply Parse_body_pass, pass_advance in Hbody. lia.
Qed.

(** A name no pass of the loop stops [parseFlag] at is not in [Flags]
    when the loop is done. *)
Lemma Parse_loop_unset_flag (name : string) (args : list string) :
  ∀ fuel st r,
    Parse_loop σ h fuel args st = Ret r →
    Result.Flags (result st) !! name = None →
    (∀ st', visits σ h args st st' → ¬ flag_hit σ h args st' name) →
    Result.Flags r !! name = None.
Proof.
  induction fuel as [|fuel IH]; intros st r Hloop Hunset Hnever.
  - simpl in Hloop. case_bool_decide; by simplify_eq.
  - simpl in Hloop. case_bool_decide as Hlt; [|by simplify_eq].
    destruct (Parse_body σ h args st) as [st'| | |] eqn:Hbody;
      cbn [mbind outcome_bind] in Hloop; try done.
    apply (IH st' r Hloop).
    + pose proof (Parse_body_pass _ _ _ Hbody) as Hpass.
      destruct Hpass as [| arg node flag Harg Hnode Hcmd _ Hflag | |];
        simpl; try done.
      rewrite lookup_insert_ne; [done|].
      intros Heq. apply (Hnever st (visits_here _ _ _ _)).
      by exists arg, node, flag.
    + intros st'' Hv. apply Hnever. by eapply visits_pass.
Qed.

Lemma Parse_unset_flag (p : ptr) (args : list string) (r : Result.t)
    (name : string) :
  Parse σ h p args = Ret r →
  (∀ st, visits σ h args (Parse_init p) st → ¬ flag_hit σ h args st name) →
  Result.Flag r name = false.
Proof.
  unfold Parse. case_bool_decide; [done|]. intros Hloop Hnever.
  unfold Result.Flag.
  by rewrite (Parse_loop_unset_flag name args _ _ _ Hloop).
Qed.

(** One pass writes at most one key of [Flags] and of [Options]:
    whatever the order of the ranges, of two names that were unset
    before a pass one is still unset after it. *)
Lemma Parse_body_stores_one (args : list string) (st st' : state)
    (k1 k2 : string) :
  Parse_body σ h args st = Ret st' →
  k1 ≠ k2 →
  (Result.Flags (result st) !! k1 = None →
   Result.Flags (result st) !! k2 = None →
   Result.Flags (result st') !! k1 = None ∨
   Result.Flags (result st') !! k2 = None) ∧
  (Result.Options (result st) !! k1 = None →
   Result.Options (result st) !! k2 = None →
   Result.Options (result st') !! k1 = None ∨
   Result.Options (result st') !! k2 = None).
Proof.
  intros Hpass%Parse_body_pass Hne.
  destruct Hpass as [| arg node flag | arg node opt v consumed |]; simpl;
    split; intros Hk1 Hk2; auto.
  - destruct (decide (flagDef.name flag = k1)) as [<-|Hk];
      [right|left]; by rewrite lookup_insert_ne.
  - destruct (decide (optionDef.name opt = k1)) as [<-|Hk];
      [right|left]; by rewrite lookup_insert_ne.
Qed.

(** *** Dash-prefixed tokens *)

Section dash.
Context (Hσ : legal σ).
Context (args : list string) (st : state) (arg : string) (node : Parser.t).
Context (Harg : args !! i st = Some arg).
Context (Hnode : deref h (current st) = Ret node).
Context (Hcmd : Parser.commands node !! arg = None).

Lemma Parse_body_flag (k : string) (flag : flagDef.t) :
  Parser.flags node !! k = Some flag →
  flag_matches arg flag = true →
  (∀ k' flag', Parser.flags node !! k' = Some flag' →
               flag_matches arg flag' = true →
               flagDef.name flag' = flagDef.name flag) →
  Parse_body σ h args st =
    Ret (mkState (set_Flags (result st) (flagDef.name flag))
                 (current st) (i st + 1)).
Proof.
  intros Hk Hm Huniq. unfold Parse_body.
  rewrite Harg, Hnode. cbn [mbind outcome_bind].
  rewrite Hcmd, (flag_matches_dash _ _ Hm).
  rewrite (parseFlag_accepts _ _ _ flag); [done| |done|].
  - apply elem_of_flag_order; eauto.
  - intros flag' [k' Hk']%elem_of_flag_order Hm'; eauto.
Qed.

Context (Hflags : ∀ k flag, Parser.flags node !! k = Some flag →
                            flag_matches arg flag = false).

Lemma Parse_body_no_flag :
  HasPrefix arg "-" = true →
  Parse_body σ h args st =
    match parseOption (option_order σ (i st) (Parser.options node))
                      arg (drop (i st) args) (result st) with
    | (true, consumed, r) => Ret (mkState r (current st) (i st + consumed))
    | (false, _, _) => Err (UnknownFlagError arg)
    end.
Proof.
  intros Hdash. unfold Parse_body.
  rewrite Harg, Hnode. cbn [mbind outcome_bind]. rewrite Hcmd, Hdash.
  rewrite parseFlag_declined; [done|].
  apply Forall_forall. intros flag [k Hk]%elem_of_flag_order; eauto.
Qed.

Lemma Parse_body_unknown :
  HasPrefix arg "-" = true →
  (∀ k opt, Parser.options node !! k = Some opt →
            declined arg (drop (i st) args) opt) →
  Parse_body σ h args st = Err (UnknownFlagError arg).
Proof.
  intros Hdash Hopts. rewrite Parse_body_no_flag by done.
  rewrite parseOption_declined; [done|].
  apply Forall_forall. intros opt [k Hk]%elem_of_option_order; eauto.
Qed.

Context (k : string) (opt : optionDef.t).
Context (Hk : Parser.options node !! k = Some opt).
Context (Huniq : ∀ k' opt', Parser.options node !! k' = Some opt' →
                            reads_as arg opt' = true → opt' = opt).

Local Lemma opt_in_order : opt ∈ option_order σ (i st) (Parser.options node).
Proof. apply elem_of_option_order; eauto. Qed.

Local Lemma opt_alone opt' :
  opt' ∈ option_order σ (i st) (Parser.options node) →
  reads_as arg opt' = true → opt' = opt.
Proof. intros [k' Hk']%elem_of_option_order; eauto. Qed.

Lemma Parse_body_inline_long :
  inline_long arg opt = true →
  Parse_body σ h args st =
    Ret (mkState
           (set_Options (result st) (optionDef.name opt)
              (slice_from
                 (String.length ("--" +:+ optionDef.name opt +:+ "=")) arg))
           (current st) (i st + 1)).
Proof.
  intros Hm. rewrite Parse_body_no_flag.
  - by rewrite (parseOption_inline_long _ _ _ _ opt)
      by auto using opt_in_order, opt_alone.
  - apply (reads_as_dash arg opt). unfold reads_as. by rewrite Hm.
Qed.

Lemma Parse_body_inline_short :
  inline_long arg opt = false →
  inline_short arg opt = true →
  Parse_body σ h args st =
    Ret (mkState
           (set_Options (result st) (optionDef.name opt)
              (slice_from
                 (String.length ("-" +:+ optionDef.short opt +:+ "=")) arg))
           (current st) (i st + 1)).
Proof.
  intros Hnl Hm. rewrite Parse_body_no_flag.
  - by rewrite (parseOption_inline_short _ _ _ _ opt)
      by auto using opt_in_order, opt_alone.
  - apply (reads_as_dash arg opt). unfold reads_as.
    by rewrite Hm, orb_true_r.
Qed.

Lemma Parse_body_bare (v : string) :
  inline_long arg opt = false →
  inline_short arg opt = false →
  bare arg opt = true →
  args !! (i st + 1) = Some v →
  Parse_body σ h args st =
    Ret (mkState (set_Options (result st) (optionDef.name opt) v)
                 (current st) (i st + 2)).
Proof.
  intros Hnl Hns Hm Hv. rewrite Parse_body_no_flag.
  - rewrite (parseOption_bare _ _ _ _ opt v);
      auto using opt_in_order, opt_alone.
    by rewrite lookup_drop.
  - apply (reads_as_dash arg opt). unfold reads_as.
    by rewrite Hm, orb_true_r.
Qed.
End dash.
End Parse_facts.

(** ** What a pass of the loop, and the loop, can do *)

(** A strengthening of [parseOption]'s inversion: the option stored is
    one the token reads as, and the value is the rest of the token or
    the next token. *)
Lemma parseOption_reads (ol : list optionDef.t) (arg : string)
    (args : list string) (r r' : Result.t) (consumed : nat) :
  parseOption ol arg args r = (true, consumed, r') →
  ∃ opt v, opt ∈ ol ∧ reads_as arg opt = true ∧
           r' = set_Options r (optionDef.name opt) v ∧
           ((consumed = 1 ∧
             (arg = "--" +:+ optionDef.name opt +:+ "=" +:+ v ∨
              (optionDef.short opt ≠ "" ∧
               arg = "-" +:+ optionDef.short opt +:+ "=" +:+ v))) ∨
            (consumed = 2 ∧ bare arg opt = true ∧ args !! 1 = Some v)).
Proof.
  induction ol as [|opt ol IH]; cbn [parseOption]; [done|].
  destruct (inline_long arg opt) eqn:Hl.
  { pose proof (HasPrefix_inv _ _ Hl) as [rest Hrest].
    rewrite Hrest at 1. rewrite slice_from_app.
    intros [= <- <-]. exists opt, rest. split; [by left|].
    split; [by unfold reads_as; rewrite Hl|]. split; [done|]. left.
    split; [done|]. left. by rewrite Hrest, !app_assoc_string. }
  destruct (inline_short arg opt) eqn:Hs.
  { pose proof Hs as [Hne%bool_decide_eq_true
                      [rest Hrest]%HasPrefix_inv]%andb_true_iff.
    rewrite Hrest at 1. rewrite slice_from_app.
    intros [= <- <-]. exists opt, rest. split; [by left|].
    split; [by unfold reads_as; rewrite Hs, orb_true_r|]. split; [done|]. left.
    split; [done|]. right. split; [done|].
    by rewrite Hrest, !app_assoc_string. }
  destruct (bare arg opt) eqn:Hb.
  - case_bool_decide as Hlen; [done|].
    destruct (args !! 1) as [v|] eqn:Hv; [|done].
    intros [= <- <-]. exists opt, v. split; [by left|].
    split; [by unfold reads_as; rewrite Hb, orb_true_r|]. split; [done|].
    by right.
  - intros Heq. destruct (IH Heq) as (opt' & v & Hin & Hrest).
    exists opt', v. split; [by right|done].
Qed.

Section Parse_more.
Context (σ : schedule) (h : heap).

(** The four ways a pass can end normally, with what it read. *)
Lemma Parse_body_inv (args : list string) (st st' : state) :
  Parse_body σ h args st = Ret st' →
  ∃ arg node,
    args !! i st = Some arg ∧ deref h (current st) = Ret node ∧
    ((∃ cmd, Parser.commands node !! arg = Some cmd ∧
             st' = mkState (push_Command (result st) arg) (Some cmd)
                           (i st + 1)) ∨
     (Parser.commands node !! arg = None ∧ HasPrefix arg "-" = false ∧
      st' = mkState (push_Positionals (result st) arg) (current st)
                    (i st + 1)) ∨
     (Parser.commands node !! arg = None ∧ HasPrefix arg "-" = true ∧
      ∃ flag, flag ∈ flag_order σ (i st) (Parser.flags node) ∧
              flag_matches arg flag = true ∧
              st' = mkState (set_Flags (result st) (flagDef.name flag))
                            (current st) (i st + 1)) ∨
     (Parser.commands node !! arg = None ∧ HasPrefix arg "-" = true ∧
      ∃ opt v consumed,
        opt ∈ option_order σ (i st) (Parser.options node) ∧
        reads_as arg opt = true ∧
        (consumed = 1 ∨ (consumed = 2 ∧ args !! (i st + 1) = Some v)) ∧
        st' = mkState (set_Options (result st) (optionDef.name opt) v)
                      (current st) (i st + consumed))).
Proof.
  unfold Parse_body.
  destruct (args !! i st) as [arg|] eqn:Harg; [|done].
  destruct (deref h (current st)) as [node| | |] eqn:Hnode; try done.
  cbn [mbind outcome_bind]. intros Hbody. exists arg, node.
  split; [done|]. split; [done|].
  destruct (Parser.commands node !! arg) as [cmd|] eqn:Hcmd.
  { left. exists cmd. by simplify_eq. }
  right. destruct (HasPrefix arg "-") eqn:Hdash; [|left; by simplify_eq].
  right.
  destruct (parseFlag _ arg (result st)) as [[handled consumed] r] eqn:Hflag.
  destruct (parseFlag_inv _ _ _ _ _ _ Hflag)
    as [(-> & -> & flag & Hin & Hm & ->)|(-> & -> & -> & _)].
  { left. split; [done|]. split; [done|]. exists flag. by simplify_eq. }
  right. split; [done|]. split; [done|].
  destruct (parseOption _ arg _ (result st)) as [[[] consumed] r] eqn:Hopt;
    [|done].
  destruct (parseOption_reads _ _ _ _ _ _ Hopt)
    as (opt & v & Hin & Hreads & -> & Hc).
  exists opt, v, consumed. split; [done|]. split; [done|].
  split; [|by simplify_eq].
  destruct Hc as [[-> _]|(-> & _ & Hv)]; [by left|right].
  split; [done|]. by rewrite lookup_drop in Hv.
Qed.

(** A pass that ends with an error names a dash-prefixed token. *)
Lemma Parse_body_error (args : list string) (st : state) (e : error) :
  Parse_body σ h args st = Err e →
  ∃ arg, args !! i st = Some arg ∧ HasPrefix arg "-" = true ∧
         e = UnknownFlagError arg.
Proof.
  unfold Parse_body.
  destruct (args !! i st) as [arg|] eqn:Harg; [|done].
  destruct (deref h (current st)) as [node| | |] eqn:Hnode; try done.
  - cbn [mbind outcome_bind].
    destruct (Parser.commands node !! arg); [done|].
    destruct (HasPrefix arg "-") eqn:Hdash; [|done].
    destruct (parseFlag _ arg _) as [[[] ?] ?]; [done|].
    destruct (parseOption _ arg _ _) as [[[] ?] ?]; [done|].
    intros [= <-]. by exists arg.
  - unfold deref in Hnode. destruct (current st) as [l|]; [|done].
    by destruct (h !! l).
Qed.

(** A pass panics only on a cursor past the end or on a pointer that
    cannot be dereferenced. *)
Lemma Parse_body_panic (args : list string) (st : state) :
  Parse_body σ h args st = Panic →
  args !! i st = None ∨ deref h (current st) = Panic.
Proof.
  unfold Parse_body.
  destruct (args !! i st) as [arg|] eqn:Harg; [|by left].
  destruct (deref h (current st)) as [node| | |] eqn:Hnode; try done;
    [|by right].
  cbn [mbind outcome_bind].
  destruct (Parser.commands node !! arg); [done|].
  destruct (HasPrefix arg "-"); [|done].
  destruct (parseFlag _ arg _) as [[[] ?] ?]; [done|].
  by destruct (parseOption _ arg _ _) as [[[] ?] ?].
Qed.

(** A property of the loop variables that every pass keeps holds when
    the loop is left. *)
Lemma Parse_loop_invariant (P : state → Prop) (args : list string) :
  (∀ st st', P st → i st < length args →
             Parse_body σ h args st = Ret st' → P st') →
  ∀ fuel st r,
    P st → Parse_loop σ h fuel args st = Ret r →
    ∃ st', P st' ∧ length args ≤ i st' ∧ r = set_Args (result st').
Proof.
  intros Hstep. induction fuel as [|fuel IH]; intros st r HP Hloop;
    simpl in Hloop; case_bool_decide as Hlt; try done.
  - exists st. split; [done|]. split; [lia|by simplify_eq].
  - destruct (Parse_body σ h args st) as [st'| | |] eqn:Hbody;
      cbn [mbind outcome_bind] in Hloop; try done.
    eapply IH; [|done]. by eapply Hstep.
  - exists st. split; [done|]. split; [lia|by simplify_eq].
Qed.

(** Where the loop stops otherwise than by returning a result: at a
    pass that ends that way. *)
Lemma Parse_loop_fails (P : state → Prop) (args : list string) :
  (∀ st st', P st → i st < length args →
             Parse_body σ h args st = Ret st' → P st') →
  ∀ fuel st,
    P st →
    (∀ e, Parse_loop σ h fuel args st = Err e →
          ∃ st', P st' ∧ i st' < length args ∧
                 Parse_body σ h args st' = Err e) ∧
    (Parse_loop σ h fuel args st = Panic →
     ∃ st', P st' ∧ i st' < length args ∧ Parse_body σ h args st' = Panic).
Proof.
  intros Hstep. induction fuel as [|fuel IH]; intros st HP; simpl;
    case_bool_decide as Hlt; try done.
  destruct (Parse_body σ h args st) as [st'| | |] eqn:Hbody;
    cbn [mbind outcome_bind].
  - apply IH. by eapply Hstep.
  - split; [|done]. intros e' [= <-]. by exists st.
  - split; [done|]. intros _. by exists st.
  - done.
Qed.

(** With every child allocated, the active node stays allocated. *)
Lemma Parse_body_allocated (args : list string) (st st' : state) :
  closed h →
  (∃ node, deref h (current st) = Ret node) →
  Parse_body σ h args st = Ret st' →
  ∃ node, deref h (current st') = Ret node.
Proof.
  intros Hclosed [node Hnode] Hbody.
  destruct (Parse_body_inv _ _ _ Hbody)
    as (arg & node' & Harg & Hnode' & Hcases).
  rewrite Hnode in Hnode'. injection Hnode' as <-.
  destruct Hcases as [(cmd & Hcmd & ->)|[(_ & _ & ->)|[(_ & _ & ? & _ & _ & ->)
                     |(_ & _ & ? & ? & ? & _ & _ & _ & ->)]]]; simpl;
    eauto.
  unfold deref in Hnode. destruct (current st) as [l|]; [|done].
  destruct (h !! l) as [n|] eqn:Hl; [|done]. injection Hnode as ->.
  destruct (Hclosed _ _ _ _ Hl Hcmd) as [child Hchild].
  exists child. by rewrite Hchild.
Qed.
End Parse_more.

Section Parse_results.
Context (σ : schedule) (h : heap).

(** A state reached by one more pass is reached. *)
Lemma visits_step (args : list string) (st0 st st' : state) :
  visits σ h args st0 st →
  i st < length args →
  Parse_body σ h args st = Ret st' →
  visits σ h args st0 st'.
Proof.
  induction 1 as [st|st0 st1 st Hlt Hbody _ IH]; intros Hi Hb.
  - eapply visits_pass; [done|done|apply visits_here].
  - eapply visits_pass; [done|done|by apply IH].
Qed.

(** What [Parse] returns is what the loop returns from any state it
    reaches, and in particular from the state a pass leaves. *)
Lemma Parse_continues (p : ptr) (args : list string) (st st' : state) :
  visits σ h args (Parse_init p) st →
  i st < length args →
  Parse_body σ h args st = Ret st' →
  visits σ h args (Parse_init p) st' ∧
  Parse σ h p args = Parse_loop σ h (length args - i st') args st'.
Proof.
  intros Hv Hlt Hbody.
  assert (visits σ h args (Parse_init p) st') as Hv'
    by by eapply visits_step.
  split; [done|]. apply Parse_visits; [|done]. intros ->. simpl in Hlt. lia.
Qed.


(** A flag that is set stays set. *)
Lemma Parse_loop_Flags (args : list string) (fuel : nat) (st : state)
    (r : Result.t) (name : string) :
  Parse_loop σ h fuel args st = Ret r →
  Result.Flags (result st) !! name = Some true →
  Result.Flags r !! name = Some true.
Proof.
  intros Hloop Hset.
  destruct (Parse_loop_invariant σ h
    (λ st', Result.Flags (result st') !! name = Some true) args)
    with (fuel := fuel) (st := st) (r := r) as (st' & Hst' & _ & ->);
    [| |done|done].
  - clear. intros st1 st2 Hst1 _ Hbody.
    destruct (Parse_body_inv _ _ _ _ _ Hbody)
      as (arg & node & _ & _ & Hcases).
    destruct Hcases as [(cmd & _ & ->)|[(_ & _ & ->)
                       |[(_ & _ & flag & _ & _ & ->)
                       |(_ & _ & ? & ? & ? & _ & _ & _ & ->)]]]; simpl;
      try done.
    destruct (decide (flagDef.name flag = name)) as [<-|Hne].
    + by rewrite lookup_insert_eq.
    + by rewrite lookup_insert_ne.
  - done.
Qed.

(** A name at which [Options] holds a value keeps one, and keeps that
    one as long as no later pass changes it. *)
Lemma Parse_loop_Options (args : list string) (name : string) :
  ∀ fuel st r,
    Parse_loop σ h fuel args st = Ret r →
    is_Some (Result.Options (result st) !! name) →
    is_Some (Result.Options r !! name) ∧
    ((∀ st', visits σ h args st st' → ¬ option_stored σ h args st' name) →
     Result.Options r !! name = Result.Options (result st) !! name).
Proof.
  induction fuel as [|fuel IH]; intros st r Hloop Hsome; simpl in Hloop;
    case_bool_decide as Hlt; try done; try (by simplify_eq).
  destruct (Parse_body σ h args st) as [st1| | |] eqn:Hbody;
    cbn [mbind outcome_bind] in Hloop; try done.
  assert (is_Some (Result.Options (result st1) !! name)) as Hsome1.
  { destruct (Parse_body_inv _ _ _ _ _ Hbody)
      as (arg & node & _ & _ & Hcases).
    destruct Hcases as [(cmd & _ & ->)|[(_ & _ & ->)
                       |[(_ & _ & flag & _ & _ & ->)
                       |(_ & _ & opt & ? & ? & _ & _ & _ & ->)]]]; simpl;
      try done.
    destruct (decide (optionDef.name opt = name)) as [<-|Hne].
    - rewrite lookup_insert_eq. by eexists.
    - by rewrite lookup_insert_ne. }
  destruct (IH st1 r Hloop Hsome1) as [Hr Hkeep]. split; [done|].
  intros Hnever. rewrite Hkeep.
  - destruct (decide (Result.Options (result st1) !! name
                      = Result.Options (result st) !! name)) as [|Hne];
      [done|].
    exfalso. apply (Hnever st (visits_here _ _ _ _)). by exists st1.
  - intros st' Hv. apply Hnever. by eapply visits_pass.
Qed.
End Parse_results.

(** C9: [Parse] applied to an empty token sequence fails with the
    empty-input error, whatever the tree and whatever the receiver. *)
Theorem Parse_empty_input (σ : schedule) (h : heap) (p : ptr) :
  Parse σ h p [] = Err EmptyInputError.
Proof. reflexivity. Qed.



(** C7: a non-empty token sequence without dash-prefixed tokens and
    without names of children of the node [Parse] starts from comes back
    unchanged and in order in [Positionals]; [Command], [Flags] and
    [Options] are empty. *)
Theorem Parse_only_positionals (σ : schedule) (h : heap) (p : ptr)
    (node : Parser.t) (args : list string) :
  args ≠ [] →
  deref h p = Ret node →
  Forall (λ arg, HasPrefix arg "-" = false ∧
                 Parser.commands node !! arg = None) args →
  Parse σ h p args = Ret (Result.mk [] ∅ ∅ args args).
Proof.
  intros Hne Hnode Hall. unfold Parse.
  rewrite bool_decide_eq_false_2 by (by destruct args).
  rewrite (Parse_loop_positionals σ h node args Hall); simpl; [done|done|lia].
Qed.

(** ** Examples: the stores, and one parse of the README *)

Lemma app_script_builds : app_script = Ret (Some 1%positive, app_heap).
Proof. vm_compute. reflexivity. Qed.

Lemma tool_script_builds : tool_script = Ret (Some 1%positive, tool_heap).
Proof. vm_compute. reflexivity. Qed.

Lemma app_heap_root : deref app_heap (Some 1%positive) = Ret app_node.
Proof. vm_compute. reflexivity. Qed.

Lemma app_heap_run : deref app_heap (Some 2%positive) = Ret run_node.
Proof. vm_compute. reflexivity. Qed.

Lemma app_heap_exec : deref app_heap (Some 3%positive) = Ret exec_node.
Proof. vm_compute. reflexivity. Qed.

Lemma tool_heap_root : deref tool_heap (Some 1%positive) = Ret tool_node.
Proof. vm_compute. reflexivity. Qed.

Lemma Parse_readme :
  Parse key_order app_heap (Some 1%positive)
        ["run"; "-d"; "--name=web"; "nginx"] =
    Ret (Result.mk ["run"] {["detach" := true]} {["name" := "web"]}
                   ["nginx"] ["nginx"]).
Proof. vm_compute. reflexivity. Qed.

(** ** Flags *)

(** C6, as the code has it: at a state that the loop of [Parse]
    reaches, a token that matches a flag declared at the active node
    sets [Flags] at that flag's name and moves the cursor by one,
    provided the token is not the name of a child of the node and every
    flag of the node that it matches carries that same name; the loop
    goes on from that state, and in the result [Parse] returns the flag
    is set, the accessor reading true.  And the accessor reads false at
    every name at which no pass of the parse stopped [parseFlag], a
    missing key reading false. *)
Theorem Parse_flag_set (σ : schedule) (h : heap) (args : list string)
    (Hσ : legal σ) :
  (∀ p st arg node k flag,
     visits σ h args (Parse_init p) st →
     args !! i st = Some arg →
     deref h (current st) = Ret node →
     Parser.flags node !! k = Some flag →
     flag_matches arg flag = true →
     Parser.commands node !! arg = None →
     (∀ k' flag', Parser.flags node !! k' = Some flag' →
                  flag_matches arg flag' = true →
                  flagDef.name flag' = flagDef.name flag) →
     Parse_body σ h args st =
       Ret (mkState (set_Flags (result st) (flagDef.name flag))
                    (current st) (i st + 1)) ∧
     visits σ h args (Parse_init p)
       (mkState (set_Flags (result st) (flagDef.name flag))
                (current st) (i st + 1)) ∧
     Parse σ h p args =
       Parse_loop σ h (length args - (i st + 1)) args
         (mkState (set_Flags (result st) (flagDef.name flag))
                  (current st) (i st + 1)) ∧
     (∀ r, Parse σ h p args = Ret r →
           Result.Flags r !! flagDef.name flag = Some true ∧
           Result.Flag r (flagDef.name flag) = true)) ∧
  (∀ p r name,
     Parse σ h p args = Ret r →
     (∀ st, visits σ h args (Parse_init p) st →
            ¬ flag_hit σ h args st name) →
     Result.Flag r name = false) ∧
  (∀ r name, Result.Flags r !! name = None → Result.Flag r name = false).
Proof.
  split; [|split].
  - intros p st arg node k flag Hv Harg Hnode Hk Hm Hcmd Huniq.
    pose proof (Parse_body_flag σ h Hσ args st arg node Harg Hnode Hcmd
                  k flag Hk Hm Huniq) as Hbody.
    destruct (Parse_continues σ h p args st _ Hv (lookup_lt_Some _ _ _ Harg)
                Hbody) as [Hv' Hparse].
    split; [done|]. split; [done|]. split; [done|].
    intros r Hr. rewrite Hparse in Hr.
    assert (Result.Flags r !! flagDef.name flag = Some true) as Hset.
    { eapply Parse_loop_Flags; [exact Hr|]. simpl. apply lookup_insert_eq. }
    split; [done|]. unfold Result.Flag. by rewrite Hset.
  - intros p r name. apply Parse_unset_flag.
  - intros r name Hnone. unfold Result.Flag. by rewrite Hnone.
Qed.

Lemma Parse_flag_set_witness :
  Parse_body key_order app_heap ["-v"; "x"] (Parse_init (Some 1%positive)) =
    Ret (mkState (set_Flags (Result.mk [] ∅ ∅ [] []) "verbose")
                 (Some 1%positive) 1) ∧
  (∃ r, Parse key_order app_heap (Some 1%positive) ["-v"; "x"] = Ret r ∧
        Result.Flags r !! "verbose" = Some true ∧
        Result.Flag r "verbose" = true ∧
        Result.Flag r "detach" = false).
Proof.
  destruct (Parse_flag_set key_order app_heap ["-v"; "x"] legal_key_order)
    as (Hset & Hunset & _).
  destruct (Hset (Some 1%positive) (Parse_init (Some 1%positive)) "-v"
              app_node "verbose"
              (flagDef.mk "verbose" "v" "Enable verbose output")
              (visits_here _ _ _ _) eq_refl app_heap_root eq_refl eq_refl
              eq_refl) as (Hbody & _ & _ & Hres).
  { intros k' flag' Hk' Hm. in_range Hk'. }
  split; [exact Hbody|].
  assert (Parse key_order app_heap (Some 1%positive) ["-v"; "x"] =
          Ret (Result.mk [] {["verbose" := true]} ∅ ["x"] ["x"])) as Hparse
    by (vm_compute; reflexivity).
  eexists. split; [exact Hparse|].
  destruct (Hres _ Hparse) as [Hflags Hflag].
  split; [exact Hflags|]. split; [exact Hflag|].
  apply (Hunset (Some 1%positive)); [exact Hparse|].
  intros st Hv (arg & node & flag & Harg & Hnode & Hcmd & Hflag' & Hname).
  inversion Hv as [|? st' ? Hlt Hbody' Hrest]; subst.
  - unfold Parse_init in Harg, Hnode, Hflag'.
    cbn [current i] in Harg, Hnode, Hflag'. rewrite app_heap_root in Hnode.
    injection Harg as <-. injection Hnode as <-.
    vm_compute in Hflag'. injection Hflag' as <-. discriminate Hname.
  - rewrite Hbody in Hbody'. injection Hbody' as <-.
    inversion Hrest as [|? st'' ? Hlt' Hbody'' Hrest']; subst.
    + cbn [current i] in Harg, Hnode, Hcmd. rewrite app_heap_root in Hnode.
      injection Harg as <-. injection Hnode as <-.
      vm_compute in Hflag'. discriminate Hflag'.
    + vm_compute in Hbody''. injection Hbody'' as <-.
      apply visits_further in Hrest'. simpl in Hrest'.
      apply lookup_lt_Some in Harg. simpl in Harg. lia.
Defined.

(** The claim fails when two flags of a node share an alias: [-v] is
    the alias of both [verbose] and [version] at [tool], one pass sets
    only the flag the range yields first, and [verbose] stays unset. *)
Lemma Parse_flag_shared_alias :
  Parser.flags tool_node !! "verbose" =
    Some (flagDef.mk "verbose" "v" "Enable verbose output") ∧
  flag_matches "-v" (flagDef.mk "verbose" "v" "Enable verbose output") = true ∧
  Parse_body key_order tool_heap ["-v"] (Parse_init (Some 1%positive)) =
    Ret (mkState (Result.mk [] {["version" := true]} ∅ [] [])
                 (Some 1%positive) 1) ∧
  Parse key_order tool_heap (Some 1%positive) ["-v"] =
    Ret (Result.mk [] {["version" := true]} ∅ [] []) ∧
  Result.Flag (Result.mk [] {["version" := true]} ∅ [] []) "verbose" = false.
Proof. vm_compute. by repeat split. Qed.

(** Whatever order the range takes, one of the two flags stays unset. *)
Lemma shared_alias_any_order (σ : schedule) :
  legal σ →
  ∃ r, Parse σ tool_heap (Some 1%positive) ["-v"] = Ret r ∧
       (Result.Flag r "verbose" = false ∨ Result.Flag r "version" = false).
Proof.
  intros Hσ.
  assert (∃ flag, (flagDef.name flag = "verbose" ∨ flagDef.name flag = "version") ∧
            Parse_body σ tool_heap ["-v"] (Parse_init (Some 1%positive)) =
              Ret (mkState (set_Flags (Result.mk [] ∅ ∅ [] []) (flagDef.name flag))
                           (Some 1%positive) 1)) as (flag & Hname & Hbody).
  { unfold Parse_body, Parse_init. cbn [i current result].
    change (["-v"] !! 0) with (Some "-v"). rewrite tool_heap_root.
    cbn [mbind outcome_bind].
    replace (Parser.commands tool_node !! "-v") with (@None loc)
      by (vm_compute; reflexivity).
    change (HasPrefix "-v" "-") with true. cbv iota.
    destruct (parseFlag _ "-v" _) as [[handled consumed] r] eqn:Hflag.
    destruct (parseFlag_inv _ _ _ _ _ _ Hflag)
      as [(-> & -> & flag & Hin & _ & ->)|(_ & _ & _ & Hall)].
    - exists flag. split; [|done].
      apply (elem_of_flag_order _ _ _ _ Hσ) in Hin as [k Hk]. in_range Hk; auto.
    - rewrite Forall_forall in Hall.
      specialize (Hall (flagDef.mk "verbose" "v" "Enable verbose output")).
      rewrite elem_of_flag_order in Hall by done.
      discriminate Hall. by exists "verbose". }
  unfold Parse. cbn [length]. rewrite bool_decide_eq_false_2 by done.
  rewrite Parse_loop_unfold by (simpl; lia). rewrite Hbody.
  cbn [mbind outcome_bind]. rewrite Parse_loop_exit by (simpl; lia).
  eexists. split; [done|].
  destruct Hname as [->| ->]; [right|left]; vm_compute; reflexivity.
Qed.

(** The same when the token is the name of a child: [--help] is a
    child of [tool], so a flag called [help] would never be set by it.
    Here it shows on an unknown token: nothing is raised. *)
Lemma Parse_dash_subcommand :
  HasPrefix "--help" "-" = true ∧
  existsb (flag_matches "--help") (values (Parser.flags tool_node)) = false ∧
  existsb (reads_as "--help") (values (Parser.options tool_node)) = false ∧
  Parse key_order tool_heap (Some 1%positive) ["--help"] =
    Ret (Result.mk ["--help"] ∅ ∅ [] []).
Proof. vm_compute. by repeat split. Qed.

(** ** Unknown flags *)

(** C2, as the code has it: a dash-prefixed token that is not the name
    of a child of the active node, matches no flag of that node and is
    declined by every option of it (no inline form, and a bare form only
    as the last token) makes the loop body, and so [Parse], return the
    unknown-flag error built from that token, and no result. *)
Theorem Parse_unknown_flag (σ : schedule) (h : heap) (p : ptr)
    (args : list string) (st : state) (arg : string) (node : Parser.t) :
  legal σ →
  visits σ h args (Parse_init p) st →
  args !! i st = Some arg →
  deref h (current st) = Ret node →
  HasPrefix arg "-" = true →
  Parser.commands node !! arg = None →
  (∀ k flag, Parser.flags node !! k = Some flag →
             flag_matches arg flag = false) →
  (∀ k opt, Parser.options node !! k = Some opt →
            inline_long arg opt = false ∧ inline_short arg opt = false ∧
            (bare arg opt = false ∨ i st + 1 = length args)) →
  Parse_body σ h args st = Err (UnknownFlagError arg) ∧
  Parse σ h p args = Err (UnknownFlagError arg).
Proof.
  intros Hσ Hv Harg Hnode Hdash Hcmd Hflags Hopts.
  assert (Parse_body σ h args st = Err (UnknownFlagError arg)) as Hbody.
  { eapply Parse_body_unknown; try done.
    intros k opt Hk. destruct (Hopts k opt Hk) as (Hl & Hs & Hb).
    repeat split; try done. destruct Hb as [?|Hlast]; [by left|right].
    rewrite length_drop. lia. }
  split; [done|].
  eapply Parse_stops; [done| |done]. by eapply lookup_lt_Some.
Qed.

Lemma Parse_unknown_flag_witness :
  Parse_body key_order app_heap ["--config"] (Parse_init (Some 1%positive)) =
    Err (UnknownFlagError "--config") ∧
  Parse key_order app_heap (Some 1%positive) ["--config"] =
    Err (UnknownFlagError "--config").
Proof.
  apply (Parse_unknown_flag key_order app_heap (Some 1%positive)
           ["--config"] (Parse_init (Some 1%positive)) "--config" app_node
           legal_key_order).
  - apply visits_here.
  - reflexivity.
  - exact app_heap_root.
  - reflexivity.
  - reflexivity.
  - intros k flag Hk. in_range Hk.
  - intros k opt Hk. in_range Hk. by repeat split; [..|right].
Defined.

(** C3: the loop body depends on the store through the active node
    only, and a dash-prefixed token that matches a flag or an option of
    an ancestor of the active node and nothing that the active node
    itself declares (no flag, no option and no child of it) ends the
    parse with the unknown-flag error. *)
Theorem Parse_matching_is_local (σ : schedule) (h : heap) (p : ptr)
    (args : list string) (st : state) (arg : string)
    (l anc : loc) (node anode : Parser.t) :
  legal σ →
  visits σ h args (Parse_init p) st →
  args !! i st = Some arg →
  current st = Some l →
  h !! l = Some node →
  ancestor h l anc →
  h !! anc = Some anode →
  ((∃ k flag, Parser.flags anode !! k = Some flag ∧
              flag_matches arg flag = true) ∨
   (∃ k opt, Parser.options anode !! k = Some opt ∧
             reads_as arg opt = true)) →
  Parser.commands node !! arg = None →
  (∀ k flag, Parser.flags node !! k = Some flag →
             flag_matches arg flag = false) →
  (∀ k opt, Parser.options node !! k = Some opt →
            reads_as arg opt = false) →
  Parse_body σ h args st = Err (UnknownFlagError arg) ∧
  Parse σ h p args = Err (UnknownFlagError arg) ∧
  (∀ h' : heap, h' !! l = Some node →
                Parse_body σ h' args st = Parse_body σ h args st).
Proof.
  intros Hσ Hv Harg Hcur Hl _ _ Hanc Hcmd Hflags Hopts.
  assert (deref h (current st) = Ret node) as Hnode.
  { rewrite Hcur. simpl. by rewrite Hl. }
  assert (HasPrefix arg "-" = true) as Hdash.
  { destruct Hanc as [(k & flag & _ & Hm)|(k & opt & _ & Hm)].
    - by eapply flag_matches_dash.
    - by eapply reads_as_dash. }
  assert (Parse_body σ h args st = Err (UnknownFlagError arg)) as Hbody.
  { eapply Parse_body_unknown; try done.
    intros k opt Hk. specialize (Hopts k opt Hk). unfold reads_as in Hopts.
    apply orb_false_iff in Hopts as [Hopts Hb].
    apply orb_false_iff in Hopts as [Hl' Hs].
    repeat split; try done. by left. }
  split; [done|]. split.
  - eapply Parse_stops; [done| |done]. by eapply lookup_lt_Some.
  - intros h' Hl'. apply Parse_body_local.
    rewrite Hcur. simpl. by rewrite Hl, Hl'.
Qed.

Lemma Parse_matching_is_local_witness :
  Parse_body key_order app_heap ["run"; "-v"]
    (mkState (Result.mk ["run"] ∅ ∅ [] []) (Some 2%positive) 1) =
    Err (UnknownFlagError "-v") ∧
  Parse key_order app_heap (Some 1%positive) ["run"; "-v"] =
    Err (UnknownFlagError "-v") ∧
  (∀ h' : heap, h' !! 2%positive = Some run_node →
     Parse_body key_order h' ["run"; "-v"]
       (mkState (Result.mk ["run"] ∅ ∅ [] []) (Some 2%positive) 1) =
     Parse_body key_order app_heap ["run"; "-v"]
       (mkState (Result.mk ["run"] ∅ ∅ [] []) (Some 2%positive) 1)).
Proof.
  apply (Parse_matching_is_local key_order app_heap (Some 1%positive)
           ["run"; "-v"]
           (mkState (Result.mk ["run"] ∅ ∅ [] []) (Some 2%positive) 1)
           "-v" 2%positive 1%positive run_node app_node legal_key_order).
  - eapply visits_pass; [simpl; lia| |apply visits_here].
    vm_compute. reflexivity.
  - reflexivity.
  - reflexivity.
  - vm_compute. reflexivity.
  - eapply ancestor_parent; [vm_compute; reflexivity|reflexivity].
  - vm_compute. reflexivity.
  - left. exists "verbose", (flagDef.mk "verbose" "v" "Enable verbose output").
    split; [reflexivity|]. vm_compute. reflexivity.
  - reflexivity.
  - intros k flag Hk. in_range Hk.
  - intros k opt Hk. in_range Hk.
Defined.

Lemma git_script_builds : git_script = Ret (Some 1%positive, git_heap).
Proof. vm_compute. reflexivity. Qed.

(** A token that is the name of a child of the active node matches
    something that node declares, and is read as that: at [remote],
    [-v] matches the flag [verbose] of the root and names a child of
    [remote]; it is taken as the subcommand [-v], and the flag of the
    root is not consulted then either, [Flags] staying empty. *)
Lemma Parse_ancestor_flag_subcommand :
  git_heap !! 2%positive = Some remote_node ∧
  Parser.parent remote_node = Some 1%positive ∧
  git_heap !! 1%positive = Some git_node ∧
  Parser.flags git_node !! "verbose" =
    Some (flagDef.mk "verbose" "v" "Be verbose") ∧
  flag_matches "-v" (flagDef.mk "verbose" "v" "Be verbose") = true ∧
  existsb (flag_matches "-v") (values (Parser.flags remote_node)) = false ∧
  existsb (reads_as "-v") (values (Parser.options remote_node)) = false ∧
  Parse_body key_order git_heap ["remote"; "-v"]
    (mkState (Result.mk ["remote"] ∅ ∅ [] []) (Some 2%positive) 1) =
    Ret (mkState (Result.mk ["remote"; "-v"] ∅ ∅ [] []) (Some 3%positive) 2) ∧
  Parse key_order git_heap (Some 1%positive) ["remote"; "-v"] =
    Ret (Result.mk ["remote"; "-v"] ∅ ∅ [] []).
Proof. vm_compute. by repeat split. Qed.

(** ** Options *)

Lemma inline_long_intro (opt : optionDef.t) (value : string) :
  inline_long ("--" +:+ optionDef.name opt +:+ "=" +:+ value) opt = true ∧
  slice_from (String.length ("--" +:+ optionDef.name opt +:+ "="))
             ("--" +:+ optionDef.name opt +:+ "=" +:+ value) = value.
Proof.
  assert ("--" +:+ optionDef.name opt +:+ "=" +:+ value =
          ("--" +:+ optionDef.name opt +:+ "=") +:+ value) as ->.
  { by rewrite !app_assoc_string. }
  unfold inline_long. by rewrite HasPrefix_app, slice_from_app.
Qed.

Lemma inline_short_intro (opt : optionDef.t) (value : string) :
  optionDef.short opt ≠ "" →
  inline_short ("-" +:+ optionDef.short opt +:+ "=" +:+ value) opt = true ∧
  slice_from (String.length ("-" +:+ optionDef.short opt +:+ "="))
             ("-" +:+ optionDef.short opt +:+ "=" +:+ value) = value.
Proof.
  intros Hshort.
  assert ("-" +:+ optionDef.short opt +:+ "=" +:+ value =
          ("-" +:+ optionDef.short opt +:+ "=") +:+ value) as ->.
  { by rewrite !app_assoc_string. }
  unfold inline_short.
  by rewrite bool_decide_eq_true_2, HasPrefix_app, slice_from_app.
Qed.

(** In [dashes ++ s ++ "=" ++ value] with no [=] in [s], the part
    after the first [=] is [value]. *)
Lemma after_first_long (s value : string) :
  occurs "="%char s = false →
  after_first "="%char ("--" +:+ s +:+ "=" +:+ value) = value.
Proof.
  intros Hocc.
  change ("--" +:+ s +:+ "=" +:+ value)
    with (String "-"%char (String "-"%char (s +:+ String "=" value))).
  simpl. by apply after_first_app.
Qed.

Lemma after_first_short (s value : string) :
  occurs "="%char s = false →
  after_first "="%char ("-" +:+ s +:+ "=" +:+ value) = value.
Proof.
  intros Hocc.
  change ("-" +:+ s +:+ "=" +:+ value)
    with (String "-"%char (s +:+ String "=" value)).
  simpl. by apply after_first_app.
Qed.

(** C4, as the code has it: at a state that the loop of [Parse]
    reaches, for an option declared at the active node, a token
    [--name=value], or [-short=value] with a non-empty alias when the
    token does not also start with [--name=], stores exactly [value] at
    the option's name and moves the cursor by one, the empty value
    included, provided the token is not the name of a child of the node,
    matches no flag of the node and can be read as no other option of
    the node.  The loop goes on from that state; the result [Parse]
    returns holds a value at that name, and holds [value] unless a later
    pass stores another one there.  [value] is the part of the token
    after its first [=] whenever the name (the alias) contains no
    [=]. *)
Theorem Parse_option_inline (σ : schedule) (h : heap) (p : ptr)
    (args : list string) (st : state) (arg : string) (node : Parser.t)
    (k : string) (opt : optionDef.t) (value : string) :
  legal σ →
  visits σ h args (Parse_init p) st →
  args !! i st = Some arg →
  deref h (current st) = Ret node →
  Parser.options node !! k = Some opt →
  (arg = "--" +:+ optionDef.name opt +:+ "=" +:+ value ∨
   (optionDef.short opt ≠ "" ∧
    arg = "-" +:+ optionDef.short opt +:+ "=" +:+ value ∧
    inline_long arg opt = false)) →
  Parser.commands node !! arg = None →
  (∀ k' flag, Parser.flags node !! k' = Some flag →
              flag_matches arg flag = false) →
  (∀ k' opt', Parser.options node !! k' = Some opt' →
              reads_as arg opt' = true → opt' = opt) →
  Parse_body σ h args st =
    Ret (mkState (set_Options (result st) (optionDef.name opt) value)
                 (current st) (i st + 1)) ∧
  visits σ h args (Parse_init p)
    (mkState (set_Options (result st) (optionDef.name opt) value)
             (current st) (i st + 1)) ∧
  Parse σ h p args =
    Parse_loop σ h (length args - (i st + 1)) args
      (mkState (set_Options (result st) (optionDef.name opt) value)
               (current st) (i st + 1)) ∧
  (∀ r, Parse σ h p args = Ret r →
        is_Some (Result.Options r !! optionDef.name opt) ∧
        ((∀ st', visits σ h args
                   (mkState (set_Options (result st) (optionDef.name opt)
                                         value)
                            (current st) (i st + 1)) st' →
                 ¬ option_stored σ h args st' (optionDef.name opt)) →
         Result.Options r !! optionDef.name opt = Some value)) ∧
  (arg = "--" +:+ optionDef.name opt +:+ "=" +:+ value →
   occurs "="%char (optionDef.name opt) = false →
   after_first "="%char arg = value) ∧
  (arg = "-" +:+ optionDef.short opt +:+ "=" +:+ value →
   occurs "="%char (optionDef.short opt) = false →
   after_first "="%char arg = value).
Proof.
  intros Hσ Hv Harg Hnode Hk Hform Hcmd Hflags Huniq.
  assert (Parse_body σ h args st =
            Ret (mkState (set_Options (result st) (optionDef.name opt) value)
                         (current st) (i st + 1))) as Hbody.
  { destruct Hform as [->|(Hshort & -> & Hnl)].
    + destruct (inline_long_intro opt value) as [Hm Hval].
      erewrite Parse_body_inline_long by done. by rewrite Hval.
    + destruct (inline_short_intro opt value Hshort) as [Hm Hval].
      erewrite Parse_body_inline_short by done. by rewrite Hval. }
  destruct (Parse_continues σ h p args st _ Hv (lookup_lt_Some _ _ _ Harg)
              Hbody) as [Hv' Hparse].
  split; [done|]. split; [done|]. split; [done|].
  split; [|split].
  - intros r Hr. rewrite Hparse in Hr.
    destruct (Parse_loop_Options σ h args (optionDef.name opt) _ _ _ Hr)
      as [Hsome Hkeep].
    { simpl. rewrite lookup_insert_eq. by eexists. }
    split; [done|]. intros Hnever. rewrite (Hkeep Hnever). simpl.
    apply lookup_insert_eq.
  - intros -> Hocc. by apply after_first_long.
  - intros -> Hocc. by apply after_first_short.
Qed.

Lemma Parse_option_inline_witness :
  Parse_body key_order app_heap ["run"; "--name="]
    (mkState (Result.mk ["run"] ∅ ∅ [] []) (Some 2%positive) 1) =
    Ret (mkState (set_Options (Result.mk ["run"] ∅ ∅ [] []) "name" "")
                 (Some 2%positive) 2) ∧
  (∃ r, Parse key_order app_heap (Some 1%positive) ["run"; "--name="] = Ret r ∧
        Result.Options r !! "name" = Some "") ∧
  after_first "="%char "--name=" = "".
Proof.
  destruct (Parse_option_inline key_order app_heap (Some 1%positive)
              ["run"; "--name="]
              (mkState (Result.mk ["run"] ∅ ∅ [] []) (Some 2%positive) 1)
              "--name=" run_node "name"
              (optionDef.mk "name" "" "Container name" []) ""
              legal_key_order)
    as (Hbody & _ & _ & Hres & Hafter & _).
  - eapply visits_pass; [simpl; lia|vm_compute; reflexivity|apply visits_here].
  - reflexivity.
  - exact app_heap_run.
  - reflexivity.
  - by left.
  - reflexivity.
  - intros k' flag Hk'. in_range Hk'.
  - intros k' opt' Hk' Hr. in_range Hk'.
  - split; [exact Hbody|]. split; [|apply Hafter; reflexivity].
    assert (Parse key_order app_heap (Some 1%positive) ["run"; "--name="] =
            Ret (Result.mk ["run"] ∅ {["name" := ""]} [] [])) as Hparse
      by (vm_compute; reflexivity).
    eexists. split; [exact Hparse|].
    apply (Hres _ Hparse).
    intros st' Hv' (st'' & Hb & _).
    inversion Hv' as [|? ? ? Hlt]; subst.
    + vm_compute in Hb. discriminate Hb.
    + simpl in Hlt. lia.
Defined.

(** The claim fails when two options of a node share an alias: [-c=5]
    is the inline form of both [config] and [count] at [tool]; one pass
    stores the value for the option the range yields first only, and
    nothing is stored at [config]. *)
Lemma Parse_option_inline_shared_alias :
  Parser.options tool_node !! "config" =
    Some (optionDef.mk "config" "c" "Config file path" []) ∧
  "-c=5" = "-" +:+ "c" +:+ "=" +:+ "5" ∧
  Parse_body key_order tool_heap ["-c=5"] (Parse_init (Some 1%positive)) =
    Ret (mkState (Result.mk [] ∅ {["count" := "5"]} [] [])
                 (Some 1%positive) 1) ∧
  Parse key_order tool_heap (Some 1%positive) ["-c=5"] =
    Ret (Result.mk [] ∅ {["count" := "5"]} [] []) ∧
  Result.Options (Result.mk [] ∅ {["count" := "5"]} [] []) !! "config" = None.
Proof. vm_compute. by repeat split. Qed.

(** C5, as the code has it: at a state that the loop of [Parse]
    reaches, for an option declared at the active node, the bare token
    [--name], or [-short] with a non-empty alias, followed by another
    token, stores that following token unchanged at the option's name
    and moves the cursor by two, provided the token is not the name of a
    child of the node, matches no flag of the node, is not also an
    inline form of the option, and can be read as no other option of
    the node.  The loop goes on from that state, behind the two tokens;
    the result [Parse] returns holds a value at that name, and holds the
    following token unless a later pass stores another one there. *)
Theorem Parse_option_bare (σ : schedule) (h : heap) (p : ptr)
    (args : list string) (st : state) (arg v : string) (node : Parser.t)
    (k : string) (opt : optionDef.t) :
  legal σ →
  visits σ h args (Parse_init p) st →
  args !! i st = Some arg →
  args !! (i st + 1) = Some v →
  deref h (current st) = Ret node →
  Parser.options node !! k = Some opt →
  (arg = "--" +:+ optionDef.name opt ∨
   (optionDef.short opt ≠ "" ∧ arg = "-" +:+ optionDef.short opt)) →
  inline_long arg opt = false →
  inline_short arg opt = false →
  Parser.commands node !! arg = None →
  (∀ k' flag, Parser.flags node !! k' = Some flag →
              flag_matches arg flag = false) →
  (∀ k' opt', Parser.options node !! k' = Some opt' →
              reads_as arg opt' = true → opt' = opt) →
  Parse_body σ h args st =
    Ret (mkState (set_Options (result st) (optionDef.name opt) v)
                 (current st) (i st + 2)) ∧
  visits σ h args (Parse_init p)
    (mkState (set_Options (result st) (optionDef.name opt) v)
             (current st) (i st + 2)) ∧
  Parse σ h p args =
    Parse_loop σ h (length args - (i st + 2)) args
      (mkState (set_Options (result st) (optionDef.name opt) v)
               (current st) (i st + 2)) ∧
  (∀ r, Parse σ h p args = Ret r →
        is_Some (Result.Options r !! optionDef.name opt) ∧
        ((∀ st', visits σ h args
                   (mkState (set_Options (result st) (optionDef.name opt) v)
                            (current st) (i st + 2)) st' →
                 ¬ option_stored σ h args st' (optionDef.name opt)) →
         Result.Options r !! optionDef.name opt = Some v)).
Proof.
  intros Hσ Hv Harg Hnext Hnode Hk Hform Hnl Hns Hcmd Hflags Huniq.
  assert (Parse_body σ h args st =
            Ret (mkState (set_Options (result st) (optionDef.name opt) v)
                         (current st) (i st + 2))) as Hbody.
  { eapply Parse_body_bare; try done.
    unfold bare. destruct Hform as [->|[Hshort ->]].
    + by rewrite bool_decide_eq_true_2.
    + apply orb_true_iff. right. apply andb_true_iff.
      split; by apply bool_decide_eq_true_2. }
  destruct (Parse_continues σ h p args st _ Hv (lookup_lt_Some _ _ _ Harg)
              Hbody) as [Hv' Hparse].
  split; [done|]. split; [done|]. split; [done|].
  intros r Hr. rewrite Hparse in Hr.
  destruct (Parse_loop_Options σ h args (optionDef.name opt) _ _ _ Hr)
    as [Hsome Hkeep].
  { simpl. rewrite lookup_insert_eq. by eexists. }
  split; [done|]. intros Hnever. rewrite (Hkeep Hnever). simpl.
  apply lookup_insert_eq.
Qed.

Lemma Parse_option_bare_witness :
  Parse_body key_order app_heap ["--config"; "app.conf"; "x"]
    (Parse_init (Some 1%positive)) =
    Ret (mkState (set_Options (Result.mk [] ∅ ∅ [] []) "config" "app.conf")
                 (Some 1%positive) 2) ∧
  (∃ r, Parse key_order app_heap (Some 1%positive)
              ["--config"; "app.conf"; "x"] = Ret r ∧
        Result.Options r !! "config" = Some "app.conf" ∧
        Result.Positionals r = ["x"]).
Proof.
  destruct (Parse_option_bare key_order app_heap (Some 1%positive)
              ["--config"; "app.conf"; "x"]
              (Parse_init (Some 1%positive)) "--config" "app.conf" app_node
              "config" (optionDef.mk "config" "c" "Config file path" [])
              legal_key_order (visits_here _ _ _ _) eq_refl eq_refl
              app_heap_root eq_refl (or_introl eq_refl) eq_refl eq_refl
              eq_refl)
    as (Hbody & _ & _ & Hres).
  - intros k' flag Hk'. in_range Hk'.
  - intros k' opt' Hk' Hr. in_range Hk'.
  - split; [exact Hbody|].
    assert (Parse key_order app_heap (Some 1%positive)
                  ["--config"; "app.conf"; "x"] =
            Ret (Result.mk [] ∅ {["config" := "app.conf"]} ["x"] ["x"]))
      as Hparse by (vm_compute; reflexivity).
    eexists. split; [exact Hparse|]. split; [|reflexivity].
    apply (Hres _ Hparse).
    intros st' Hv' (st'' & Hb & Hne).
    inversion Hv' as [|? st1 ? Hlt Hb1 Hrest]; subst.
    + vm_compute in Hb. injection Hb as <-. by apply Hne.
    + vm_compute in Hb1. injection Hb1 as <-.
      inversion Hrest as [|? ? ? Hlt']; subst.
      * vm_compute in Hb. discriminate Hb.
      * simpl in Hlt'. lia.
Defined.

(** The claim fails when two options of a node share an alias: [-c] is
    the bare form of both [config] and [count] at [tool]; the following
    token is stored for the option the range yields first only. *)
Lemma Parse_option_bare_shared_alias :
  Parser.options tool_node !! "config" =
    Some (optionDef.mk "config" "c" "Config file path" []) ∧
  "-c" = "-" +:+ "c" ∧
  Parse_body key_order tool_heap ["-c"; "5"] (Parse_init (Some 1%positive)) =
    Ret (mkState (Result.mk [] ∅ {["count" := "5"]} [] [])
                 (Some 1%positive) 2) ∧
  Parse key_order tool_heap (Some 1%positive) ["-c"; "5"] =
    Ret (Result.mk [] ∅ {["count" := "5"]} [] []) ∧
  Result.Options (Result.mk [] ∅ {["count" := "5"]} [] []) !! "config" = None.
Proof. vm_compute. by repeat split. Qed.

(** ** Subcommands and positionals on the examples *)


(** The result of that parse: both names are in [Command], and the
    token after them was read at [exec]. *)
Lemma Parse_subcommand_first_result :
  Parse key_order app_heap (Some 1%positive) ["run"; "exec"; "ls"] =
    Ret (Result.mk ["run"; "exec"] ∅ ∅ ["ls"] ["ls"]).
Proof. vm_compute. reflexivity. Qed.

Lemma Parse_only_positionals_witness :
  Parse key_order app_heap (Some 1%positive) ["build"; "main.go"] =
    Ret (Result.mk [] ∅ ∅ ["build"; "main.go"] ["build"; "main.go"]).
Proof.
  apply (Parse_only_positionals key_order app_heap (Some 1%positive) app_node).
  - discriminate.
  - exact app_heap_root.
  - repeat (constructor; [split; vm_compute; reflexivity|]). constructor.
Defined.

(** ** The command path *)

Lemma Run_walk_snoc (h : heap) (p : ptr) (cmds : list string) (cmd : string) :
  Run_walk h p (cmds ++ [cmd]) =
    (current ← Run_walk h p cmds;
     node ← deref h current;
     Ret (Parser.commands node !! cmd)).
Proof.
  revert p. induction cmds as [|c cmds IH]; intros p; simpl.
  - by destruct (deref h p).
  - destruct (deref h p) as [node| | |]; cbn [mbind outcome_bind]; [|done..].
    apply IH.
Qed.

(** While [Parse] runs, replaying [Command] from the start node leads to
    the active node; and the active node is in the store as soon as one
    pass is done. *)
Lemma Parse_loop_walk (σ : schedule) (h : heap) (p : ptr)
    (args : list string) :
  closed h →
  ∀ fuel st r,
    Parse_loop σ h fuel args st = Ret r →
    Run_walk h p (Result.Command (result st)) = Ret (current st) →
    (i st < length args ∨ ∃ node, deref h (current st) = Ret node) →
    ∃ l node, Run_walk h p (Result.Command r) = Ret (Some l) ∧
              h !! l = Some node.
Proof.
  intros Hclosed. induction fuel as [|fuel IH]; intros st r Hloop Hwalk Hlive.
  - simpl in Hloop. case_bool_decide as Hlt; [done|].
    destruct Hlive as [?|[node Hnode]]; [done|]. simplify_eq. simpl.
    unfold deref in Hnode. destruct (current st) as [l|]; [|done].
    destruct (h !! l) as [node'|] eqn:Hl; [|done]. by exists l, node'.
  - simpl in Hloop. case_bool_decide as Hlt.
    + destruct (Parse_body σ h args st) as [st'| | |] eqn:Hbody;
        cbn [mbind outcome_bind] in Hloop; try done.
      apply (IH st' r Hloop).
      * pose proof (Parse_body_pass _ _ _ _ _ Hbody) as Hpass.
        destruct Hpass as [arg node cmd Harg Hnode Hcmd| | |]; simpl; try done.
        rewrite Run_walk_snoc, Hwalk. cbn [mbind outcome_bind].
        rewrite Hnode. cbn [mbind outcome_bind]. by rewrite Hcmd.
      * right.
        pose proof (Parse_body_pass _ _ _ _ _ Hbody) as Hpass.
        destruct Hpass as [arg node cmd Harg Hnode Hcmd| | |]; simpl; eauto.
        unfold deref in Hnode. destruct (current st) as [l|]; [|done].
        destruct (h !! l) as [node'|] eqn:Hl; [|done]. simplify_eq.
        destruct (Hclosed l node arg cmd Hl Hcmd) as [child Hchild].
        exists child. by rewrite Hchild.
    + destruct Hlive as [?|[node Hnode]]; [done|]. simplify_eq. simpl.
      unfold deref in Hnode. destruct (current st) as [l|]; [|done].
      destruct (h !! l) as [node'|] eqn:Hl; [|done]. by exists l, node'.
Qed.

(** A call that prints nothing and returns, followed by another. *)
Lemma quiet_bind {A B} (a : A) (k : A → printing B) :
  quiet (Ret a) ≫= k = k a.
Proof. unfold mbind, printing_bind. simpl. by destruct (k a). Qed.

(** C10: in a store where every child a node names is allocated, the
    [Command] of a successful [Parse] replays from the start node
    without a missing lookup: the walk of [Run] ends at an allocated
    node, so that [Run] gets to that node's handler, or to [Usage] of
    that node when it has none, instead of panicking on the way. *)
Theorem Parse_command_path (σ : schedule)
    (command_order : gmap string loc → list (string * loc))
    (RuneCountInString : string → nat) (os_Args : list string)
    (h : heap) (p : ptr) (args : list string) (r : Result.t) :
  closed h →
  Parse σ h p args = Ret r →
  ∃ l node,
    Run_walk h p (Result.Command r) = Ret (Some l) ∧
    h !! l = Some node ∧
    Run σ command_order RuneCountInString os_Args h p args =
      match Parser.handler node with
      | Some fn => fn r
      | None =>
          Usage σ command_order RuneCountInString os_Args h (Some l);;
          mret ()
      end.
Proof.
  intros Hclosed Hparse.
  assert (∃ l node, Run_walk h p (Result.Command r) = Ret (Some l) ∧
                    h !! l = Some node) as (l & node & Hwalk & Hl).
  { unfold Parse in Hparse. case_bool_decide as Hlen; [done|].
    eapply Parse_loop_walk; [done|exact Hparse|done|].
    left. simpl. lia. }
  exists l, node. split; [done|]. split; [done|].
  unfold Run. rewrite Hparse, quiet_bind, Hwalk, quiet_bind.
  cbn [deref]. by rewrite Hl, quiet_bind.
Qed.

Lemma app_heap_closed : closed app_heap.
Proof.
  intros l node name cmd Hl Hcmd. in_range Hl; in_range Hcmd.
Qed.

Lemma Parse_command_path_witness :
  ∃ l node,
    Run_walk app_heap (Some 1%positive) ["run"; "exec"] = Ret (Some l) ∧
    app_heap !! l = Some node ∧
    Run key_order map_to_list String.length ["app"] app_heap
        (Some 1%positive) ["run"; "exec"; "ls"] =
      match Parser.handler node with
      | Some fn => fn (Result.mk ["run"; "exec"] ∅ ∅ ["ls"] ["ls"])
      | None =>
          Usage key_order map_to_list String.length ["app"] app_heap
                (Some l);;
          mret ()
      end.
Proof.
  apply (Parse_command_path key_order map_to_list String.length ["app"]
           app_heap (Some 1%positive) ["run"; "exec"; "ls"]
           (Result.mk ["run"; "exec"] ∅ ∅ ["ls"] ["ls"]) app_heap_closed).
  vm_compute. reflexivity.
Defined.

(** ** Collecting over the ancestors *)

Section collect_facts.
Context {D : Type} (dname : D → string).

Lemma seen_ok_nil : seen_ok dname ∅ [].
Proof.
  intros n. unfold seen_at. rewrite lookup_empty. simpl. split; [done|].
  by intros ?%elem_of_nil.
Qed.

Lemma collect_range_spec (dl : list D) :
  ∀ defs seen,
    seen_ok dname seen defs →
    NoDup (dname <$> defs) →
    ∃ new seen',
      collect_range dname dl defs seen = (defs ++ new, seen') ∧
      seen_ok dname seen' (defs ++ new) ∧
      NoDup (dname <$> defs ++ new) ∧
      (∀ d, d ∈ new → d ∈ dl ∧ dname d ∉ dname <$> defs) ∧
      (∀ d, d ∈ dl → dname d ∈ dname <$> defs ++ new).
Proof.
  induction dl as [|d dl IH]; intros defs seen Hseen Hnodup; simpl.
  - exists [], seen. rewrite app_nil_r. split_and!; try done.
    all: by intros d ?%elem_of_nil.
  - destruct (seen_at seen (dname d)) eqn:Hd; simpl.
    + destruct (IH defs seen Hseen Hnodup)
        as (new & seen' & Heq & Hseen' & Hnodup' & Hnew & Hall).
      exists new, seen'. split_and!; try done.
      * intros d' Hin. destruct (Hnew _ Hin). split; [by right|done].
      * intros d' [->|Hin]%elem_of_cons; [|by apply Hall].
        rewrite fmap_app. apply elem_of_app. left. by apply Hseen.
    + assert (dname d ∉ dname <$> defs) as Hfresh.
      { intros Hin%Hseen. congruence. }
      destruct (IH (defs ++ [d]) (<[dname d := true]> seen))
        as (new & seen' & Heq & Hseen' & Hnodup' & Hnew & Hall).
      { intros n. unfold seen_at. rewrite fmap_app, elem_of_app. simpl.
        rewrite list_elem_of_singleton.
        destruct (decide (dname d = n)) as [<-|Hne].
        - rewrite lookup_insert_eq. simpl. split; auto.
        - rewrite lookup_insert_ne by done. rewrite <- (Hseen n).
          unfold seen_at. split; [by left|]. by intros [?|?]. }
      { rewrite fmap_app. apply NoDup_app. split; [done|]. split.
        - intros n Hn [->|[]%elem_of_nil]%elem_of_cons. done.
        - simpl. apply NoDup_singleton. }
      rewrite <- app_assoc in Heq, Hseen', Hnodup', Hall. simpl in *.
      exists (d :: new), seen'. split_and!; try done.
      * intros d' [->|Hin]%elem_of_cons; [split; [by left|done]|].
        destruct (Hnew _ Hin) as [? Hn]. split; [by right|].
        intros Hin'. apply Hn. rewrite fmap_app. apply elem_of_app. by left.
      * intros d' [->|Hin]%elem_of_cons; [|by apply Hall].
        rewrite fmap_app. apply elem_of_app. right. simpl. by left.
Qed.

(** A name that some level files has a definition that is collected. *)
Lemma collected_first (levels : list (gmap string D)) (nm : string) :
  Forall (keyed_map dname) levels →
  (∃ j m d, levels !! j = Some m ∧ m !! nm = Some d) →
  ∃ d n, collected dname levels d ∧ dname d = nm ∧
         (∃ m, levels !! n = Some m ∧ m !! nm = Some d).
Proof.
  induction 1 as [|m0 levels Hkey _ IH]; intros (j & m & d & Hj & Hd).
  - by rewrite lookup_nil in Hj.
  - destruct (m0 !! nm) as [d0|] eqn:Hm0.
    + exists d0, 0. pose proof (Hkey _ _ Hm0) as Hname. split; [|split; [done|]].
      * exists 0, m0. rewrite Hname. split_and!; try done. lia.
      * by exists m0.
    + destruct j as [|j]; [simpl in Hj; congruence|].
      destruct IH as (d1 & n & (n' & m' & Hn' & Hm' & Hfirst) & Hname & m1 & Hn & Hm1).
      { by exists j, m, d. }
      exists d1, (S n). split; [|split; [done|by exists m1]].
      exists (S n'), m'. split_and!; try done.
      intros [|j'] m'' Hlt Hj'; simpl in Hj'.
      * by simplify_eq.
      * eapply Hfirst; [|done]. lia.
Qed.

Lemma collected_app_l (done rest : list (gmap string D)) (d : D) :
  collected dname done d → collected dname (done ++ rest) d.
Proof.
  intros (n & m & Hn & Hm & Hfirst). exists n, m.
  pose proof (lookup_lt_Some _ _ _ Hn) as Hlt.
  split; [by rewrite lookup_app_l|]. split; [done|].
  intros j m' Hj Hj'. rewrite lookup_app_l in Hj' by lia. by eapply Hfirst.
Qed.

Context (h : heap) (field : Parser.t → gmap string D).
Context (order : nat → gmap string D → list D).
Context (Horder : ∀ n m, order n m ≡ₚ values m).

Lemma collect_loop_spec (current : ptr) (c : list (loc * Parser.t)) :
  chain h current c →
  ∀ fuel level defs seen done,
    length c ≤ fuel →
    Forall (keyed_map dname) (done ++ (field <$> c.*2)) →
    seen_ok dname seen defs →
    NoDup (dname <$> defs) →
    (∀ d, d ∈ defs ↔ collected dname done d) →
    ∃ defs',
      collect_loop dname h field order fuel level current defs seen = Ret defs' ∧
      NoDup (dname <$> defs') ∧
      (∀ d, d ∈ defs' ↔ collected dname (done ++ (field <$> c.*2)) d).
Proof.
  induction 1 as [|l node c Hl Hchain IH];
    intros fuel level defs seen done Hfuel Hkeyed Hseen Hnodup Hdefs.
  - exists defs. simpl. rewrite app_nil_r. split; [by destruct fuel|done].
  - destruct fuel as [|fuel]; [simpl in Hfuel; lia|].
    simpl. rewrite Hl. cbn [mbind outcome_bind].
    destruct (collect_range_spec (order level (field node)) defs seen Hseen Hnodup)
      as (new & seen' & Heq & Hseen' & Hnodup' & Hnew & Hall).
    rewrite Heq.
    assert (done ++ (field <$> ((l, node) :: c).*2) =
            (done ++ [field node]) ++ (field <$> c.*2)) as Hlevels
      by (rewrite <- app_assoc; reflexivity).
    rewrite Hlevels in Hkeyed. setoid_rewrite Hlevels.
    apply IH; try done; [simpl in Hfuel; lia|].
    assert (Forall (keyed_map dname) done ∧ keyed_map dname (field node)) as [Hkdone Hknode].
    { apply Forall_app in Hkeyed as [Hk _]. apply Forall_app in Hk as [? Hk].
      split; [done|]. by inversion Hk. }
    assert (∀ d, d ∈ order level (field node) ↔ ∃ k, field node !! k = Some d)
      as Hin_order.
    { intros d. by rewrite (Horder level (field node)), elem_of_values. }
    intros d. rewrite elem_of_app. split.
    + intros [Hin|Hin].
      * apply collected_app_l. by apply Hdefs.
      * destruct (Hnew _ Hin) as [Hdl Hfresh].
        apply Hin_order in Hdl as [k Hk].
        pose proof (Hknode _ _ Hk) as <-.
        exists (length done), (field node).
        split; [by rewrite lookup_app_r, Nat.sub_diag by lia|]. split; [done|].
        intros j m' Hj Hj'. rewrite lookup_app_l in Hj' by done.
        destruct (m' !! dname d) as [d'|] eqn:Hd'; [|done].
        destruct (collected_first done (dname d) Hkdone)
          as (d0 & _ & Hcol & Hname & _); [by exists j, m', d'|].
        exfalso. apply Hfresh. rewrite <- Hname.
        apply list_elem_of_fmap_2. by apply Hdefs.
    + intros (n & m & Hn & Hm & Hfirst).
      destruct (decide (n < length done)) as [Hlt|Hge].
      * left. apply Hdefs. exists n, m. rewrite lookup_app_l in Hn by done.
        split; [done|]. split; [done|].
        intros j m' Hj Hj'. eapply Hfirst; [done|].
        rewrite lookup_app_l; [done|lia].
      * rewrite lookup_app_r in Hn by lia.
        apply list_lookup_singleton_Some in Hn as [Hn <-].
        assert (d ∈ order level (field node)) as Hdl by (apply Hin_order; eauto).
        apply Hall in Hdl. apply list_elem_of_fmap in Hdl as (g & Hname & Hg).
        apply elem_of_app in Hg as [Hg|Hg].
        -- apply Hdefs in Hg as (n' & m' & Hn' & Hm' & _).
           pose proof (lookup_lt_Some _ _ _ Hn') as Hlt'.
           rewrite <- Hname in Hm'.
           rewrite (Hfirst n' m') in Hm'; [done|lia|].
           by rewrite lookup_app_l.
        -- right. destruct (Hnew _ Hg) as [Hgdl _].
           apply Hin_order in Hgdl as [k Hk].
           pose proof (Hknode _ _ Hk) as Hkname. rewrite <- Hname in Hkname.
           rewrite <- Hkname, Hm in Hk. by simplify_eq.
Qed.
End collect_facts.

(** The names collected are the names filed at some level. *)
Lemma collected_names {D : Type} (dname : D → string)
    (levels : list (gmap string D)) (defs : list D) (nm : string) :
  Forall (keyed_map dname) levels →
  (∀ d, d ∈ defs ↔ collected dname levels d) →
  nm ∈ dname <$> defs ↔ ∃ m, m ∈ levels ∧ is_Some (m !! nm).
Proof.
  intros Hkeyed Hdefs. split.
  - intros (d & -> & Hd)%list_elem_of_fmap.
    apply Hdefs in Hd as (n & m & Hn & Hm & _).
    exists m. split; [by eapply list_elem_of_lookup_2|by eexists].
  - intros (m & (j & Hj)%list_elem_of_lookup & [d Hd]).
    destruct (collected_first dname levels nm Hkeyed)
      as (d0 & _ & Hcol & <- & _); [by exists j, m, d|].
    apply list_elem_of_fmap_2. by apply Hdefs.
Qed.

(** *** The chain of parents *)

Lemma chain_unique (h : heap) (p : ptr) (c1 c2 : list (loc * Parser.t)) :
  chain h p c1 → chain h p c2 → c1 = c2.
Proof.
  intros H1. revert c2. induction H1 as [|l node c Hl _ IH]; intros c2 H2.
  - by inversion H2.
  - inversion H2 as [|l' node' c' Hl' Hc']; simplify_eq.
    f_equal. by apply IH.
Qed.

Lemma chain_suffix (h : heap) (p : ptr) (c1 c2 : list (loc * Parser.t))
    (l : loc) (node : Parser.t) :
  chain h p (c1 ++ (l, node) :: c2) → chain h (Some l) ((l, node) :: c2).
Proof.
  revert p. induction c1 as [|[l1 n1] c1 IH]; intros p Hc; simpl in Hc.
  - by inversion Hc; subst.
  - inversion Hc; subst. by eapply IH.
Qed.

Lemma chain_NoDup (h : heap) (p : ptr) (c : list (loc * Parser.t)) :
  chain h p c → NoDup c.*1.
Proof.
  induction 1 as [|l node c Hl Hchain IH]; simpl; [constructor|].
  constructor; [|done].
  intros ([l' node'] & Heq & Hin)%list_elem_of_fmap. simpl in Heq. subst l'.
  apply list_elem_of_split in Hin as (c1 & c2 & ->).
  pose proof (chain_suffix _ _ _ _ _ _ Hchain) as Hsuffix.
  inversion Hsuffix as [|? ? ? Hl' Hrest]; simplify_eq.
  pose proof (chain_unique _ _ _ _ Hchain Hrest) as Heq.
  apply (f_equal length) in Heq. rewrite length_app in Heq. simpl in Heq. lia.
Qed.

Lemma chain_allocated (h : heap) (p : ptr) (c : list (loc * Parser.t)) :
  chain h p c → ∀ l node, (l, node) ∈ c → h !! l = Some node.
Proof.
  induction 1 as [|l node c Hl _ IH]; intros l' node' Hin.
  - by apply elem_of_nil in Hin.
  - apply elem_of_cons in Hin as [?|Hin]; [by simplify_eq|by apply IH].
Qed.

(** A chain without a cycle has at most as many nodes as the store. *)
Lemma chain_length (h : heap) (p : ptr) (c : list (loc * Parser.t)) :
  chain h p c → length c ≤ size h.
Proof.
  intros Hchain. rewrite <- (length_fmap fst c).
  rewrite <- size_dom, <- (size_list_to_set (C := gset loc) c.*1)
    by by eapply chain_NoDup.
  apply subseteq_size. intros l Hl%elem_of_list_to_set.
  apply list_elem_of_fmap in Hl as ([l' node] & -> & Hin).
  apply elem_of_dom. exists node. by eapply chain_allocated.
Qed.

(** *** The two instances *)

Lemma collectFlags_loop_shape (σ : schedule) (h : heap) :
  collectFlags_loop σ h =
  collect_loop flagDef.name h Parser.flags (flag_order σ).
Proof. reflexivity. Qed.

Lemma collectOptions_loop_shape (σ : schedule) (h : heap) :
  collectOptions_loop σ h =
  collect_loop optionDef.name h Parser.options (option_order σ).
Proof. reflexivity. Qed.

(** C8: on a node whose chain of parents reaches the root, with every
    definition filed under its own name, [collectFlags] and
    [collectOptions] return, without repeating a name, exactly the
    definitions filed at some level of the chain under a name that no
    level closer to the starting node files; so every name filed at any
    level appears, once. *)
Theorem collect_first_seen_wins (σ : schedule) (h : heap) (p : ptr)
    (c : list (loc * Parser.t)) :
  legal σ →
  chain h p c →
  Forall keyed c.*2 →
  ∃ flags options,
    collectFlags σ h p = Ret flags ∧
    collectOptions σ h p = Ret options ∧
    NoDup (flagDef.name <$> flags) ∧
    NoDup (optionDef.name <$> options) ∧
    (∀ flag, flag ∈ flags ↔
             collected flagDef.name (Parser.flags <$> c.*2) flag) ∧
    (∀ opt, opt ∈ options ↔
            collected optionDef.name (Parser.options <$> c.*2) opt) ∧
    (∀ name, name ∈ flagDef.name <$> flags ↔
             ∃ node, node ∈ c.*2 ∧ is_Some (Parser.flags node !! name)) ∧
    (∀ name, name ∈ optionDef.name <$> options ↔
             ∃ node, node ∈ c.*2 ∧ is_Some (Parser.options node !! name)).
Proof.
  intros [Hf Ho] Hchain Hkeyed.
  pose proof (chain_length _ _ _ Hchain) as Hlen.
  assert (Forall (keyed_map flagDef.name) (Parser.flags <$> c.*2)) as Hkf.
  { apply Forall_fmap. eapply Forall_impl; [done|]. by intros node [? _]. }
  assert (Forall (keyed_map optionDef.name) (Parser.options <$> c.*2)) as Hko.
  { apply Forall_fmap. eapply Forall_impl; [done|]. by intros node [_ ?]. }
  destruct (collect_loop_spec flagDef.name h Parser.flags (flag_order σ) Hf
              p c Hchain (size h) 0 [] ∅ [] Hlen Hkf)
    as (flags & Hflags & Hnf & Hcf).
  { apply seen_ok_nil. }
  { constructor. }
  { intros d. split; [by intros ?%elem_of_nil|].
    intros (n & m & Hn & _). by rewrite lookup_nil in Hn. }
  destruct (collect_loop_spec optionDef.name h Parser.options (option_order σ)
              Ho p c Hchain (size h) 0 [] ∅ [] Hlen Hko)
    as (options & Hoptions & Hno & Hco).
  { apply seen_ok_nil. }
  { constructor. }
  { intros d. split; [by intros ?%elem_of_nil|].
    intros (n & m & Hn & _). by rewrite lookup_nil in Hn. }
  simpl in Hcf, Hco.
  exists flags, options. split_and!; try done.
  - intros name. rewrite (collected_names flagDef.name _ _ name Hkf Hcf).
    split.
    + intros (m & (node & -> & Hin)%list_elem_of_fmap & Hm). by exists node.
    + intros (node & Hin & Hm). exists (Parser.flags node).
      split; [by apply list_elem_of_fmap_2|done].
  - intros name. rewrite (collected_names optionDef.name _ _ name Hko Hco).
    split.
    + intros (m & (node & -> & Hin)%list_elem_of_fmap & Hm). by exists node.
    + intros (node & Hin & Hm). exists (Parser.options node).
      split; [by apply list_elem_of_fmap_2|done].
Qed.

Lemma app_heap_chain :
  chain app_heap (Some 3%positive)
    [(3%positive, exec_node); (2%positive, run_node); (1%positive, app_node)].
Proof.
  repeat (eapply chain_up; [vm_compute; reflexivity|]). apply chain_root.
Qed.

Lemma app_heap_keyed : Forall keyed [exec_node; run_node; app_node].
Proof.
  repeat constructor; intros k d Hk; in_range Hk.
Qed.

Lemma collect_first_seen_wins_witness :
  ∃ flags options,
    collectFlags key_order app_heap (Some 3%positive) = Ret flags ∧
    collectOptions key_order app_heap (Some 3%positive) = Ret options ∧
    NoDup (flagDef.name <$> flags) ∧
    NoDup (optionDef.name <$> options) ∧
    (∀ flag, flag ∈ flags ↔
       collected flagDef.name
         (Parser.flags <$> [exec_node; run_node; app_node]) flag) ∧
    (∀ opt, opt ∈ options ↔
       collected optionDef.name
         (Parser.options <$> [exec_node; run_node; app_node]) opt) ∧
    (∀ name, name ∈ flagDef.name <$> flags ↔
       ∃ node, node ∈ [exec_node; run_node; app_node] ∧
               is_Some (Parser.flags node !! name)) ∧
    (∀ name, name ∈ optionDef.name <$> options ↔
       ∃ node, node ∈ [exec_node; run_node; app_node] ∧
               is_Some (Parser.options node !! name)).
Proof.
  exact (collect_first_seen_wins key_order app_heap (Some 3%positive) _
           legal_key_order app_heap_chain app_heap_keyed).
Defined.

(** On the three levels [exec], [run], [app]: [exec]'s own [verbose]
    and [name] hide the ones of [app] and [run]; every other name of
    the three levels is there. *)
Lemma collect_three_levels :
  collectFlags key_order app_heap (Some 3%positive) =
    Ret [flagDef.mk "verbose" "" "Log the command";
         flagDef.mk "tty" "t" "Allocate a terminal";
         flagDef.mk "detach" "d" "Run in background"] ∧
  collectOptions key_order app_heap (Some 3%positive) =
    Ret [optionDef.mk "name" "n" "Process name" [];
         optionDef.mk "config" "c" "Config file path" []].
Proof. vm_compute. by split. Qed.

(** ** The builder keeps the store well formed *)

Lemma update_inv (p : ptr) (f : Parser.t → Parser.t) (h h' : heap) :
  update p f h = Ret h' →
  ∃ l node, p = Some l ∧ h !! l = Some node ∧ h' = <[l := f node]> h.
Proof.
  unfold update. destruct p as [l|]; [|done].
  destruct (h !! l) as [node|] eqn:Hl; [|done].
  intros [= <-]. by exists l, node.
Qed.

(** Chains survive any change that keeps every node of the old store
    and its parent link. *)
Lemma chain_preserved (h h' : heap) (p : ptr) (c : list (loc * Parser.t)) :
  (∀ l node, h !! l = Some node →
     ∃ node', h' !! l = Some node' ∧ Parser.parent node' = Parser.parent node) →
  chain h p c → ∃ c', chain h' p c'.
Proof.
  intros Hsame. induction 1 as [|l node c Hl _ [c' IH]].
  - exists []. constructor.
  - destruct (Hsame l node Hl) as (node' & Hl' & Hparent).
    exists ((l, node') :: c'). constructor; [done|]. by rewrite Hparent.
Qed.

Lemma wf_empty : wf ∅.
Proof.
  split; [|split].
  - intros l node name cmd Hl. by rewrite lookup_empty in Hl.
  - intros l node Hl. by rewrite lookup_empty in Hl.
  - intros l node Hl. by rewrite lookup_empty in Hl.
Qed.

(** Replacing a node by one with the same parent, keyed maps and
    allocated children. *)
Lemma wf_replace (h : heap) (l : loc) (node node' : Parser.t) :
  wf h →
  h !! l = Some node →
  Parser.parent node' = Parser.parent node →
  keyed node' →
  (∀ name cmd, Parser.commands node' !! name = Some cmd → is_Some (h !! cmd)) →
  wf (<[l := node']> h).
Proof.
  intros (Hclosed & Hkeyed & Hchain) Hl Hparent Hk Hcmds.
  assert (∀ l0 node0, h !! l0 = Some node0 →
            ∃ node1, <[l := node']> h !! l0 = Some node1 ∧
                     Parser.parent node1 = Parser.parent node0) as Hsame.
  { intros l0 node0 Hl0. destruct (decide (l = l0)) as [<-|Hne].
    - exists node'. rewrite lookup_insert_eq. by simplify_eq.
    - exists node0. by rewrite lookup_insert_ne. }
  split; [|split].
  - intros l0 node0 name cmd Hl0 Hcmd.
    assert (is_Some (h !! cmd)) as [child Hchild].
    { destruct (decide (l = l0)) as [<-|Hne].
      - rewrite lookup_insert_eq in Hl0. simplify_eq. by eapply Hcmds.
      - rewrite lookup_insert_ne in Hl0 by done. by eapply Hclosed. }
    destruct (Hsame cmd child Hchild) as (node1 & -> & _). by eexists.
  - intros l0 node0 Hl0. destruct (decide (l = l0)) as [<-|Hne].
    + rewrite lookup_insert_eq in Hl0. by simplify_eq.
    + rewrite lookup_insert_ne in Hl0 by done. by eapply Hkeyed.
  - intros l0 node0 Hl0.
    assert (is_Some (h !! l0)) as [node1 Hl1].
    { destruct (decide (l = l0)) as [<-|Hne]; [by eexists|].
      rewrite lookup_insert_ne in Hl0 by done. by eexists. }
    destruct (Hchain l0 node1 Hl1) as [c Hc]. by eapply chain_preserved.
Qed.

Lemma wf_update (p : ptr) (f : Parser.t → Parser.t) (h h' : heap) :
  wf h →
  update p f h = Ret h' →
  (∀ n, Parser.parent (f n) = Parser.parent n) →
  (∀ n, Parser.commands (f n) = Parser.commands n) →
  (∀ n, keyed n → keyed (f n)) →
  wf h'.
Proof.
  intros Hwf (l & node & -> & Hl & ->)%update_inv Hparent Hcommands Hf.
  pose proof Hwf as (Hclosed & Hkeyed & _).
  eapply wf_replace; try done.
  - apply Hf. by eapply Hkeyed.
  - intros name cmd. rewrite Hcommands. by eapply Hclosed.
Qed.

Lemma Flag_wf (p p' : ptr) (name short help : string) (h h' : heap) :
  wf h → Flag p name short help h = Ret (p', h') → wf h' ∧ p' = p.
Proof.
  intros Hwf. unfold Flag.
  destruct (update p _ h) as [h1| | |] eqn:Hupd; cbn [mbind outcome_bind];
    try done.
  intros [= <- <-]. split; [|done].
  eapply wf_update; [done|exact Hupd|done|done|].
  intros n [Hflags Hopts]. split; [|done]. simpl. intros k flag.
  destruct (decide (name = k)) as [<-|Hne].
  - rewrite lookup_insert_eq. by intros [= <-].
  - rewrite lookup_insert_ne by done. apply Hflags.
Qed.

Lemma Option_wf (p p' : ptr) (name short help : string)
    (choices : list string) (h h' : heap) :
  wf h → Option p name short help choices h = Ret (p', h') → wf h' ∧ p' = p.
Proof.
  intros Hwf. unfold Option.
  destruct (update p _ h) as [h1| | |] eqn:Hupd; cbn [mbind outcome_bind];
    try done.
  intros [= <- <-]. split; [|done].
  eapply wf_update; [done|exact Hupd|done|done|].
  intros n [Hflags Hopts]. split; [done|]. simpl. intros k opt.
  destruct (decide (name = k)) as [<-|Hne].
  - rewrite lookup_insert_eq. by intros [= <-].
  - rewrite lookup_insert_ne by done. apply Hopts.
Qed.

Lemma Action_wf (p p' : ptr) (fn : option (Result.t → printing unit))
    (h h' : heap) :
  wf h → Action p fn h = Ret (p', h') → wf h' ∧ p' = p.
Proof.
  intros Hwf. unfold Action.
  destruct (update p _ h) as [h1| | |] eqn:Hupd; cbn [mbind outcome_bind];
    try done.
  intros [= <- <-]. split; [|done]. by eapply wf_update.
Qed.

Lemma Positional_wf (p p' : ptr) (name : string) (h h' : heap) :
  wf h → Positional p name h = Ret (p', h') → wf h' ∧ p' = p.
Proof.
  intros Hwf. unfold Positional.
  destruct (update p _ h) as [h1| | |] eqn:Hupd; cbn [mbind outcome_bind];
    try done.
  intros [= <- <-]. split; [|done]. by eapply wf_update.
Qed.

Lemma New_fresh (name : string) (h h' : heap) (l : loc) :
  New name h = (l, h') →
  h !! l = None ∧ h' = <[l := Parser.mk name "" ∅ ∅ ∅ nil None []]> h.
Proof.
  unfold New. intros [= <- <-]. split; [|done].
  apply not_elem_of_dom. apply is_fresh.
Qed.

(** Adding a node at an unused location, with no children and empty
    maps, whose parent is nil or allocated. *)
Lemma wf_insert_leaf (h : heap) (l : loc) (node : Parser.t) :
  wf h →
  h !! l = None →
  Parser.flags node = ∅ → Parser.options node = ∅ →
  Parser.commands node = ∅ →
  (Parser.parent node = nil ∨
   ∃ q, Parser.parent node = Some q ∧ is_Some (h !! q)) →
  wf (<[l := node]> h).
Proof.
  intros (Hclosed & Hkeyed & Hchain) Hl Hf Ho Hc Hparent.
  assert (∀ l0 node0, h !! l0 = Some node0 →
            ∃ node', <[l := node]> h !! l0 = Some node' ∧
                     Parser.parent node' = Parser.parent node0) as Hsame.
  { intros l0 node0 Hl0. exists node0. split; [|done].
    rewrite lookup_insert_ne; [done|]. intros <-. congruence. }
  split; [|split].
  - intros l0 node0 name cmd Hl0 Hcmd. destruct (decide (l = l0)) as [<-|Hne].
    + rewrite lookup_insert_eq in Hl0. simplify_eq.
      by rewrite Hc, lookup_empty in Hcmd.
    + rewrite lookup_insert_ne in Hl0 by done.
      destruct (Hclosed _ _ _ _ Hl0 Hcmd) as [child Hchild].
      destruct (Hsame cmd child Hchild) as (node' & -> & _). by eexists.
  - intros l0 node0 Hl0. destruct (decide (l = l0)) as [<-|Hne].
    + rewrite lookup_insert_eq in Hl0. simplify_eq. split.
      * intros k flag. by rewrite Hf, lookup_empty.
      * intros k opt. by rewrite Ho, lookup_empty.
    + rewrite lookup_insert_ne in Hl0 by done. by eapply Hkeyed.
  - intros l0 node0 Hl0. destruct (decide (l = l0)) as [<-|Hne].
    + rewrite lookup_insert_eq in Hl0. simplify_eq.
      destruct Hparent as [Hnil|(q & Hq & [qnode Hqnode])].
      * exists [(l, node0)]. constructor; [by rewrite lookup_insert_eq|].
        rewrite Hnil. constructor.
      * destruct (Hchain q qnode Hqnode) as [c Hcq].
        destruct (chain_preserved h (<[l := node0]> h) _ _ Hsame Hcq) as [c' Hc'].
        exists ((l, node0) :: c'). constructor; [by rewrite lookup_insert_eq|].
        by rewrite Hq.
    + rewrite lookup_insert_ne in Hl0 by done.
      destruct (Hchain l0 node0 Hl0) as [c Hc0]. by eapply chain_preserved.
Qed.

Lemma New_wf (name : string) (h h' : heap) (l : loc) :
  wf h → New name h = (l, h') → wf h' ∧ is_Some (h' !! l).
Proof.
  intros Hwf [Hl ->]%New_fresh. split.
  - apply wf_insert_leaf; try done. by left.
  - rewrite lookup_insert_eq. by eexists.
Qed.

(** [Command] on a pointer into a well-formed store leaves a
    well-formed store in which the child is allocated, has the receiver
    as its parent, and is filed under its name in the receiver. *)
Lemma Command_wf (l : loc) (pnode : Parser.t) (child : ptr)
    (name help : string) (h h' : heap) :
  wf h →
  h !! l = Some pnode →
  Command (Some l) name help h = Ret (child, h') →
  wf h' ∧
  ∃ c cnode pnode',
    child = Some c ∧ h !! c = None ∧ h' !! c = Some cnode ∧
    Parser.parent cnode = Some l ∧
    h' !! l = Some pnode' ∧ Parser.commands pnode' !! name = Some c.
Proof.
  intros Hwf Hl. unfold Command.
  destruct (New name h) as [c h0] eqn:Hnew.
  apply New_fresh in Hnew as [Hc ->].
  assert (c ≠ l) as Hne by (intros ->; congruence).
  unfold update. rewrite lookup_insert_eq. cbn [mbind outcome_bind].
  rewrite lookup_insert_eq. cbn [mbind outcome_bind].
  rewrite !insert_insert_eq. rewrite lookup_insert_ne, Hl by done.
  cbn [mbind outcome_bind]. intros [= <- <-].
  set (cnode := set_parent
                  (set_description (Parser.mk name "" ∅ ∅ ∅ nil None []) help)
                  (Some l)).
  assert (wf (<[c := cnode]> h)) as Hwf1.
  { apply wf_insert_leaf; try done. right. exists l. split; [done|by eexists]. }
  pose proof Hwf as (Hclosed & Hkeyed & _).
  split.
  - eapply wf_replace;
      [done|by rewrite lookup_insert_ne|done|exact (Hkeyed _ _ Hl)|].
    simpl. intros nm cmd. destruct (decide (name = nm)) as [<-|Hnm].
    + rewrite lookup_insert_eq. intros [= <-]. rewrite lookup_insert_eq.
      by eexists.
    + rewrite lookup_insert_ne by done. intros Hcmd.
      destruct (Hclosed _ _ _ _ Hl Hcmd) as [x Hx].
      rewrite lookup_insert_ne; [by eexists|]. intros <-. congruence.
  - exists c, cnode, (set_commands pnode (<[name := c]> (Parser.commands pnode))).
    split_and!; try done.
    + rewrite lookup_insert_ne by done. by rewrite lookup_insert_eq.
    + by rewrite lookup_insert_eq.
    + simpl. by rewrite lookup_insert_eq.
Qed.

(** On a well-formed store the assumptions of the two properties above
    hold at every node. *)
Lemma wf_closed (h : heap) : wf h → closed h.
Proof. by intros [? _]. Qed.

Lemma wf_chain (h : heap) (l : loc) (node : Parser.t) :
  wf h → h !! l = Some node →
  ∃ c, chain h (Some l) c ∧ Forall keyed c.*2.
Proof.
  intros (_ & Hkeyed & Hchain) Hl. destruct (Hchain l node Hl) as [c Hc].
  exists c. split; [done|]. apply Forall_forall.
  intros n ([l' n'] & -> & Hin)%list_elem_of_fmap. simpl.
  eapply Hkeyed. by eapply chain_allocated.
Qed.

(** ** The provisos are needed *)

Lemma clash_script_builds : clash_script = Ret (Some 1%positive, clash_heap).
Proof. vm_compute. reflexivity. Qed.

(** A token that matches a declared flag but is also the name of a
    child is consumed as the subcommand; the flag stays unset. *)
Lemma Parse_flag_or_subcommand :
  flag_matches "--help" (flagDef.mk "help" "h" "Show help") = true ∧
  Parse key_order clash_heap (Some 1%positive) ["--help"] =
    Ret (Result.mk ["--help"] ∅ ∅ [] []).
Proof. vm_compute. by split. Qed.

(** A token in the inline form of a declared option that also matches a
    flag sets the flag; nothing is stored for the option. *)
Lemma Parse_flag_before_option :
  inline_long "--output=json"
    (optionDef.mk "output" "o" "Output format" []) = true ∧
  Parse key_order clash_heap (Some 1%positive) ["--output=json"] =
    Ret (Result.mk [] {["output=json" := true]} ∅ [] []).
Proof. vm_compute. by split. Qed.

(** The bare alias of a declared option, followed by a token, when it
    is also the name of a child: the subcommand wins and the following
    token becomes a positional. *)
Lemma Parse_option_or_subcommand :
  bare "-o" (optionDef.mk "output" "o" "Output format" []) = true ∧
  Parse key_order clash_heap (Some 1%positive) ["-o"; "json"] =
    Ret (Result.mk ["-o"] ∅ ∅ ["json"] ["json"]).
Proof. vm_compute. by split. Qed.

(** With [=] in the option's name, the value stored is the part after
    the name's prefix, not the part after the first [=]. *)
Lemma Parse_option_name_with_equals :
  Parse key_order clash_heap (Some 1%positive) ["--k=v=1"] =
    Ret (Result.mk [] ∅ {["k=v" := "1"]} [] []) ∧
  after_first "="%char "--k=v=1" = "v=1".
Proof. vm_compute. by split. Qed.

(** An option given twice: each token stores its value when the loop
    reads it, and the result keeps the one stored last. *)
Lemma Parse_option_last_wins :
  Parse key_order app_heap (Some 1%positive) ["--config=a"; "--config=b"] =
    Ret (Result.mk [] ∅ {["config" := "b"]} [] []) ∧
  Parse key_order app_heap (Some 1%positive) ["-c"; "a"; "--config"; "b"] =
    Ret (Result.mk [] ∅ {["config" := "b"]} [] []).
Proof. vm_compute. by split. Qed.

(** The loop of [Parse] never needs more passes than there are tokens. *)
Lemma Parse_terminates (σ : schedule) (h : heap) (p : ptr)
    (args : list string) :
  Parse σ h p args ≠ Diverge.
Proof.
  unfold Parse. case_bool_decide; [done|].
  apply Parse_loop_terminates. simpl. lia.
Qed.
(** * Further properties *)

(** ** [Parse] as a whole *)

(** X1: On a tree in which every registered child is allocated, [Parse]
    ends, and it panics exactly when it is called on the nil parser
    with at least one token. *)
Theorem Parse_panics_only_on_nil (σ : schedule) (h : heap) (p : ptr)
    (args : list string) :
  closed h →
  (∀ l, p = Some l → is_Some (h !! l)) →
  Parse σ h p args ≠ Diverge ∧
  (Parse σ h p args = Panic ↔ p = nil ∧ args ≠ []).
Proof.
  intros Hclosed Hp. split.
  { unfold Parse. case_bool_decide; [done|].
    apply Parse_loop_terminates. simpl. lia. }
  split.
  - unfold Parse. case_bool_decide as Hlen; [done|]. intros Hpanic.
    split; [|by intros ->].
    destruct p as [l|]; [exfalso|done].
    destruct (Hp l eq_refl) as [node Hl].
    destruct (Parse_loop_fails σ h
                (λ st, ∃ node, deref h (current st) = Ret node) args
                (λ st st' HP _, Parse_body_allocated σ h args st st' Hclosed HP)
                (length args) (Parse_init (Some l))) as [_ Hstop].
    { exists node. simpl. by rewrite Hl. }
    destruct (Hstop Hpanic) as (st & [n Hn] & Hlt & Hbody).
    apply Parse_body_panic in Hbody as [Hnone|Hderef].
    + apply lookup_ge_None in Hnone. lia.
    + by rewrite Hn in Hderef.
  - intros [-> Hne]. by destruct args.
Qed.

Lemma Parse_panics_only_on_nil_witness :
  Parse key_order app_heap (Some 1%positive) ["run"; "--fast"] ≠ Diverge ∧
  (Parse key_order app_heap (Some 1%positive) ["run"; "--fast"] = Panic ↔
   Some 1%positive = nil ∧ ["run"; "--fast"] ≠ []).
Proof.
  apply (Parse_panics_only_on_nil key_order app_heap (Some 1%positive)
           ["run"; "--fast"] app_heap_closed).
  intros l [= <-]. vm_compute. eauto.
Defined.

(** X2: The only errors [Parse] returns: the empty-input error, on no
    token at all, and the unknown-flag error, built from a token of the
    input that starts with a dash. *)
Theorem Parse_error_forms (σ : schedule) (h : heap) (p : ptr)
    (args : list string) (e : error) :
  Parse σ h p args = Err e →
  (args = [] ∧ e = EmptyInputError) ∨
  (∃ arg, arg ∈ args ∧ HasPrefix arg "-" = true ∧ e = UnknownFlagError arg).
Proof.
  unfold Parse. case_bool_decide as Hlen.
  { intros [= <-]. left. by destruct args. }
  intros Hloop. right.
  destruct (Parse_loop_fails σ h (λ _, True) args (λ _ _ _ _ _, I)
              (length args) (Parse_init p) I) as [Hstop _].
  destruct (Hstop e Hloop) as (st & _ & _ & Hbody).
  destruct (Parse_body_error _ _ _ _ _ Hbody) as (arg & Harg & Hdash & ->).
  exists arg. split; [by eapply list_elem_of_lookup_2|done].
Qed.

Lemma Parse_error_forms_witness :
  (["run"; "--fast"; "nginx"] = [] ∧
   UnknownFlagError "--fast" = EmptyInputError) ∨
  (∃ arg, arg ∈ ["run"; "--fast"; "nginx"] ∧ HasPrefix arg "-" = true ∧
          UnknownFlagError "--fast" = UnknownFlagError arg).
Proof.
  apply (Parse_error_forms key_order app_heap (Some 1%positive)).
  vm_compute. reflexivity.
Defined.

(** X3: What a successful [Parse] leaves in [Positionals], [Args] and
    [Command]: [Args] is [Positionals]; both [Positionals] and
    [Command] keep the order of the input; no positional starts with a
    dash; and no token of the input is used twice among the two. *)
Theorem Parse_positionals_in_order (σ : schedule) (h : heap) (p : ptr)
    (args : list string) (r : Result.t) :
  Parse σ h p args = Ret r →
  Result.Args r = Result.Positionals r ∧
  sublist (Result.Positionals r) args ∧
  sublist (Result.Command r) args ∧
  Forall (λ arg, HasPrefix arg "-" = false) (Result.Positionals r) ∧
  Result.Command r ++ Result.Positionals r ⊆+ args.
Proof.
  unfold Parse. case_bool_decide as Hlen; [done|]. intros Hloop.
  destruct (Parse_loop_invariant σ h
    (λ st, i st ≤ length args ∧
           sublist (Result.Positionals (result st)) (take (i st) args) ∧
           sublist (Result.Command (result st)) (take (i st) args) ∧
           Forall (λ arg, HasPrefix arg "-" = false)
                  (Result.Positionals (result st)) ∧
           Result.Command (result st) ++ Result.Positionals (result st)
             ⊆+ take (i st) args) args) with (fuel := length args)
      (st := Parse_init p) (r := r)
    as (st & (Hi & Hpos & Hcmd & Hdash & Hsub) & Hend & ->); [| |done|].
  - clear. intros st st' (Hi & Hpos & Hcmd & Hdash & Hsub) Hlt Hbody.
    assert (∀ n, i st ≤ n → sublist (take (i st) args) (take n args))
      as Hgrow.
    { intros n Hn. replace (take (i st) args)
        with (take (i st) (take n args)) by (rewrite take_take; f_equal; lia).
      apply sublist_take. }
    destruct (Parse_body_inv _ _ _ _ _ Hbody)
      as (arg & node & Harg & Hnode & Hcases).
    pose proof (lookup_lt_Some _ _ _ Harg) as Hlt'.
    assert (take (i st + 1) args = take (i st) args ++ [arg]) as Hsnoc.
    { rewrite Nat.add_1_r. by apply take_S_r. }
    destruct Hcases as [(cmd & _ & ->)|[(_ & Hnd & ->)|[(_ & _ & ? & _ & _ & ->)
                       |(_ & _ & ? & v & c & _ & _ & Hc & ->)]]]; simpl.
    + rewrite Hsnoc. split_and!; [lia| | |done|].
      * by apply sublist_inserts_r.
      * by apply sublist_app.
      * rewrite <- app_assoc, (Permutation_app_comm [arg]), app_assoc.
        by apply submseteq_app.
    + rewrite Hsnoc. split_and!; [lia| | | |].
      * by apply sublist_app.
      * by apply sublist_inserts_r.
      * apply Forall_app. split; [done|]. by constructor.
      * rewrite app_assoc. by apply submseteq_app.
    + rewrite Hsnoc. split_and!; [lia| | |done|].
      * by apply sublist_inserts_r.
      * by apply sublist_inserts_r.
      * by apply submseteq_inserts_r.
    + assert (i st + c ≤ length args).
      { destruct Hc as [->|[-> Hv%lookup_lt_Some]]; lia. }
      assert (i st ≤ i st + c) as Hle by lia.
      split_and!; [done| | |done|].
      * etrans; [done|]. by apply Hgrow.
      * etrans; [done|]. by apply Hgrow.
      * etrans; [done|]. apply sublist_submseteq. by apply Hgrow.
  - simpl. split_and!; [lia|apply sublist_nil_l|apply sublist_nil_l|done|].
    apply submseteq_nil_l.
  - rewrite take_ge in Hpos, Hcmd, Hsub by done. by simpl.
Qed.

Lemma Parse_readme_result :
  Parse key_order app_heap (Some 1%positive) readme_args = Ret readme_result.
Proof. vm_compute. reflexivity. Qed.

Lemma Parse_positionals_in_order_witness :
  Result.Args readme_result = Result.Positionals readme_result ∧
  sublist (Result.Positionals readme_result) readme_args ∧
  sublist (Result.Command readme_result) readme_args ∧
  Forall (λ arg, HasPrefix arg "-" = false) (Result.Positionals readme_result) ∧
  Result.Command readme_result ++ Result.Positionals readme_result
    ⊆+ readme_args.
Proof.
  exact (Parse_positionals_in_order key_order app_heap (Some 1%positive)
           readme_args readme_result Parse_readme_result).
Defined.

(** X4: [Flags] never holds [false]: after a successful [Parse] every key
    of [Flags] maps to [true], so the accessor [Flag] tells exactly
    which keys are there. *)
Theorem Parse_flags_hold_true (σ : schedule) (h : heap) (p : ptr)
    (args : list string) (r : Result.t) (name : string) :
  Parse σ h p args = Ret r →
  (∀ v, Result.Flags r !! name = Some v → v = true) ∧
  (Result.Flag r name = true ↔ is_Some (Result.Flags r !! name)).
Proof.
  unfold Parse. case_bool_decide as Hlen; [done|]. intros Hloop.
  destruct (Parse_loop_invariant σ h
    (λ st, ∀ k v, Result.Flags (result st) !! k = Some v → v = true) args)
    with (fuel := length args) (st := Parse_init p) (r := r)
    as (st & Htrue & _ & ->); [| |done|].
  - clear. intros st st' Htrue _ Hbody.
    destruct (Parse_body_inv _ _ _ _ _ Hbody)
      as (arg & node & _ & _ & Hcases).
    destruct Hcases as [(cmd & _ & ->)|[(_ & _ & ->)|[(_ & _ & flag & _ & _ & ->)
                       |(_ & _ & ? & ? & ? & _ & _ & _ & ->)]]]; simpl;
      try done.
    intros k v. destruct (decide (flagDef.name flag = k)) as [<-|Hne].
    + rewrite lookup_insert_eq. by intros [= <-].
    + rewrite lookup_insert_ne by done. apply Htrue.
  - simpl. intros k v. by rewrite lookup_empty.
  - split; [apply Htrue|]. unfold Result.Flag. simpl.
    destruct (Result.Flags (result st) !! name) as [v|] eqn:Hv.
    + rewrite (Htrue _ _ Hv). split; [by eexists|done].
    + split; [done|]. by intros [? ?].
Qed.

Lemma Parse_flags_hold_true_witness :
  (∀ v, Result.Flags readme_result !! "detach" = Some v → v = true) ∧
  (Result.Flag readme_result "detach" = true ↔
   is_Some (Result.Flags readme_result !! "detach")).
Proof.
  exact (Parse_flags_hold_true key_order app_heap (Some 1%positive)
           readme_args readme_result "detach" Parse_readme_result).
Defined.

(** X5: Every key a successful [Parse] leaves in [Flags] is the name of a
    flag declared at a node of the tree that matches a token of the
    input, and every key of [Options] is the name of a declared option
    that a token of the input reads as. *)
Theorem Parse_keys_declared (σ : schedule) (h : heap) (p : ptr)
    (args : list string) (r : Result.t) (name : string) :
  legal σ →
  Parse σ h p args = Ret r →
  (is_Some (Result.Flags r !! name) →
   ∃ l node k flag arg,
     h !! l = Some node ∧ Parser.flags node !! k = Some flag ∧
     flagDef.name flag = name ∧ arg ∈ args ∧ flag_matches arg flag = true) ∧
  (is_Some (Result.Options r !! name) →
   ∃ l node k opt arg,
     h !! l = Some node ∧ Parser.options node !! k = Some opt ∧
     optionDef.name opt = name ∧ arg ∈ args ∧ reads_as arg opt = true).
Proof.
  intros Hσ. unfold Parse. case_bool_decide as Hlen; [done|]. intros Hloop.
  destruct (Parse_loop_invariant σ h
    (λ st,
       (∀ name, is_Some (Result.Flags (result st) !! name) →
          ∃ l node k flag arg,
            h !! l = Some node ∧ Parser.flags node !! k = Some flag ∧
            flagDef.name flag = name ∧ arg ∈ args ∧
            flag_matches arg flag = true) ∧
       (∀ name, is_Some (Result.Options (result st) !! name) →
          ∃ l node k opt arg,
            h !! l = Some node ∧ Parser.options node !! k = Some opt ∧
            optionDef.name opt = name ∧ arg ∈ args ∧
            reads_as arg opt = true)) args)
    with (fuel := length args) (st := Parse_init p) (r := r)
    as (st & [Hflags Hopts] & _ & ->); [| |done|].
  - clear -Hσ. intros st st' [Hflags Hopts] _ Hbody.
    destruct (Parse_body_inv _ _ _ _ _ Hbody)
      as (arg & node & Harg & Hnode & Hcases).
    apply list_elem_of_lookup_2 in Harg.
    unfold deref in Hnode. destruct (current st) as [l|]; [|done].
    destruct (h !! l) as [n|] eqn:Hl; [|done]. injection Hnode as ->.
    destruct Hcases as [(cmd & _ & ->)|[(_ & _ & ->)
                       |[(_ & _ & flag & Hin & Hm & ->)
                       |(_ & _ & opt & v & c & Hin & Hr & _ & ->)]]]; simpl;
      try done.
    + split; [|done]. intros nm.
      destruct (decide (flagDef.name flag = nm)) as [<-|Hne].
      * intros _. apply elem_of_flag_order in Hin as [k Hk]; [|done].
        by exists l, node, k, flag, arg.
      * rewrite lookup_insert_ne by done. apply Hflags.
    + split; [done|]. intros nm.
      destruct (decide (optionDef.name opt = nm)) as [<-|Hne].
      * intros _. apply elem_of_option_order in Hin as [k Hk]; [|done].
        by exists l, node, k, opt, arg.
      * rewrite lookup_insert_ne by done. apply Hopts.
  - simpl. split; intros nm; rewrite lookup_empty; by intros [? ?].
  - simpl. split; [apply Hflags|apply Hopts].
Qed.

Lemma Parse_keys_declared_witness :
  (is_Some (Result.Flags readme_result !! "name") →
   ∃ l node k flag arg,
     app_heap !! l = Some node ∧ Parser.flags node !! k = Some flag ∧
     flagDef.name flag = "name" ∧ arg ∈ readme_args ∧
     flag_matches arg flag = true) ∧
  (is_Some (Result.Options readme_result !! "name") →
   ∃ l node k opt arg,
     app_heap !! l = Some node ∧ Parser.options node !! k = Some opt ∧
     optionDef.name opt = "name" ∧ arg ∈ readme_args ∧
     reads_as arg opt = true).
Proof.
  exact (Parse_keys_declared key_order app_heap (Some 1%positive)
           readme_args readme_result "name" legal_key_order
           Parse_readme_result).
Defined.

(** X6: The token [-] alone is never a positional, a flag or an option: at
    whatever node the loop meets it, unless a child of that node is
    called [-], [Parse] fails with the unknown-flag error. *)
Theorem Parse_lone_dash (σ : schedule) (h : heap) (p : ptr)
    (args : list string) (st : state) (node : Parser.t) :
  visits σ h args (Parse_init p) st →
  args !! i st = Some "-" →
  deref h (current st) = Ret node →
  Parser.commands node !! "-" = None →
  Parse σ h p args = Err (UnknownFlagError "-").
Proof.
  intros Hv Harg Hnode Hcmd.
  eapply Parse_stops; [done|by eapply lookup_lt_Some|].
  unfold Parse_body. rewrite Harg, Hnode. cbn [mbind outcome_bind].
  rewrite Hcmd.
  assert (∀ s, bool_decide (s ≠ "") && bool_decide ("-" = "-" +:+ s) = false)
    as Hshort.
  { intros [|c s]; [done|]. rewrite andb_false_iff. right.
    by apply bool_decide_eq_false_2. }
  rewrite parseFlag_declined, parseOption_declined; [done| |].
  - apply Forall_forall. intros opt _. unfold declined, inline_long,
      inline_short, bare. split_and!.
    + done.
    + destruct (optionDef.short opt); [done|]. by rewrite andb_false_r.
    + left. by rewrite Hshort.
  - apply Forall_forall. intros flag _. unfold flag_matches.
    by rewrite Hshort.
Qed.

Lemma Parse_lone_dash_witness :
  Parse key_order app_heap (Some 1%positive) ["run"; "-"] =
    Err (UnknownFlagError "-").
Proof.
  apply (Parse_lone_dash key_order app_heap (Some 1%positive) ["run"; "-"]
           (mkState (Result.mk ["run"] ∅ ∅ [] []) (Some 2%positive) 1)
           run_node).
  - eapply visits_pass; [simpl; lia|vm_compute; reflexivity|apply visits_here].
  - reflexivity.
  - exact app_heap_run.
  - reflexivity.
Defined.

(** ** The builder *)

(** The nodes of a store are nodes that [New] made: their three maps are
    allocated, so that an assignment to an entry of one of them cannot
    panic. *)

(** X7: [Flag] on the nil parser panics.  On an allocated node it returns
    its receiver and files the definition under its name; the other
    flags of the node, its other fields and the other nodes stay as
    they were. *)
Theorem Flag_registers (l : loc) (node : Parser.t) (name short help : string)
    (h : heap) :
  h !! l = Some node →
  Flag nil name short help h = Panic ∧
  ∃ h' node',
    Flag (Some l) name short help h = Ret (Some l, h') ∧
    h' !! l = Some node' ∧
    Parser.flags node' !! name = Some (flagDef.mk name short help) ∧
    (∀ k, k ≠ name → Parser.flags node' !! k = Parser.flags node !! k) ∧
    set_flags node' (Parser.flags node) = node ∧
    (∀ l', l' ≠ l → h' !! l' = h !! l').
Proof.
  intros Hl. split; [done|]. unfold Flag, update. rewrite Hl.
  eexists _, _. split; [reflexivity|]. split_and!.
  - apply lookup_insert_eq.
  - simpl. apply lookup_insert_eq.
  - intros k Hk. simpl. by rewrite lookup_insert_ne.
  - by destruct node.
  - intros l' Hl'. by rewrite lookup_insert_ne.
Qed.

Lemma Flag_registers_witness :
  Flag nil "quiet" "q" "Say less" app_heap = Panic ∧
  ∃ h' node',
    Flag (Some 2%positive) "quiet" "q" "Say less" app_heap
      = Ret (Some 2%positive, h') ∧
    h' !! 2%positive = Some node' ∧
    Parser.flags node' !! "quiet" = Some (flagDef.mk "quiet" "q" "Say less") ∧
    (∀ k, k ≠ "quiet" → Parser.flags node' !! k = Parser.flags run_node !! k) ∧
    set_flags node' (Parser.flags run_node) = run_node ∧
    (∀ l', l' ≠ 2%positive → h' !! l' = app_heap !! l').
Proof.
  apply (Flag_registers 2%positive run_node "quiet" "q" "Say less" app_heap).
  vm_compute. reflexivity.
Defined.

(** X8: [Option] on the nil parser panics.  On an allocated node it returns
    its receiver and files the definition, choices included, under its
    name; the other options of the node, its other fields and the other
    nodes stay as they were. *)
Theorem Option_registers (l : loc) (node : Parser.t)
    (name short help : string) (choices : list string) (h : heap) :
  h !! l = Some node →
  Option nil name short help choices h = Panic ∧
  ∃ h' node',
    Option (Some l) name short help choices h = Ret (Some l, h') ∧
    h' !! l = Some node' ∧
    Parser.options node' !! name
      = Some (optionDef.mk name short help choices) ∧
    (∀ k, k ≠ name → Parser.options node' !! k = Parser.options node !! k) ∧
    set_options node' (Parser.options node) = node ∧
    (∀ l', l' ≠ l → h' !! l' = h !! l').
Proof.
  intros Hl. split; [done|]. unfold Option, update. rewrite Hl.
  eexists _, _. split; [reflexivity|]. split_and!.
  - apply lookup_insert_eq.
  - simpl. apply lookup_insert_eq.
  - intros k Hk. simpl. by rewrite lookup_insert_ne.
  - by destruct node.
  - intros l' Hl'. by rewrite lookup_insert_ne.
Qed.

Lemma Option_registers_witness :
  Option nil "format" "f" "Output format" ["json"; "text"] app_heap = Panic ∧
  ∃ h' node',
    Option (Some 2%positive) "format" "f" "Output format" ["json"; "text"]
           app_heap = Ret (Some 2%positive, h') ∧
    h' !! 2%positive = Some node' ∧
    Parser.options node' !! "format"
      = Some (optionDef.mk "format" "f" "Output format" ["json"; "text"]) ∧
    (∀ k, k ≠ "format" →
          Parser.options node' !! k = Parser.options run_node !! k) ∧
    set_options node' (Parser.options run_node) = run_node ∧
    (∀ l', l' ≠ 2%positive → h' !! l' = app_heap !! l').
Proof.
  apply (Option_registers 2%positive run_node "format" "f" "Output format"
           ["json"; "text"] app_heap).
  vm_compute. reflexivity.
Defined.

(** X9: Registering a flag twice under one name leaves what the second call
    alone leaves, and flags of different names can be registered in
    either order. *)
Theorem Flag_last_wins (l : loc) (node : Parser.t) (h : heap)
    (name short1 help1 short2 help2 other short3 help3 : string) :
  h !! l = Some node →
  ('(p, h1) ← Flag (Some l) name short1 help1 h; Flag p name short2 help2 h1)
    = Flag (Some l) name short2 help2 h ∧
  (name ≠ other →
   ('(p, h1) ← Flag (Some l) name short1 help1 h; Flag p other short3 help3 h1)
   = ('(p, h1) ← Flag (Some l) other short3 help3 h;
      Flag p name short1 help1 h1)).
Proof.
  intros Hl. unfold Flag, update. rewrite Hl. cbn [mbind outcome_bind].
  rewrite !lookup_insert_eq. cbn [mbind outcome_bind].
  rewrite !insert_insert_eq. simpl. rewrite insert_insert_eq.
  split; [done|]. intros Hne. by rewrite (insert_insert_ne _ name other).
Qed.

Lemma Flag_last_wins_witness :
  ('(p, h1) ← Flag (Some 1%positive) "verbose" "v" "Old" app_heap;
   Flag p "verbose" "V" "New" h1)
    = Flag (Some 1%positive) "verbose" "V" "New" app_heap ∧
  ("verbose" ≠ "quiet" →
   ('(p, h1) ← Flag (Some 1%positive) "verbose" "v" "Old" app_heap;
    Flag p "quiet" "q" "Say less" h1)
   = ('(p, h1) ← Flag (Some 1%positive) "quiet" "q" "Say less" app_heap;
      Flag p "verbose" "v" "Old" h1)).
Proof.
  apply (Flag_last_wins 1%positive app_node app_heap).
  vm_compute. reflexivity.
Defined.

(** What [Command] does to the store. *)
Lemma Command_links_aux (l : loc) (pnode : Parser.t) (name help : string)
    (h : heap) :
  h !! l = Some pnode →
  ∃ c h',
    Command (Some l) name help h = Ret (Some c, h') ∧
    h !! c = None ∧
    h' !! c = Some (Parser.mk name help ∅ ∅ ∅ (Some l) None []) ∧
    h' !! l = Some (set_commands pnode
                      (<[name := c]> (Parser.commands pnode))) ∧
    (∀ l', l' ≠ l → l' ≠ c → h' !! l' = h !! l').
Proof.
  intros Hl. unfold Command.
  destruct (New name h) as [c h0] eqn:Hnew.
  apply New_fresh in Hnew as [Hc ->].
  assert (c ≠ l) as Hne by (intros ->; congruence).
  unfold update. rewrite lookup_insert_eq. cbn [mbind outcome_bind].
  rewrite lookup_insert_eq. cbn [mbind outcome_bind].
  rewrite !insert_insert_eq. rewrite lookup_insert_ne, Hl by done.
  cbn [mbind outcome_bind]. eexists c, _. split; [reflexivity|].
  split_and!; [done| | |].
  - rewrite lookup_insert_ne by done. by rewrite lookup_insert_eq.
  - by rewrite lookup_insert_eq.
  - intros l' Hl' Hc'. by rewrite !lookup_insert_ne.
Qed.


(** X10: [Command] allocates a node that was not there, named [name] and
    described by [help], with no flags, options, children or handler
    and with the receiver as its parent; files it under [name] in the
    receiver, whose other fields stay; touches no other node; and
    returns the child, not the receiver. *)
Theorem Command_links (l : loc) (pnode : Parser.t) (name help : string)
    (h : heap) :
  h !! l = Some pnode →
  ∃ c h',
    Command (Some l) name help h = Ret (Some c, h') ∧
    h !! c = None ∧
    h' !! c = Some (Parser.mk name help ∅ ∅ ∅ (Some l) None []) ∧
    h' !! l = Some (set_commands pnode
                      (<[name := c]> (Parser.commands pnode))) ∧
    (∀ l', l' ≠ l → l' ≠ c → h' !! l' = h !! l').
Proof. apply Command_links_aux. Qed.

Lemma Command_links_witness :
  ∃ c h',
    Command (Some 2%positive) "logs" "Show logs" app_heap = Ret (Some c, h') ∧
    app_heap !! c = None ∧
    h' !! c = Some (Parser.mk "logs" "Show logs" ∅ ∅ ∅ (Some 2%positive)
                              None []) ∧
    h' !! 2%positive
      = Some (set_commands run_node
                (<["logs" := c]> (Parser.commands run_node))) ∧
    (∀ l', l' ≠ 2%positive → l' ≠ c → h' !! l' = app_heap !! l').
Proof.
  apply (Command_links 2%positive run_node "logs" "Show logs" app_heap).
  vm_compute. reflexivity.
Defined.

(** X11: A child registered with [Command] is reached by its name, whatever
    the name is: [Parse] of that one token at the receiver returns the
    name as the command path and nothing else, and the walk of [Run]
    along that path ends at the child. *)
Theorem Command_then_Parse (σ : schedule) (l : loc) (pnode : Parser.t)
    (name help : string) (h h' : heap) (child : ptr) :
  h !! l = Some pnode →
  Command (Some l) name help h = Ret (child, h') →
  Parse σ h' (Some l) [name] = Ret (Result.mk [name] ∅ ∅ [] []) ∧
  Run_walk h' (Some l) [name] = Ret child.
Proof.
  intros Hl Hcmd.
  destruct (Command_links_aux l pnode name help h Hl)
    as (c & h'' & Heq & _ & _ & Hl' & _).
  rewrite Heq in Hcmd. injection Hcmd as <- <-.
  assert (Parser.commands
            (set_commands pnode (<[name := c]> (Parser.commands pnode)))
            !! name = Some c) as Hchild by apply lookup_insert_eq.
  split.
  - unfold Parse. rewrite bool_decide_eq_false_2 by done.
    change (length [name]) with 1.
    rewrite Parse_loop_unfold by (simpl; lia).
    unfold Parse_body, Parse_init, deref. cbn [i current result].
    change ([name] !! 0) with (Some name). rewrite Hl'.
    cbn [mbind outcome_bind]. rewrite Hchild.
    cbn [mbind outcome_bind]. by rewrite Parse_loop_exit by (simpl; lia).
  - unfold Run_walk, deref. rewrite Hl'. cbn [mbind outcome_bind].
    by rewrite Hchild.
Qed.

Lemma Command_then_Parse_witness :
  Parse key_order git_heap (Some 2%positive) ["-v"]
    = Ret (Result.mk ["-v"] ∅ ∅ [] []) ∧
  Run_walk git_heap (Some 2%positive) ["-v"] = Ret (Some 3%positive).
Proof.
  apply (Command_then_Parse key_order 2%positive
           (Parser.mk "remote" "Manage remotes" ∅ ∅ ∅ (Some 1%positive)
                      None [])
           "-v" "List remotes with their URLs"
           {[1%positive := git_node;
             2%positive := Parser.mk "remote" "Manage remotes" ∅ ∅ ∅
                             (Some 1%positive) None []]}).
  - vm_compute. reflexivity.
  - vm_compute. reflexivity.
Defined.

(** X12: Every builder method, called on an allocated node of a well-formed
    store, returns (the receiver, or the new child for [Command]) and
    leaves a well-formed store; so does [New]. *)
Theorem builder_keeps_wf (h : heap) (l : loc) :
  wf h →
  is_Some (h !! l) →
  (∀ name, wf (New name h).2) ∧
  (∀ name short help,
     ∃ h', Flag (Some l) name short help h = Ret (Some l, h') ∧ wf h') ∧
  (∀ name short help choices,
     ∃ h', Option (Some l) name short help choices h = Ret (Some l, h') ∧
           wf h') ∧
  (∀ name help,
     ∃ c h', Command (Some l) name help h = Ret (Some c, h') ∧ wf h') ∧
  (∀ fn, ∃ h', Action (Some l) fn h = Ret (Some l, h') ∧ wf h') ∧
  (∀ name, ∃ h', Positional (Some l) name h = Ret (Some l, h') ∧ wf h').
Proof.
  intros Hwf [node Hl]. split_and!.
  - intros name. destruct (New name h) as [c h'] eqn:Hnew.
    by destruct (New_wf _ _ _ _ Hwf Hnew).
  - intros name short help.
    destruct (Flag (Some l) name short help h) as [[p' h']| | |] eqn:Heq;
      try (unfold Flag, update in Heq; by rewrite Hl in Heq).
    destruct (Flag_wf _ _ _ _ _ _ _ Hwf Heq) as [? ->]. by exists h'.
  - intros name short help choices.
    destruct (Option (Some l) name short help choices h)
      as [[p' h']| | |] eqn:Heq;
      try (unfold Option, update in Heq; by rewrite Hl in Heq).
    destruct (Option_wf _ _ _ _ _ _ _ _ Hwf Heq) as [? ->]. by exists h'.
  - intros name help.
    destruct (Command_links_aux l node name help h Hl)
      as (c & h' & Heq & _).
    exists c, h'. split; [done|].
    by destruct (Command_wf _ _ _ _ _ _ _ Hwf Hl Heq).
  - intros fn.
    destruct (Action (Some l) fn h) as [[p' h']| | |] eqn:Heq;
      try (unfold Action, update in Heq; by rewrite Hl in Heq).
    destruct (Action_wf _ _ _ _ _ Hwf Heq) as [? ->]. by exists h'.
  - intros name.
    destruct (Positional (Some l) name h) as [[p' h']| | |] eqn:Heq;
      try (unfold Positional, update in Heq; by rewrite Hl in Heq).
    destruct (Positional_wf _ _ _ _ _ Hwf Heq) as [? ->]. by exists h'.
Qed.

Lemma builder_keeps_wf_witness :
  (∀ name, wf (New name (New "app" ∅).2).2) ∧
  (∀ name short help,
     ∃ h', Flag (Some 1%positive) name short help (New "app" ∅).2
             = Ret (Some 1%positive, h') ∧ wf h') ∧
  (∀ name short help choices,
     ∃ h', Option (Some 1%positive) name short help choices (New "app" ∅).2
             = Ret (Some 1%positive, h') ∧ wf h') ∧
  (∀ name help,
     ∃ c h', Command (Some 1%positive) name help (New "app" ∅).2
               = Ret (Some c, h') ∧ wf h') ∧
  (∀ fn, ∃ h', Action (Some 1%positive) fn (New "app" ∅).2
                 = Ret (Some 1%positive, h') ∧ wf h') ∧
  (∀ name, ∃ h', Positional (Some 1%positive) name (New "app" ∅).2
                   = Ret (Some 1%positive, h') ∧ wf h').
Proof.
  apply (builder_keeps_wf (New "app" ∅).2 1%positive).
  - by destruct (New_wf "app" ∅ (New "app" ∅).2 1%positive wf_empty).
  - vm_compute. eauto.
Defined.

(** ** Registering, then parsing *)

Section single_token.
Context (σ : schedule) (h : heap).

(** [Parse] of one token that the first pass consumes alone. *)
Lemma Parse_single (p : ptr) (arg : string) (r : Result.t) (q : ptr) :
  Parse_body σ h [arg] (Parse_init p) = Ret (mkState r q 1) →
  Parse σ h p [arg] = Ret (set_Args r).
Proof.
  intros Hbody. unfold Parse. rewrite bool_decide_eq_false_2 by done.
  change (length [arg]) with 1.
  rewrite Parse_loop_unfold by (simpl; lia). rewrite Hbody.
  cbn [mbind outcome_bind]. by rewrite Parse_loop_exit by (simpl; lia).
Qed.
End single_token.

(** X13: A flag just registered is set by its own tokens: after [Flag], the
    token [--name], or [-short] for a non-empty alias, parsed alone at
    that node, gives a result with that one flag set, provided the
    token is not the name of a child of the node and no flag of another
    name that the node already had matches it. *)
Theorem Flag_then_Parse (σ : schedule) (h : heap) (l : loc) (node : Parser.t)
    (name short help arg : string) :
  legal σ →
  h !! l = Some node →
  flag_matches arg (flagDef.mk name short help) = true →
  Parser.commands node !! arg = None →
  (∀ k flag, Parser.flags node !! k = Some flag →
             flag_matches arg flag = true → flagDef.name flag = name) →
  ∃ h', Flag (Some l) name short help h = Ret (Some l, h') ∧
        Parse σ h' (Some l) [arg] =
          Ret (Result.mk [] {[name := true]} ∅ [] []).
Proof.
  intros Hσ Hl Hm Hcmd Huniq. unfold Flag, update. rewrite Hl.
  set (node' := set_flags node (<[name := flagDef.mk name short help]>
                                  (Parser.flags node))).
  exists (<[l := node']> h). split; [done|].
  assert (deref (<[l := node']> h) (current (Parse_init (Some l)))
          = Ret node') as Hnode.
  { simpl. by rewrite lookup_insert_eq. }
  rewrite (Parse_single σ _ (Some l) arg
             (set_Flags (result (Parse_init (Some l))) name) (Some l)).
  { simpl. unfold set_Args, set_Flags. simpl. by rewrite insert_empty. }
  apply (Parse_body_flag σ _ Hσ [arg] (Parse_init (Some l)) arg node'
           eq_refl Hnode Hcmd name (flagDef.mk name short help)).
  - apply lookup_insert_eq.
  - done.
  - simpl. intros k flag. destruct (decide (name = k)) as [<-|Hne].
    + rewrite lookup_insert_eq. by intros [= <-].
    + rewrite lookup_insert_ne by done. apply Huniq.
Qed.

Lemma Flag_then_Parse_witness :
  ∃ h', Flag (Some 2%positive) "quiet" "q" "Say less" app_heap
          = Ret (Some 2%positive, h') ∧
        Parse key_order h' (Some 2%positive) ["-q"] =
          Ret (Result.mk [] {["quiet" := true]} ∅ [] []).
Proof.
  apply (Flag_then_Parse key_order app_heap 2%positive run_node
           "quiet" "q" "Say less" "-q" legal_key_order).
  - vm_compute. reflexivity.
  - vm_compute. reflexivity.
  - vm_compute. reflexivity.
  - intros k flag Hk. in_range Hk.
Defined.

(** X14: An option just registered takes its inline value: after [Option],
    the token [--name=value] parsed alone at that node stores exactly
    [value], whatever it is, provided the token is not the name of a
    child of the node, matches no flag of it, and reads as no option of
    another name that the node already had. *)
Theorem Option_then_Parse (σ : schedule) (h : heap) (l : loc)
    (node : Parser.t) (name short help value : string)
    (choices : list string) :
  legal σ →
  h !! l = Some node →
  Parser.commands node !! ("--" +:+ name +:+ "=" +:+ value) = None →
  (∀ k flag, Parser.flags node !! k = Some flag →
             flag_matches ("--" +:+ name +:+ "=" +:+ value) flag = false) →
  (∀ k opt, Parser.options node !! k = Some opt → k ≠ name →
            reads_as ("--" +:+ name +:+ "=" +:+ value) opt = false) →
  ∃ h', Option (Some l) name short help choices h = Ret (Some l, h') ∧
        Parse σ h' (Some l) ["--" +:+ name +:+ "=" +:+ value] =
          Ret (Result.mk [] ∅ {[name := value]} [] []).
Proof.
  intros Hσ Hl Hcmd Hflags Huniq. unfold Option, update. rewrite Hl.
  set (arg := "--" +:+ name +:+ "=" +:+ value) in *.
  set (opt := optionDef.mk name short help choices).
  set (node' := set_options node (<[name := opt]> (Parser.options node))).
  exists (<[l := node']> h). split; [done|].
  assert (deref (<[l := node']> h) (current (Parse_init (Some l)))
          = Ret node') as Hnode.
  { simpl. by rewrite lookup_insert_eq. }
  assert (arg = ("--" +:+ optionDef.name opt +:+ "=") +:+ value) as Harg.
  { unfold arg. simpl. by rewrite !app_assoc_string. }
  assert (inline_long arg opt = true) as Hm.
  { unfold inline_long. rewrite Harg. apply HasPrefix_app. }
  rewrite (Parse_single σ _ (Some l) arg
             (set_Options (result (Parse_init (Some l))) name value) (Some l)).
  { simpl. unfold set_Args, set_Options. simpl. rewrite insert_empty.
    reflexivity. }
  rewrite (Parse_body_inline_long σ _ Hσ [arg] (Parse_init (Some l)) arg node'
             eq_refl Hnode Hcmd Hflags name opt); [| | |exact Hm].
  - rewrite Harg. by rewrite slice_from_app.
  - apply lookup_insert_eq.
  - simpl. intros k opt'. destruct (decide (name = k)) as [<-|Hne].
    + rewrite lookup_insert_eq. by intros [= <-].
    + rewrite lookup_insert_ne by done. intros Hk Hr.
      by rewrite (Huniq k opt' Hk) in Hr.
Qed.

Lemma Option_then_Parse_witness :
  ∃ h', Option (Some 2%positive) "env" "e" "Environment" [] app_heap
          = Ret (Some 2%positive, h') ∧
        Parse key_order h' (Some 2%positive)
              ["--" +:+ "env" +:+ "=" +:+ "A=b c"] =
          Ret (Result.mk [] ∅ {["env" := "A=b c"]} [] []).
Proof.
  apply (Option_then_Parse key_order app_heap 2%positive run_node
           "env" "e" "Environment" "A=b c" [] legal_key_order).
  - vm_compute. reflexivity.
  - vm_compute. reflexivity.
  - intros k flag Hk. in_range Hk.
  - intros k opt Hk Hne. in_range Hk.
Defined.

(** ** What [Parse] does not read *)

Section same_grammar_facts.
Context (σ : schedule) (h h' : heap) (Hsame : same_grammar h h').

Lemma Parse_body_same_grammar (args : list string) (st : state) :
  Parse_body σ h args st = Parse_body σ h' args st.
Proof.
  unfold Parse_body. destruct (args !! i st) as [arg|]; [|done].
  unfold deref. destruct (current st) as [l|]; [|done].
  destruct (Hsame l) as [n n' (Hf & Ho & Hc)|]; [|done].
  cbn [mbind outcome_bind]. by rewrite Hf, Ho, Hc.
Qed.

Lemma Parse_loop_same_grammar (args : list string) (fuel : nat) (st : state) :
  Parse_loop σ h fuel args st = Parse_loop σ h' fuel args st.
Proof.
  revert st. induction fuel as [|fuel IH]; intros st; simpl; [done|].
  case_bool_decide; [|done]. rewrite Parse_body_same_grammar.
  destruct (Parse_body σ h' args st); cbn [mbind outcome_bind]; auto.
Qed.
End same_grammar_facts.

Lemma update_same_grammar (p : ptr) (f : Parser.t → Parser.t) (h h' : heap) :
  (∀ n, Parser.flags (f n) = Parser.flags n ∧
        Parser.options (f n) = Parser.options n ∧
        Parser.commands (f n) = Parser.commands n) →
  update p f h = Ret h' → same_grammar h' h.
Proof.
  intros Hf (l & node & -> & Hl & ->)%update_inv l'.
  destruct (decide (l = l')) as [<-|Hne].
  - rewrite lookup_insert_eq, Hl. constructor. apply Hf.
  - rewrite lookup_insert_ne by done.
    destruct (h !! l'); by constructor.
Qed.

(** X15: [Parse] reads nothing of a node but its flags, options and
    children: on two trees that differ only in names, descriptions,
    parents, handlers and declared positionals it returns the same. *)
Theorem Parse_ignores_metadata (σ : schedule) (h h' : heap) (p : ptr)
    (args : list string) :
  same_grammar h h' →
  Parse σ h p args = Parse σ h' p args.
Proof.
  intros Hsame. unfold Parse. case_bool_decide; [done|].
  by apply Parse_loop_same_grammar.
Qed.

Lemma Parse_ignores_metadata_witness :
  Parse key_order app_heap (Some 1%positive) readme_args =
  Parse key_order
    (<[2%positive := Parser.mk "start" "" (Parser.flags run_node)
                       (Parser.options run_node) (Parser.commands run_node)
                       nil (Some (λ _, mkPrinting ["failed"] (Err "failed")))
                       ["image"]]> app_heap)
    (Some 1%positive) readme_args.
Proof.
  apply (Parse_ignores_metadata key_order app_heap).
  intros l. destruct (decide (2%positive = l)) as [<-|Hne].
  - rewrite lookup_insert_eq. by constructor.
  - rewrite lookup_insert_ne by done. destruct (app_heap !! l); by constructor.
Defined.

(** X16: Declaring positionals, or setting a handler, changes nothing of
    what [Parse] returns: the names given to [Positional] are neither
    counted nor bound. *)
Theorem Positional_keeps_Parse (σ : schedule) (h h' : heap) (p q start : ptr)
    (name : string) (fn : option (Result.t → printing unit))
    (args : list string) :
  Positional p name h = Ret (q, h') ∨ Action p fn h = Ret (q, h') →
  Parse σ h' start args = Parse σ h start args.
Proof.
  intros Hcall. unfold Parse. case_bool_decide; [done|].
  apply Parse_loop_same_grammar.
  destruct Hcall as [Hcall|Hcall]; unfold Positional, Action in Hcall;
    destruct (update p _ h) as [h1| | |] eqn:Hupd;
    cbn [mbind outcome_bind] in Hcall; try done;
    injection Hcall as <- <-;
    (eapply update_same_grammar; [|exact Hupd]; by intros []).
Qed.

Lemma Positional_keeps_Parse_witness :
  Parse key_order
    (<[1%positive := set_positionals app_node ["image"]]> app_heap)
    (Some 1%positive) ["a"; "b"; "c"] =
  Parse key_order app_heap (Some 1%positive) ["a"; "b"; "c"].
Proof.
  apply (Positional_keeps_Parse key_order app_heap _ (Some 1%positive)
           (Some 1%positive) (Some 1%positive) "image" None).
  left. vm_compute. reflexivity.
Defined.

(** ** [parseOption] on its own *)

(** X17: Whatever the order of the range: [parseOption] either declines,
    with [(false, 0)] and the result untouched, or stores one value for
    one option that the token reads as, changing nothing else: the rest
    of the token after [--name=] or [-short=], one token consumed, or
    the next token, two tokens consumed. *)
Theorem parseOption_contract (ol : list optionDef.t) (arg : string)
    (args : list string) (r : Result.t) :
  match parseOption ol arg args r with
  | (false, consumed, r') => consumed = 0 ∧ r' = r
  | (true, consumed, r') =>
      ∃ opt v,
        opt ∈ ol ∧ reads_as arg opt = true ∧
        r' = set_Options r (optionDef.name opt) v ∧
        ((consumed = 1 ∧
          (arg = "--" +:+ optionDef.name opt +:+ "=" +:+ v ∨
           (optionDef.short opt ≠ "" ∧
            arg = "-" +:+ optionDef.short opt +:+ "=" +:+ v))) ∨
         (consumed = 2 ∧ bare arg opt = true ∧ args !! 1 = Some v))
  end.
Proof.
  destruct (parseOption ol arg args r) as [[[] consumed] r'] eqn:Heq.
  - by apply parseOption_reads in Heq.
  - by destruct (parseOption_inv _ _ _ _ _ _ _ Heq) as [(_ & ? & ?)|[? _]].
Qed.

(** ** The order of the collected definitions *)

Section collect_order.
Context {D : Type} (dname : D → string).

(** The range only ever appends. *)
Lemma collect_range_grows (dl defs : list D) (seen : gmap string bool) :
  ∃ new, (collect_range dname dl defs seen).1 = defs ++ new.
Proof.
  revert defs seen. induction dl as [|d dl IH]; intros defs seen; simpl.
  - exists []. by rewrite app_nil_r.
  - destruct (negb (seen_at seen (dname d))); [|apply IH].
    destruct (IH (defs ++ [d]) (<[dname d := true]> seen)) as [new ->].
    exists (d :: new). by rewrite <- app_assoc.
Qed.

(** A range of definitions with different names, none of them seen
    yet, is appended whole and in its order. *)
Lemma collect_range_all (dl defs : list D) (seen : gmap string bool) :
  NoDup (dname <$> dl) →
  Forall (λ d, seen_at seen (dname d) = false) dl →
  (collect_range dname dl defs seen).1 = defs ++ dl.
Proof.
  revert defs seen. induction dl as [|d dl IH]; intros defs seen Hnd Hseen;
    simpl.
  - by rewrite app_nil_r.
  - apply NoDup_cons in Hnd as [Hd Hnd].
    apply Forall_cons in Hseen as [-> Hseen]. simpl.
    rewrite IH, <- app_assoc; [done|done|].
    apply Forall_forall. intros d' Hd'. rewrite Forall_forall in Hseen.
    unfold seen_at. rewrite lookup_insert_ne; [by apply Hseen|].
    intros Heq. apply Hd. rewrite Heq. by apply list_elem_of_fmap_2.
Qed.

Context (h : heap) (field : Parser.t → gmap string D).
Context (order : nat → gmap string D → list D).

Lemma collect_loop_grows (fuel level : nat) (current : ptr) (defs r : list D)
    (seen : gmap string bool) :
  collect_loop dname h field order fuel level current defs seen = Ret r →
  ∃ rest, r = defs ++ rest.
Proof.
  revert level current defs seen.
  induction fuel as [|fuel IH]; intros level current defs seen; simpl.
  - destruct current; [done|]. intros [= <-]. exists []. by rewrite app_nil_r.
  - destruct current as [l|]; [|intros [= <-]; exists []; by rewrite app_nil_r].
    destruct (deref h (Some l)) as [node| | |]; cbn [mbind outcome_bind];
      try done.
    destruct (collect_range_grows (order level (field node)) defs seen)
      as [new Hnew].
    destruct (collect_range dname (order level (field node)) defs seen)
      as [defs1 seen1]. simpl in Hnew. subst defs1.
    intros [rest ->]%IH. exists (new ++ rest). by rewrite app_assoc.
Qed.

(** The names of the definitions of a map in which each is filed under
    its own name are all different. *)
Lemma keyed_map_NoDup (m : gmap string D) (dl : list D) :
  keyed_map dname m → dl ≡ₚ values m → NoDup (dname <$> dl).
Proof.
  intros Hkeyed ->. unfold values. rewrite <- list_fmap_compose.
  rewrite (list_fmap_ext _ fst (map_to_list m) ); [apply NoDup_fst_map_to_list|].
  intros j [k d] Hj. simpl. apply Hkeyed.
  apply elem_of_map_to_list. by eapply list_elem_of_lookup_2.
Qed.

(** The definitions of the starting node come first, all of them, in
    the order of the range. *)
Lemma collect_loop_own_first (fuel : nat) (l : loc) (node : Parser.t)
    (r : list D) :
  h !! l = Some node →
  keyed_map dname (field node) →
  order 0 (field node) ≡ₚ values (field node) →
  collect_loop dname h field order fuel 0 (Some l) [] ∅ = Ret r →
  ∃ inherited, r = order 0 (field node) ++ inherited.
Proof.
  intros Hl Hkeyed Horder. destruct fuel as [|fuel]; simpl; [done|].
  rewrite Hl. cbn [mbind outcome_bind].
  pose proof (collect_range_all (order 0 (field node)) [] ∅) as Hall.
  destruct (collect_range dname (order 0 (field node)) [] ∅)
    as [defs1 seen1]. simpl in Hall. rewrite Hall.
  - apply collect_loop_grows.
  - by eapply keyed_map_NoDup.
  - by apply Forall_forall.
Qed.
End collect_order.

(** X18: In what [collectFlags] and [collectOptions] return, the starting
    node's own definitions come first, all of them and in the order in
    which the range over its map yields them; what is inherited
    follows. *)
Theorem collect_own_first (σ : schedule) (h : heap) (l : loc)
    (node : Parser.t) (c : list (loc * Parser.t)) :
  legal σ →
  h !! l = Some node →
  chain h (Some l) c →
  Forall keyed c.*2 →
  ∃ inherited_flags inherited_options,
    collectFlags σ h (Some l) =
      Ret (flag_order σ 0 (Parser.flags node) ++ inherited_flags) ∧
    collectOptions σ h (Some l) =
      Ret (option_order σ 0 (Parser.options node) ++ inherited_options).
Proof.
  intros [Hf Ho] Hl Hchain Hkeyed.
  pose proof (chain_length _ _ _ Hchain) as Hlen.
  assert (keyed node) as [Hkf Hko].
  { rewrite Forall_forall in Hkeyed. apply Hkeyed.
    inversion Hchain as [|? node' ? Hl']; simplify_eq. by left. }
  destruct (collect_loop_spec flagDef.name h Parser.flags (flag_order σ) Hf
              (Some l) c Hchain (size h) 0 [] ∅ [] Hlen)
    as (flags & Hflags & _).
  { apply Forall_fmap. eapply Forall_impl; [done|]. by intros n [? _]. }
  { apply seen_ok_nil. }
  { constructor. }
  { intros d. split; [by intros ?%elem_of_nil|].
    intros (n & m & Hn & _). by rewrite lookup_nil in Hn. }
  destruct (collect_loop_spec optionDef.name h Parser.options (option_order σ)
              Ho (Some l) c Hchain (size h) 0 [] ∅ [] Hlen)
    as (options & Hoptions & _).
  { apply Forall_fmap. eapply Forall_impl; [done|]. by intros n [_ ?]. }
  { apply seen_ok_nil. }
  { constructor. }
  { intros d. split; [by intros ?%elem_of_nil|].
    intros (n & m & Hn & _). by rewrite lookup_nil in Hn. }
  destruct (collect_loop_own_first flagDef.name h Parser.flags (flag_order σ)
              (size h) l node flags Hl Hkf (Hf 0 _) Hflags) as [fi ->].
  destruct (collect_loop_own_first optionDef.name h Parser.options
              (option_order σ) (size h) l node options Hl Hko (Ho 0 _)
              Hoptions) as [oi ->].
  by exists fi, oi.
Qed.

Lemma collect_own_first_witness :
  ∃ inherited_flags inherited_options,
    collectFlags key_order app_heap (Some 3%positive) =
      Ret (flag_order key_order 0 (Parser.flags exec_node)
           ++ inherited_flags) ∧
    collectOptions key_order app_heap (Some 3%positive) =
      Ret (option_order key_order 0 (Parser.options exec_node)
           ++ inherited_options).
Proof.
  exact (collect_own_first key_order app_heap 3%positive exec_node _
           legal_key_order eq_refl app_heap_chain app_heap_keyed).
Defined.

(** ** [getPath] *)

Lemma Join_snoc (parts : list string) (a sep : string) :
  parts ≠ [] → Join (parts ++ [a]) sep = Join parts sep +:+ sep +:+ a.
Proof.
  induction parts as [|b parts IH]; [done|]. intros _.
  destruct parts as [|b' parts]; [done|].
  change (Join ((b :: b' :: parts) ++ [a]) sep)
    with (b +:+ sep +:+ Join ((b' :: parts) ++ [a]) sep).
  rewrite IH by done.
  change (Join (b :: b' :: parts) sep)
    with (b +:+ sep +:+ Join (b' :: parts) sep).
  by rewrite !app_assoc_string.
Qed.

Lemma path_names_cons (l : loc) (node : Parser.t) (c : list (loc * Parser.t)) :
  path_names ((l, node) :: c) =
    if bool_decide (Parser.name node ≠ "")
    then path_names c ++ [Parser.name node] else path_names c.
Proof.
  unfold path_names. rewrite !fmap_cons, filter_cons. simpl.
  case_bool_decide as Hne; destruct (decide (Parser.name node ≠ ""));
    try done.
  by rewrite reverse_cons.
Qed.

Section getPath_facts.
Context (os_Args : list string) (h : heap).

Lemma getPath_loop_chain (p : ptr) (c : list (loc * Parser.t)) :
  chain h p c →
  ∀ fuel parts,
    length c ≤ fuel →
    getPath_loop h fuel p parts = Ret (path_names c ++ parts).
Proof.
  induction 1 as [|l node c Hl Hchain IH]; intros fuel parts Hfuel.
  - by destruct fuel.
  - destruct fuel as [|fuel]; [simpl in Hfuel; lia|].
    simpl. rewrite Hl. cbn [mbind outcome_bind].
    rewrite IH by (simpl in Hfuel; lia). rewrite path_names_cons.
    case_bool_decide; [|done]. by rewrite <- app_assoc.
Qed.

Lemma getPath_on_chain (p : ptr) (c : list (loc * Parser.t)) :
  chain h p c →
  getPath os_Args h p =
    match path_names c with
    | [] => match os_Args !! 0 with Some arg0 => Ret arg0 | None => Panic end
    | _ :: _ => Ret (Join (path_names c) " ")
    end.
Proof.
  intros Hchain. unfold getPath.
  rewrite (getPath_loop_chain p c Hchain) by by eapply chain_length.
  cbn [mbind outcome_bind]. rewrite app_nil_r.
  by destruct (path_names c).
Qed.
End getPath_facts.

(** X19: On a node whose parents reach the root, [getPath] ends and returns
    the non-empty names from the root down to the node, joined by
    single spaces; when there is none, it returns [os.Args[0]], and
    panics if [os.Args] is empty. *)
Theorem getPath_chain (os_Args : list string) (h : heap) (p : ptr)
    (c : list (loc * Parser.t)) :
  chain h p c →
  getPath os_Args h p =
    match path_names c with
    | [] => match os_Args !! 0 with Some arg0 => Ret arg0 | None => Panic end
    | _ :: _ => Ret (Join (path_names c) " ")
    end.
Proof. apply getPath_on_chain. Qed.

Lemma getPath_chain_witness :
  getPath ["/usr/bin/app"] app_heap (Some 3%positive) =
    match path_names [(3%positive, exec_node); (2%positive, run_node);
                      (1%positive, app_node)] with
    | [] => match ["/usr/bin/app"] !! 0 with
            | Some arg0 => Ret arg0
            | None => Panic
            end
    | _ :: _ =>
        Ret (Join (path_names [(3%positive, exec_node); (2%positive, run_node);
                               (1%positive, app_node)]) " ")
    end.
Proof.
  exact (getPath_chain ["/usr/bin/app"] app_heap (Some 3%positive) _
           app_heap_chain).
Defined.

(** X20: The path of a named child: its parent's path, a space and its own
    name when some ancestor has a name; its own name alone when none
    has, [os.Args[0]] not being put in front. *)
Theorem getPath_child (os_Args : list string) (h : heap) (l : loc)
    (node : Parser.t) (c : list (loc * Parser.t)) :
  h !! l = Some node →
  Parser.name node ≠ "" →
  chain h (Parser.parent node) c →
  (path_names c = [] → getPath os_Args h (Some l) = Ret (Parser.name node)) ∧
  (path_names c ≠ [] →
   ∃ path, getPath os_Args h (Parser.parent node) = Ret path ∧
           getPath os_Args h (Some l) =
             Ret (path +:+ " " +:+ Parser.name node)).
Proof.
  intros Hl Hname Hchain.
  rewrite (getPath_on_chain os_Args h (Some l) ((l, node) :: c))
    by by constructor.
  rewrite (getPath_on_chain os_Args h _ c Hchain).
  rewrite path_names_cons, bool_decide_eq_true_2 by done. split.
  - by intros ->.
  - intros Hne. exists (Join (path_names c) " ").
    destruct (path_names c) as [|a parts] eqn:Hparts; [done|].
    split; [done|]. rewrite <- Join_snoc by done. done.
Qed.

Lemma getPath_child_witness :
  (path_names [(1%positive, app_node)] = [] →
   getPath [] app_heap (Some 2%positive) = Ret (Parser.name run_node)) ∧
  (path_names [(1%positive, app_node)] ≠ [] →
   ∃ path, getPath [] app_heap (Parser.parent run_node) = Ret path ∧
           getPath [] app_heap (Some 2%positive) =
             Ret (path +:+ " " +:+ Parser.name run_node)).
Proof.
  apply (getPath_child [] app_heap 2%positive run_node
           [(1%positive, app_node)]).
  - vm_compute. reflexivity.
  - done.
  - eapply chain_up; [vm_compute; reflexivity|]. apply chain_root.
Defined.

(** ** [Usage] *)

Lemma length_append (s t : string) :
  String.length (s +:+ t) = String.length s + String.length t.
Proof.
  induction s as [|c s IH]; [done|]. rewrite append_cons. simpl. by rewrite IH.
Qed.

Lemma length_repeat_space (n : nat) : String.length (repeat_string n " ") = n.
Proof.
  induction n as [|n IH]; [done|]. simpl. rewrite length_append, IH. done.
Qed.

Lemma Repeat_space (count : Z) :
  (0 ≤ count ≤ 15)%Z →
  Repeat " " count = Ret (repeat_string (Z.to_nat count) " ").
Proof.
  intros Hc. unfold Repeat.
  rewrite bool_decide_eq_false_2 by lia.
  rewrite bool_decide_eq_false_2; [done|].
  change (Z.of_nat (String.length " ")) with 1%Z. unfold maxInt. lia.
Qed.

(** Whether the line of a flag is printed. *)
Lemma flag_line_aux (flag : flagDef.t) :
  if bool_decide (flag_width flag ≤ 15)
  then ∃ line, flag_line flag = Ret line
  else flag_line flag = Panic.
Proof.
  unfold flag_line, flag_width. cbv zeta.
  set (w := String.length _). case_bool_decide as Hw.
  - rewrite Repeat_space by lia. by eexists.
  - unfold Repeat. by rewrite bool_decide_eq_true_2 by lia.
Qed.

Lemma option_line_aux (opt : optionDef.t) :
  ∃ line, option_line opt = Ret line.
Proof.
  unfold option_line. cbv zeta. set (w := String.length _).
  assert (max 0 (10 - Z.of_nat w) = Z.of_nat (10 - w)) as ->.
  { unfold max. case_bool_decide; lia. }
  rewrite Repeat_space by lia. by eexists.
Qed.

(** X21: The line of a flag whose formatted alias and name take more
    than 15 bytes is never printed: [strings.Repeat] panics on the
    negative count.  Otherwise the line pads the name with spaces so
    that what stands before the help text is 19 bytes long, for every
    flag.  The padding is counted in bytes, as [len] counts. *)
Theorem flag_line_column (flag : flagDef.t) :
  if bool_decide (flag_width flag ≤ 15) then
    flag_line flag =
      Ret (("  " +:+ short_prefix (flagDef.short flag) +:+ "--"
            +:+ flagDef.name flag
            +:+ repeat_string (15 - flag_width flag) " ")
           +:+ " " +:+ or_dash (flagDef.help flag) +:+ LF) ∧
    String.length ("  " +:+ short_prefix (flagDef.short flag) +:+ "--"
                   +:+ flagDef.name flag
                   +:+ repeat_string (15 - flag_width flag) " ") = 19
  else flag_line flag = Panic.
Proof.
  unfold flag_line, flag_width. cbv zeta.
  set (w := String.length _). case_bool_decide as Hw.
  - rewrite Repeat_space by lia. cbn [mbind outcome_bind].
    replace (Z.to_nat (15 - Z.of_nat w)) with (15 - w) by lia. split.
    + by rewrite !app_assoc_string.
    + unfold w in *.
      rewrite !length_append, length_repeat_space.
      rewrite length_append in Hw. simpl. lia.
  - unfold Repeat. by rewrite bool_decide_eq_true_2 by lia.
Qed.

(** X22: The line of an option is always printed: the count handed
    to [strings.Repeat] goes through [max(0, ...)].  What stands before
    the help text is 22 bytes long for every option whose formatted
    alias, name and choices take at most 10 bytes, and 12 bytes more
    than these take for the others.  The padding is counted in bytes,
    as [len] counts. *)
Theorem option_line_column (opt : optionDef.t) :
  option_line opt =
    Ret (("  " +:+ short_prefix (optionDef.short opt) +:+ "--"
          +:+ optionDef.name opt +:+ " <value>"
          +:+ choices_suffix (optionDef.choices opt)
          +:+ repeat_string (10 - option_width opt) " ")
         +:+ " " +:+ or_dash (optionDef.help opt) +:+ LF) ∧
  String.length ("  " +:+ short_prefix (optionDef.short opt) +:+ "--"
                 +:+ optionDef.name opt +:+ " <value>"
                 +:+ choices_suffix (optionDef.choices opt)
                 +:+ repeat_string (10 - option_width opt) " ")
    = 12 + Nat.max 10 (option_width opt).
Proof.
  unfold option_line, option_width. cbv zeta.
  set (w := String.length _).
  assert (max 0 (10 - Z.of_nat w) = Z.of_nat (10 - w)) as ->.
  { unfold max. case_bool_decide; lia. }
  rewrite Repeat_space by lia. cbn [mbind outcome_bind].
  rewrite Nat2Z.id. split.
  - by rewrite !app_assoc_string.
  - unfold w.
    rewrite !length_append, length_repeat_space. simpl. lia.
Qed.

(** How a printing call ends, through a sequence of such calls. *)
Lemma ending_bind {A B} (m : printing A) (k : A → printing B) :
  ending (m ≫= k) = (ending m ≫= λ a, ending (k a)).
Proof. unfold mbind at 1, printing_bind. by destruct (ending m). Qed.

Lemma ending_when (b : bool) (m : printing unit) :
  ending m = Ret () → ending (when b m) = Ret ().
Proof. by destruct b. Qed.

Lemma Usage_positionals_ending (positionals : list string) :
  ending (Usage_positionals positionals) = Ret ().
Proof.
  induction positionals as [|pos positionals IH]; [done|].
  cbn [Usage_positionals]. rewrite ending_bind.
  by cbn [ending fmt_Print mbind outcome_bind].
Qed.

Lemma Usage_options_ending (options : list optionDef.t) :
  ending (Usage_options options) = Ret ().
Proof.
  induction options as [|opt options IH]; [done|].
  cbn [Usage_options]. rewrite ending_bind. cbn [ending quiet].
  destruct (option_line_aux opt) as [line ->]. cbn [mbind outcome_bind].
  rewrite ending_bind. by cbn [ending fmt_Print mbind outcome_bind].
Qed.

Lemma Usage_flags_ending (flags : list flagDef.t) :
  (Forall (λ flag, flag_width flag ≤ 15) flags →
   ending (Usage_flags flags) = Ret ()) ∧
  (Exists (λ flag, 15 < flag_width flag) flags →
   ending (Usage_flags flags) = Panic).
Proof.
  induction flags as [|flag flags [IHret IHpanic]].
  { split; [done|]. by intros ?%Exists_nil. }
  cbn [Usage_flags]. rewrite ending_bind. cbn [ending quiet].
  pose proof (flag_line_aux flag) as Hline.
  case_bool_decide as Hw.
  - destruct Hline as [line ->]. cbn [mbind outcome_bind].
    rewrite ending_bind. cbn [ending fmt_Print mbind outcome_bind]. split.
    + intros [_ Hall]%Forall_cons. by apply IHret.
    + intros [?|Hex]%Exists_cons; [lia|by apply IHpanic].
  - rewrite Hline. cbn [mbind outcome_bind]. split; [|done].
    intros [? _]%Forall_cons. lia.
Qed.

Section Usage_facts.
Context (σ : schedule) (command_order : gmap string loc → list (string * loc)).
Context (RuneCountInString : string → nat) (os_Args : list string).
Context (h : heap).

Lemma Usage_commands_ending (commands : list (string * loc)) :
  Forall (λ entry, is_Some (h !! entry.2)) commands →
  ending (Usage_commands RuneCountInString h commands) = Ret ().
Proof.
  induction 1 as [|[name cmd] commands [child Hchild] _ IH]; [done|].
  cbn [Usage_commands]. rewrite ending_bind. cbn [ending quiet deref].
  simpl in Hchild. rewrite Hchild. cbn [mbind outcome_bind].
  rewrite ending_bind. by cbn [ending fmt_Print mbind outcome_bind].
Qed.
End Usage_facts.

(** X23: On a tree as the builder leaves it, with [os.Args] not empty,
    [Usage] ends, and it ends in a panic exactly when a flag that it
    lists, the node's own or an inherited one that no closer level
    hides, has a formatted alias and name of more than 15 bytes; no
    option and no child makes it panic. *)
Theorem Usage_panics_on_long_flag (σ : schedule)
    (command_order : gmap string loc → list (string * loc))
    (RuneCountInString : string → nat) (os_Args : list string) (h : heap)
    (l : loc) (c : list (loc * Parser.t)) :
  legal σ →
  (∀ m, command_order m ≡ₚ map_to_list m) →
  os_Args ≠ [] →
  closed h →
  chain h (Some l) c →
  Forall keyed c.*2 →
  (ending (Usage σ command_order RuneCountInString os_Args h (Some l)) = Panic
   ∨ ending (Usage σ command_order RuneCountInString os_Args h (Some l))
     = Ret ()) ∧
  (ending (Usage σ command_order RuneCountInString os_Args h (Some l)) = Panic
   ↔ ∃ flag, collected flagDef.name (Parser.flags <$> c.*2) flag ∧
             15 < flag_width flag).
Proof.
  intros [Hf Ho] Hco Hargs Hclosed Hchain Hkeyed.
  pose proof (chain_length _ _ _ Hchain) as Hlen.
  destruct (collect_loop_spec flagDef.name h Parser.flags (flag_order σ) Hf
              (Some l) c Hchain (size h) 0 [] ∅ [] Hlen)
    as (flags & Hflags & _ & Hcollected).
  { apply Forall_fmap. eapply Forall_impl; [done|]. by intros n [? _]. }
  { apply seen_ok_nil. }
  { constructor. }
  { intros d. split; [by intros ?%elem_of_nil|].
    intros (n & m & Hn & _). by rewrite lookup_nil in Hn. }
  destruct (collect_loop_spec optionDef.name h Parser.options (option_order σ)
              Ho (Some l) c Hchain (size h) 0 [] ∅ [] Hlen)
    as (options & Hoptions & _).
  { apply Forall_fmap. eapply Forall_impl; [done|]. by intros n [_ ?]. }
  { apply seen_ok_nil. }
  { constructor. }
  { intros d. split; [by intros ?%elem_of_nil|].
    intros (n & m & Hn & _). by rewrite lookup_nil in Hn. }
  simpl in Hcollected.
  assert (∃ path, getPath os_Args h (Some l) = Ret path) as [path Hpath].
  { rewrite (getPath_on_chain os_Args h _ c Hchain).
    destruct (path_names c); [|by eexists].
    destruct os_Args; [done|by eexists]. }
  inversion Hchain as [|? node c' Hl Hparent]; subst.
  assert (ending (Usage σ command_order RuneCountInString os_Args h (Some l))
          = ending (when (bool_decide (0 < length flags))
                         (fmt_Print (LF +:+ "Flags:" +:+ LF);;
                          Usage_flags flags))) as ->.
  { unfold Usage. rewrite ending_bind. cbn [ending quiet]. rewrite Hpath.
    cbn [mbind outcome_bind]. rewrite ending_bind.
    cbn [ending fmt_Print mbind outcome_bind].
    rewrite ending_bind. cbn [ending quiet deref]. rewrite Hl.
    cbn [mbind outcome_bind].
    rewrite ending_bind, ending_when by done. cbn [mbind outcome_bind].
    rewrite ending_bind, ending_when by done. cbn [mbind outcome_bind].
    rewrite ending_bind, ending_when by apply Usage_positionals_ending.
    cbn [mbind outcome_bind].
    rewrite ending_bind. cbn [ending fmt_Print mbind outcome_bind].
    rewrite ending_bind, ending_when by done. cbn [mbind outcome_bind].
    rewrite ending_bind, ending_when.
    2:{ rewrite ending_bind. cbn [ending fmt_Print mbind outcome_bind].
        apply Usage_commands_ending. apply Forall_forall.
        intros [name cmd] Hin. rewrite Hco in Hin.
        apply elem_of_map_to_list in Hin. simpl. by eapply Hclosed. }
    cbn [mbind outcome_bind].
    rewrite ending_bind. cbn [ending quiet]. unfold collectFlags.
    rewrite collectFlags_loop_shape, Hflags. cbn [mbind outcome_bind].
    rewrite ending_bind.
    destruct (ending (when (bool_decide (0 < length flags)) _))
      as [[]| | |]; try done.
    cbn [mbind outcome_bind].
    rewrite ending_bind. cbn [ending quiet]. unfold collectOptions.
    rewrite collectOptions_loop_shape, Hoptions. cbn [mbind outcome_bind].
    apply ending_when. rewrite ending_bind.
    cbn [ending fmt_Print mbind outcome_bind]. apply Usage_options_ending. }
  destruct (Usage_flags_ending flags) as [Hret Hpanic].
  destruct (decide (Exists (λ flag, 15 < flag_width flag) flags)) as [Hex|Hall].
  - assert (ending (when (bool_decide (0 < length flags))
                         (fmt_Print (LF +:+ "Flags:" +:+ LF);;
                          Usage_flags flags)) = Panic) as ->.
    { rewrite bool_decide_eq_true_2.
      - cbn [when]. rewrite ending_bind.
        cbn [ending fmt_Print mbind outcome_bind]. by apply Hpanic.
      - destruct flags; [by apply Exists_nil in Hex|simpl; lia]. }
    split; [by left|]. split; [|done]. intros _.
    apply Exists_exists in Hex as (flag & Hin & Hlong).
    exists flag. split; [by apply Hcollected|done].
  - assert (ending (when (bool_decide (0 < length flags))
                         (fmt_Print (LF +:+ "Flags:" +:+ LF);;
                          Usage_flags flags)) = Ret ()) as ->.
    { apply ending_when. rewrite ending_bind.
      cbn [ending fmt_Print mbind outcome_bind]. apply Hret.
      apply Forall_forall. intros flag Hin.
      destruct (decide (flag_width flag ≤ 15)); [done|].
      exfalso. apply Hall. apply Exists_exists. exists flag. split; [done|lia]. }
    split; [by right|]. split; [done|].
    intros (flag & Hin%Hcollected & Hlong). exfalso. apply Hall.
    apply Exists_exists. by exists flag.
Qed.

Lemma wide_heap_closed : closed wide_heap.
Proof. intros l node name cmd Hl Hcmd. in_range Hl; in_range Hcmd. Qed.

Lemma wide_heap_chain : chain wide_heap (Some 1%positive) [(1%positive, wide_node)].
Proof. eapply chain_up; [vm_compute; reflexivity|]. apply chain_root. Qed.

Lemma wide_heap_keyed : Forall keyed [wide_node].
Proof. repeat constructor; intros k d Hk; in_range Hk. Qed.

Lemma Usage_panics_on_long_flag_witness :
  (ending (Usage key_order map_to_list String.length ["cli"] wide_heap
                 (Some 1%positive)) = Panic
   ∨ ending (Usage key_order map_to_list String.length ["cli"] wide_heap
                   (Some 1%positive)) = Ret ()) ∧
  (ending (Usage key_order map_to_list String.length ["cli"] wide_heap
                 (Some 1%positive)) = Panic
   ↔ ∃ flag,
       collected flagDef.name (Parser.flags <$> [(1%positive, wide_node)].*2)
                 flag ∧
       15 < flag_width flag).
Proof.
  apply (Usage_panics_on_long_flag key_order map_to_list String.length
           ["cli"] wide_heap 1%positive [(1%positive, wide_node)]
           legal_key_order).
  - done.
  - done.
  - exact wide_heap_closed.
  - exact wide_heap_chain.
  - exact wide_heap_keyed.
Defined.

(** What is printed before the panic: the usage line and the heading of
    the flags. *)
Lemma Usage_wide_flag :
  Usage key_order map_to_list String.length ["cli"] wide_heap
        (Some 1%positive) =
    mkPrinting ["Usage: cli"; " [options]"; LF; LF +:+ "Flags:" +:+ LF] Panic.
Proof. vm_compute. reflexivity. Qed.

(** ** [Run] *)

(** X24: On a tree in which every registered child is allocated: when
    [Parse] fails, [Run] prints nothing, calls no handler and returns
    that error; when [Parse] succeeds, [Run] goes down the command path
    to an allocated node and either does what that node's handler does
    on the result, printing nothing itself, or, the node having no
    handler, does what [Usage] of that node does and then returns
    nil. *)
Theorem Run_dispatch (σ : schedule)
    (command_order : gmap string loc → list (string * loc))
    (RuneCountInString : string → nat) (os_Args : list string) (h : heap)
    (p : ptr) (args : list string) :
  closed h →
  match Parse σ h p args with
  | Ret r =>
      ∃ l node,
        Run_walk h p (Result.Command r) = Ret (Some l) ∧
        h !! l = Some node ∧
        Run σ command_order RuneCountInString os_Args h p args =
          match Parser.handler node with
          | Some fn => fn r
          | None =>
              Usage σ command_order RuneCountInString os_Args h (Some l);;
              mret ()
          end
  | Err e =>
      Run σ command_order RuneCountInString os_Args h p args
        = mkPrinting [] (Err e)
  | Panic =>
      Run σ command_order RuneCountInString os_Args h p args
        = mkPrinting [] Panic
  | Diverge => False
  end.
Proof.
  intros Hclosed.
  destruct (Parse σ h p args) as [r|e| |] eqn:Hparse.
  - assert (∃ l node, Run_walk h p (Result.Command r) = Ret (Some l) ∧
                      h !! l = Some node) as (l & node & Hwalk & Hl).
    { unfold Parse in Hparse. case_bool_decide as Hlen; [done|].
      eapply Parse_loop_walk; [done|exact Hparse|done|].
      left. simpl. lia. }
    exists l, node. split; [done|]. split; [done|].
    unfold Run. rewrite Hparse, quiet_bind, Hwalk, quiet_bind.
    cbn [deref]. by rewrite Hl, quiet_bind.
  - unfold Run. by rewrite Hparse.
  - unfold Run. by rewrite Hparse.
  - by apply Parse_terminates in Hparse.
Qed.

Lemma Run_dispatch_witness :
  match Parse key_order app_heap (Some 1%positive) ["run"; "exec"; "ls"] with
  | Ret r =>
      ∃ l node,
        Run_walk app_heap (Some 1%positive) (Result.Command r)
          = Ret (Some l) ∧
        app_heap !! l = Some node ∧
        Run key_order map_to_list String.length ["app"] app_heap
            (Some 1%positive) ["run"; "exec"; "ls"] =
          match Parser.handler node with
          | Some fn => fn r
          | None =>
              Usage key_order map_to_list String.length ["app"] app_heap
                    (Some l);;
              mret ()
          end
  | Err e =>
      Run key_order map_to_list String.length ["app"] app_heap
          (Some 1%positive) ["run"; "exec"; "ls"]
        = mkPrinting [] (Err e)
  | Panic =>
      Run key_order map_to_list String.length ["app"] app_heap
          (Some 1%positive) ["run"; "exec"; "ls"]
        = mkPrinting [] Panic
  | Diverge => False
  end.
Proof.
  exact (Run_dispatch key_order map_to_list String.length ["app"] app_heap
           (Some 1%positive) ["run"; "exec"; "ls"] app_heap_closed).
Defined.

(** On the node with the long flag, which has no handler, [Run] prints
    the beginning of the usage text and panics. *)
Lemma Run_wide_flag :
  Run key_order map_to_list String.length ["cli"] wide_heap
      (Some 1%positive) ["x"] =
    mkPrinting ["Usage: cli"; " [options]"; LF; LF +:+ "Flags:" +:+ LF] Panic.
Proof. vm_compute. reflexivity. Qed.

(** ** A parser as [New] leaves it, and the handler [Action] sets *)

Section bare_node.
Context (σ : schedule) (h : heap) (Hσ : legal σ).
Context (node : Parser.t).
Context (Hflags : Parser.flags node = ∅) (Hoptions : Parser.options node = ∅).
Context (Hcommands : Parser.commands node = ∅).

(** At a node that declares nothing, the loop stops at the first token
    that starts with a dash and takes every token before as a
    positional. *)
Lemma Parse_loop_bare_node (args : list string) :
  ∀ fuel st,
    deref h (current st) = Ret node →
    length args - i st ≤ fuel →
    Parse_loop σ h fuel args st =
      match List.find (λ arg, HasPrefix arg "-") (drop (i st) args) with
      | Some arg => Err (UnknownFlagError arg)
      | None =>
          Ret (set_Args (Result.mk (Result.Command (result st))
                                   (Result.Flags (result st))
                                   (Result.Options (result st))
                                   (Result.Positionals (result st)
                                      ++ drop (i st) args)
                                   (Result.Args (result st))))
      end.
Proof.
  induction fuel as [|fuel IH]; intros st Hnode Hfuel.
  - rewrite Parse_loop_exit by lia.
    rewrite drop_ge by lia. simpl. by rewrite app_nil_r.
  - destruct (decide (i st < length args)) as [Hlt|Hge].
    2:{ rewrite Parse_loop_exit by lia.
        rewrite drop_ge by lia. simpl. by rewrite app_nil_r. }
    rewrite Parse_loop_unfold by done.
    destruct (lookup_lt_is_Some_2 args (i st) Hlt) as [arg Harg].
    rewrite (drop_S _ _ _ Harg). cbn [List.find].
    assert (Parser.commands node !! arg = None) as Hcmd
      by by rewrite Hcommands, lookup_empty.
    destruct (HasPrefix arg "-") eqn:Hdash.
    + rewrite (Parse_body_unknown σ h Hσ args st arg node Harg Hnode Hcmd);
        [done| |done|].
      * intros k flag. by rewrite Hflags, lookup_empty.
      * intros k opt. by rewrite Hoptions, lookup_empty.
    + rewrite (Parse_body_positional σ h _ _ _ _ Harg Hnode Hcmd Hdash).
      cbn [mbind outcome_bind]. rewrite IH; cbn [i current result]; [|done|lia].
      replace (i st + 1) with (S (i st)) by lia.
      unfold push_Positionals. cbn [Result.Command Result.Flags Result.Options
        Result.Positionals Result.Args]. by rewrite <- app_assoc.
Qed.
End bare_node.

(** X25: A parser as [New] leaves it, with nothing registered, accepts
    exactly the token sequences without a dash-prefixed token, all of
    them as positionals, and reports the first dash-prefixed token as
    an unknown flag. *)
Theorem New_then_Parse (σ : schedule) (name : string) (h : heap)
    (args : list string) :
  legal σ →
  args ≠ [] →
  Parse σ (New name h).2 (Some (New name h).1) args =
    match List.find (λ arg, HasPrefix arg "-") args with
    | Some arg => Err (UnknownFlagError arg)
    | None => Ret (Result.mk [] ∅ ∅ args args)
    end.
Proof.
  intros Hσ Hne. unfold Parse.
  rewrite bool_decide_eq_false_2 by (by destruct args).
  rewrite (Parse_loop_bare_node σ _ Hσ (Parser.mk name "" ∅ ∅ ∅ nil None []));
    try done.
  - simpl. unfold New. simpl. by rewrite lookup_insert_eq.
  - simpl. lia.
Qed.

Lemma New_then_Parse_witness :
  Parse key_order (New "app" ∅).2 (Some (New "app" ∅).1) ["a"; "-b"; "-c"] =
    match List.find (λ arg, HasPrefix arg "-") ["a"; "-b"; "-c"] with
    | Some arg => Err (UnknownFlagError arg)
    | None => Ret (Result.mk [] ∅ ∅ ["a"; "-b"; "-c"] ["a"; "-b"; "-c"])
    end.
Proof.
  apply (New_then_Parse key_order "app" ∅ ["a"; "-b"; "-c"] legal_key_order).
  done.
Defined.

(** X26: The handler [Action] sets is the one [Run] calls: after
    [Action] on a node, [Run] at that node, on tokens that [Parse]
    accepts without going down to a child, does exactly what the
    handler does on the result of [Parse], printing what it prints and
    ending as it ends; and after [Action] with the nil function, [Run]
    does what [Usage] of the node does and returns nil. *)
Theorem Action_then_Run (σ : schedule)
    (command_order : gmap string loc → list (string * loc))
    (RuneCountInString : string → nat) (os_Args : list string) (h : heap)
    (l : loc) (node : Parser.t) (fn : option (Result.t → printing unit))
    (args : list string) (r : Result.t) :
  h !! l = Some node →
  Parse σ h (Some l) args = Ret r →
  Result.Command r = [] →
  ∃ h', Action (Some l) fn h = Ret (Some l, h') ∧
        h' !! l = Some (set_handler node fn) ∧
        Run σ command_order RuneCountInString os_Args h' (Some l) args =
          match fn with
          | Some handler => handler r
          | None =>
              Usage σ command_order RuneCountInString os_Args h' (Some l);;
              mret ()
          end.
Proof.
  intros Hl Hparse Hcmd. unfold Action.
  destruct (update (Some l) (λ n, set_handler n fn) h)
    as [h'| | |] eqn:Hupd; try (unfold update in Hupd; by rewrite Hl in Hupd).
  exists h'. split; [done|].
  assert (Parse σ h' (Some l) args = Ret r) as Hparse'.
  { rewrite <- Hparse. unfold Parse. case_bool_decide; [done|].
    apply Parse_loop_same_grammar.
    eapply update_same_grammar; [|exact Hupd]. by intros []. }
  unfold update in Hupd. rewrite Hl in Hupd. injection Hupd as <-.
  split; [by rewrite lookup_insert_eq|].
  unfold Run. rewrite Hparse', quiet_bind, Hcmd.
  cbn [Run_walk]. rewrite quiet_bind.
  cbn [deref]. rewrite lookup_insert_eq, quiet_bind. done.
Qed.

Lemma Action_then_Run_witness :
  ∃ h', Action (Some 1%positive)
               (Some (λ r, mkPrinting ["Config: " +:+ default ""
                                         (Result.Options r !! "config")]
                                      (Err "boom")))
               app_heap = Ret (Some 1%positive, h') ∧
        h' !! 1%positive =
          Some (set_handler app_node
                  (Some (λ r, mkPrinting ["Config: " +:+ default ""
                                            (Result.Options r !! "config")]
                                         (Err "boom")))) ∧
        Run key_order map_to_list String.length ["app"] h'
            (Some 1%positive) ["-v"; "--config=a.conf"] =
          match Some (λ r : Result.t,
                        mkPrinting ["Config: " +:+ default ""
                                      (Result.Options r !! "config")]
                                   (Err "boom")) with
          | Some handler =>
              handler (Result.mk [] {["verbose" := true]}
                                 {["config" := "a.conf"]} [] [])
          | None =>
              Usage key_order map_to_list String.length ["app"] h'
                    (Some 1%positive);;
              mret ()
          end.
Proof.
  apply (Action_then_Run key_order map_to_list String.length ["app"] app_heap
           1%positive app_node
           (Some (λ r, mkPrinting ["Config: " +:+ default ""
                                     (Result.Options r !! "config")]
                                  (Err "boom")))
           ["-v"; "--config=a.conf"]
           (Result.mk [] {["verbose" := true]} {["config" := "a.conf"]}
                      [] [])).
  - vm_compute. reflexivity.
  - vm_compute. reflexivity.
  - reflexivity.
Defined.

(** After [Action] with the nil function on the node with the long
    flag, [Run] ends in the panic of [Usage]. *)
Lemma Action_nil_then_Run :
  ∃ h', Action (Some 1%positive) None wide_heap = Ret (Some 1%positive, h') ∧
        Run key_order map_to_list String.length ["cli"] h'
            (Some 1%positive) ["x"] =
          mkPrinting ["Usage: cli"; " [options]"; LF; LF +:+ "Flags:" +:+ LF]
                     Panic.
Proof. exists wide_heap. split; vm_compute; reflexivity. Qed.
